(** * KOSMOS-2 processor: grounding-tag codec

    A shallow embedding of [processing_kosmos2.py] (the text/bounding-box
    codec of the KOSMOS-2 processor) and the verification of its
    specification.

    Layout of the development:
    - [PyStr]: the Python string operations the code uses;
    - [Re]: a backtracking matcher for the fragment of Python's [re] the
      code uses, with [search], [finditer], [split] and [sub];
    - the exceptions the code can raise;
    - [Arith]: the arithmetic the quantizer is written over, instantiated
      with exact rationals and with IEEE-754 binary64;
    - the processor's functions, under the names they have in the source;
    - the notions the statements and their proofs use;
    - the properties, claim by claim, each after the facts about strings
      and about the matcher it rests on;
    - further properties of the same functions and of the rest of the
      processor.

    Text is a [string] whose characters are the code points 0..255. *)

From Stdlib Require Import Bool Arith ZArith QArith Qround Floats.
From Stdlib Require Import String Ascii List Lia DecimalString DecimalPos.
Import ListNotations.

Local Open Scope string_scope.
Local Open Scope list_scope.
Local Open Scope nat_scope.

(* ================================================================== *)
(** * Python string operations *)

Module PyStr.

(** [str.isspace] on the code points below 256. *)
Definition is_space (c : ascii) : bool :=
  let n := nat_of_ascii c in
  ((9 <=? n) && (n <=? 13)) || ((28 <=? n) && (n <=? 32))
  || (n =? 133) || (n =? 160).

(** [s.lstrip()] *)
Fixpoint lstrip (s : string) : string :=
  match s with
  | EmptyString => EmptyString
  | String c t => if is_space c then lstrip t else s
  end.

(** [s.rstrip()] *)
Fixpoint rstrip (s : string) : string :=
  match s with
  | EmptyString => EmptyString
  | String c t =>
      match rstrip t with
      | EmptyString => if is_space c then EmptyString else String c EmptyString
      | t' => String c t'
      end
  end.

(** [s.strip()] *)
Definition strip (s : string) : string := lstrip (rstrip s).

(** [s.startswith(p)] *)
Definition startswith (s p : string) : bool := String.prefix p s.

(** [s[a:b]] for [0 <= a], [0 <= b] *)
Definition slice (a b : nat) (s : string) : string := substring a (b - a) s.

(** [s[a:]] *)
Fixpoint drop (a : nat) (s : string) : string :=
  match a, s with
  | O, _ => s
  | S a', EmptyString => EmptyString
  | S a', String _ t => drop a' t
  end.

(** [sep.join(l)] *)
Fixpoint join (sep : string) (l : list string) : string :=
  match l with
  | [] => EmptyString
  | [x] => x
  | x :: l' => (x ++ sep ++ join sep l')%string
  end.

(** [s.split(sep)] for a non-empty [sep]: [skip] counts the characters of
    a separator just found that are still to be passed over. *)
Fixpoint split_go (sep : string) (skip : nat) (s : string) : list string :=
  match s with
  | EmptyString => [EmptyString]
  | String c t =>
      match skip with
      | S k => split_go sep k t
      | O =>
          if String.prefix sep s
          then EmptyString :: split_go sep (String.length sep - 1) t
          else match split_go sep 0 t with
               | x :: l => String c x :: l
               | [] => [String c EmptyString]
               end
      end
  end.

Definition split (sep s : string) : list string := split_go sep 0 s.

(** [c * n] for a one-character string *)
Fixpoint replicate (n : nat) (c : ascii) : string :=
  match n with
  | O => EmptyString
  | S n' => String c (replicate n' c)
  end.

(** [s.zfill(width)]: zeros go after a leading sign. *)
Definition zfill (width : nat) (s : string) : string :=
  let n := String.length s in
  if width <=? n then s
  else
    let zeros := replicate (width - n) "0"%char in
    match s with
    | String c t =>
        if (Ascii.eqb c "+" || Ascii.eqb c "-")%bool
        then String c (zeros ++ t)%string
        else (zeros ++ s)%string
    | EmptyString => zeros
    end.

(** [str(z)] for an [int] *)
Definition str_of_int (z : Z) : string := NilZero.string_of_int (Z.to_int z).

Definition is_digit (c : ascii) : bool :=
  let n := nat_of_ascii c in (48 <=? n) && (n <=? 57).

(** [int(s)] for a string of decimal digits (what [\d+] captures) *)
Definition int_of_digits (s : string) : Z :=
  List.fold_left
    (fun acc c => (10 * acc + Z.of_nat (nat_of_ascii c - 48))%Z)
    (list_ascii_of_string s) 0%Z.

(** [x in l] for strings *)
Definition mem (x : string) (l : list string) : bool :=
  existsb (String.eqb x) l.

End PyStr.

(* ================================================================== *)
(** * Regular expressions

    The fragment of Python's [re] that occurs in the source: literals,
    [.], [[^c]], [\d], sequencing, alternation, greedy and lazy
    repetition, and capture groups.  Matching is by backtracking in the
    order of Python's engine: the first alternative first, a greedy
    repetition tries one more iteration before it stops, a lazy one stops
    before it tries one more. *)

Module Re.

Inductive regex : Type :=
| Eps                              (* the empty pattern *)
| Chr (c : ascii)                  (* a literal character *)
| Dot                              (* [.]: any character but a newline *)
| NotChr (c : ascii)               (* [[^c]] *)
| Digit                            (* [\d] *)
| Cat (a b : regex)                (* [ab] *)
| Alt (a b : regex)                (* [a|b] *)
| Star (greedy : bool) (a : regex) (* [a*] and [a*?] *)
| Grp (n : nat) (a : regex).       (* the capture group number [n] *)

(** A literal string. *)
Fixpoint Lit (s : string) : regex :=
  match s with
  | EmptyString => Eps
  | String c t => Cat (Chr c) (Lit t)
  end.

(** [a+] and [a+?] *)
Definition Plus (greedy : bool) (a : regex) : regex := Cat a (Star greedy a).

(** [a?] *)
Definition Opt (a : regex) : regex := Alt a Eps.

(** A sequence of patterns. *)
Fixpoint Seq (l : list regex) : regex :=
  match l with
  | [] => Eps
  | [a] => a
  | a :: l' => Cat a (Seq l')
  end.

(** An alternation [a1|a2|...]; of no pattern, the empty pattern. *)
Fixpoint Alts (l : list regex) : regex :=
  match l with
  | [] => Eps
  | [a] => a
  | a :: l' => Alt a (Alts l')
  end.

(** The state of a match attempt: the offset reached, the text from there
    on, and the spans of the groups closed so far (latest first). *)
Record mstate : Type := MState {
  pos : nat;
  rest : string;
  caps : list (nat * (nat * nat))
}.

Definition cont : Type := mstate -> option mstate.

(** One character, when the pattern is a single-character one. *)
Definition char_ok (r : regex) (c : ascii) : bool :=
  match r with
  | Chr c' => Ascii.eqb c' c
  | Dot => negb (Ascii.eqb c "010"%char)
  | NotChr c' => negb (Ascii.eqb c' c)
  | Digit => PyStr.is_digit c
  | _ => false
  end.

Definition eat (r : regex) (s : mstate) (k : cont) : option mstate :=
  match rest s with
  | String c t => if char_ok r c then k (MState (S (pos s)) t (caps s)) else None
  | EmptyString => None
  end.

(** Repetition of [step]; an iteration that consumes nothing ends the
    repetition (no pattern of the source has one). *)
Fixpoint star_loop (step : mstate -> cont -> option mstate) (greedy : bool)
    (fuel : nat) (s : mstate) (k : cont) : option mstate :=
  match fuel with
  | O => k s
  | S fuel' =>
      let again :=
        step s (fun s' =>
                  if pos s' <=? pos s then None
                  else star_loop step greedy fuel' s' k) in
      if greedy
      then match again with Some r => Some r | None => k s end
      else match k s with Some r => Some r | None => again end
  end.

(** [rmatch r s k]: match [r] from state [s], then go on with [k]; the
    first success in backtracking order. *)
Fixpoint rmatch (r : regex) (s : mstate) (k : cont) : option mstate :=
  match r with
  | Eps => k s
  | Chr _ | Dot | NotChr _ | Digit => eat r s k
  | Cat a b => rmatch a s (fun s' => rmatch b s' k)
  | Alt a b =>
      match rmatch a s k with
      | Some x => Some x
      | None => rmatch b s k
      end
  | Star greedy a => star_loop (rmatch a) greedy (S (String.length (rest s))) s k
  | Grp n a =>
      rmatch a s (fun s' => k (MState (pos s') (rest s') ((n, (pos s, pos s')) :: caps s')))
  end.

(** A match object: [m.start()], [m.end()] and the groups' spans. *)
Record match_obj : Type := Match {
  m_start : nat;
  m_end : nat;
  m_rest : string;
  m_caps : list (nat * (nat * nat))
}.

(** A match that starts exactly at offset [p], where the text from [p] on
    is [s].  [adv] refuses the empty match (after an empty match the
    engine must advance). *)
Definition match_at (r : regex) (p : nat) (s : string) (adv : bool)
  : option match_obj :=
  match rmatch r (MState p s [])
          (fun e => if (adv && (pos e =? p))%bool then None else Some e) with
  | Some e => Some (Match p (pos e) (rest e) (caps e))
  | None => None
  end.

(** The leftmost match at or after offset [p]. *)
Fixpoint search_from (r : regex) (p : nat) (s : string) (adv : bool)
  : option match_obj :=
  match match_at r p s adv with
  | Some m => Some m
  | None =>
      match s with
      | EmptyString => None
      | String _ t => search_from r (S p) t false
      end
  end.

(** [re.search(r, s)] *)
Definition search (r : regex) (s : string) : option match_obj :=
  search_from r 0 s false.

(** The successive non-overlapping matches from offset [p] on. *)
Fixpoint finditer_from (r : regex) (fuel : nat) (p : nat) (s : string)
    (adv : bool) : list match_obj :=
  match fuel with
  | O => []
  | S fuel' =>
      match search_from r p s adv with
      | None => []
      | Some m =>
          m :: finditer_from r fuel' (m_end m) (m_rest m) (m_end m =? m_start m)
      end
  end.

(** [list(re.finditer(r, s))]: a text of [n] characters has at most
    [2n+1] matches. *)
Definition finditer (r : regex) (s : string) : list match_obj :=
  finditer_from r (2 * String.length s + 2) 0 s false.

(** [m.span(n)] of a group: [None] when the group took no part. *)
Fixpoint lookup (n : nat) (l : list (nat * (nat * nat))) : option (nat * nat) :=
  match l with
  | [] => None
  | (n', sp) :: l' => if n' =? n then Some sp else lookup n l'
  end.

Definition span (m : match_obj) (n : nat) : option (nat * nat) :=
  match n with
  | O => Some (m_start m, m_end m)
  | _ => lookup n (m_caps m)
  end.

(** [m.group(n)] in the text [s] the match was found in *)
Definition group (s : string) (m : match_obj) (n : nat) : option string :=
  match span m n with
  | Some (a, b) => Some (PyStr.slice a b s)
  | None => None
  end.

(** [re.split] by a pattern that is one capture group, number 1: the
    pieces between the matches, with each match's group after its piece. *)
Fixpoint split_pieces (s : string) (cur : nat) (ms : list match_obj)
  : list string :=
  match ms with
  | [] => [PyStr.drop cur s]
  | m :: ms' =>
      PyStr.slice cur (m_start m) s
      :: match group s m 1 with Some g => g | None => EmptyString end
      :: split_pieces s (m_end m) ms'
  end.

Definition split (r : regex) (s : string) : list string :=
  split_pieces s 0 (finditer (Grp 1 r) s).

(** [re.sub(r, "", s)]: what is left between the matches. *)
Fixpoint sub_pieces (s : string) (cur : nat) (ms : list match_obj) : string :=
  match ms with
  | [] => PyStr.drop cur s
  | m :: ms' => (PyStr.slice cur (m_start m) s ++ sub_pieces s (m_end m) ms')%string
  end.

Definition sub_empty (r : regex) (s : string) : string :=
  sub_pieces s 0 (finditer r s).

(** The characters that are not literals in a pattern. *)
Definition is_meta (c : ascii) : bool :=
  existsb (Ascii.eqb c)
    (list_ascii_of_string ".^$*+?{}[]\|()").

Definition is_literal (s : string) : bool :=
  forallb (fun c => negb (is_meta c)) (list_ascii_of_string s).

End Re.

(* ================================================================== *)
(** * Exceptions *)

Inductive exn : Type :=
| CountMismatch (phrases bboxes : nat)
    (* the [ValueError] of [_insert_patch_index_tokens]: the number of
       [<phrase> ... </phrase>] pairs and of elements of [bboxes] differ *)
| AssertionError      (* a failed [assert] *)
| ZeroDivisionError   (* a division by zero *)
| OverflowError       (* an [int] too large for a [float]; [floor] of an infinity *)
| NanError            (* [floor] or [ceil] of a NaN, a [ValueError] *)
| NotModelled.        (* no exception of the source: the input is outside
                         what this embedding covers *)

Inductive result (A : Type) : Type :=
| Ok (a : A)
| Raise (e : exn).
Arguments Ok {A} a.
Arguments Raise {A} e.

Definition bind {A B : Type} (x : result A) (f : A -> result B) : result B :=
  match x with
  | Ok a => f a
  | Raise e => Raise e
  end.

Notation "x <- e ;; k" := (bind e (fun x => k))
  (at level 61, e at next level, right associativity).
Notation "' p <- e ;; k" := (bind e (fun p => k))
  (at level 61, p pattern, e at next level, right associativity).

(** [for x in l: ...] where an iteration may raise *)
Fixpoint mapM {A B : Type} (f : A -> result B) (l : list A) : result (list B) :=
  match l with
  | [] => Ok []
  | a :: l' => b <- f a ;; bs <- mapM f l' ;; Ok (b :: bs)
  end.

(* ================================================================== *)
(** * Arithmetic of the quantizer

    The coordinate functions compute on Python [float]s and convert from
    and to [int].  They are written once, over the operations below, and
    run on two instances: the rationals (exact arithmetic) and binary64
    (what Python's [float] is). *)

Module Arith.

Record ops : Type := Ops {
  num : Type;
  of_int : Z -> result num;        (* [float(z)] *)
  add : num -> num -> num;
  sub : num -> num -> num;
  mul : num -> num -> num;
  div : num -> num -> result num;  (* [a / b] *)
  floor : num -> result Z;         (* [math.floor] *)
  ceil : num -> result Z           (* [math.ceil] *)
}.

(** Exact arithmetic. *)
Definition exact : ops := {|
  num := Q;
  of_int := fun z => Ok (inject_Z z);
  add := Qplus;
  sub := Qminus;
  mul := Qmult;
  div := fun a b => if Qeq_bool b 0 then Raise ZeroDivisionError else Ok (a / b)%Q;
  floor := fun a => Ok (Qfloor a);
  ceil := fun a => Ok (Qceiling a)
|}.

(** Binary64.  [float(z)] rounds to nearest, ties to even, and raises when
    the result would be infinite. *)
Definition float_of_int (z : Z) : result float :=
  match SpecFloat.binary_normalize prec emax z 0 false with
  | S754_infinity _ => Raise OverflowError
  | sf => Ok (SF2Prim sf)
  end.

Definition float_floor (x : float) : result Z :=
  match Prim2SF x with
  | S754_zero _ => Ok 0%Z
  | S754_finite s m e =>
      let v := if s then Z.neg m else Z.pos m in
      Ok (if (0 <=? e)%Z then v * 2 ^ e else v / 2 ^ (- e))%Z
  | S754_infinity _ => Raise OverflowError
  | S754_nan => Raise NanError
  end.

Definition float_ceil (x : float) : result Z :=
  match float_floor (- x)%float with
  | Ok z => Ok (- z)%Z
  | Raise e => Raise e
  end.

Definition binary64 : ops := {|
  num := float;
  of_int := float_of_int;
  add := PrimFloat.add;
  sub := PrimFloat.sub;
  mul := PrimFloat.mul;
  div := fun a b => if PrimFloat.is_zero b then Raise ZeroDivisionError
                    else Ok (PrimFloat.div a b);
  floor := float_floor;
  ceil := float_ceil
|}.

End Arith.

(* ================================================================== *)
(** * The processor *)

Import Re.

(** What the code reads of the tokenizer. *)
Record tokenizer : Type := Tokenizer {
  tag_tokens : list string;
  num_patch_index_tokens : nat
}.

(** A bounding box: a pair of patch indices or four coordinates. *)
Inductive box (F : Type) : Type :=
| Patch (idx_1 idx_2 : Z)
| Coord (x1 y1 x2 y2 : F).
Arguments Patch {F} idx_1 idx_2.
Arguments Coord {F} x1 y1 x2 y2.

(** The boxes given for one phrase: [None], one tuple, or a list. *)
Inductive bbox_group (F : Type) : Type :=
| NoBox
| OneBox (b : box F)
| Boxes (l : list (option (box F))).
Arguments NoBox {F}.
Arguments OneBox {F} b.
Arguments Boxes {F} l.

(** ** The quantizer *)

Section Quantizer.
Variable A : Arith.ops.
Local Abbreviation F := (Arith.num A).

(** [coordinate_to_patch_index(bbox, num_patches_per_side)] *)
Definition coordinate_to_patch_index (bbox : F * F * F * F)
    (num_patches_per_side : Z) : result (Z * Z) :=
  let '(x1, y1, x2, y2) := bbox in
  n <- Arith.of_int A num_patches_per_side ;;
  one <- Arith.of_int A 1 ;;
  ul_x <- Arith.floor A (Arith.mul A x1 n) ;;
  ul_y <- Arith.floor A (Arith.mul A y1 n) ;;
  lr_x <- Arith.ceil A (Arith.sub A (Arith.mul A x2 n) one) ;;
  lr_y <- Arith.ceil A (Arith.sub A (Arith.mul A y2 n) one) ;;
  let ul_idx := (ul_y * num_patches_per_side + ul_x)%Z in
  let lr_idx := (lr_y * num_patches_per_side + lr_x)%Z in
  Ok (ul_idx, lr_idx).

(** [patch_index_to_coordinate(ul_idx, lr_idx, num_patches_per_side)] *)
Definition patch_index_to_coordinate (ul_idx lr_idx num_patches_per_side : Z)
  : result (F * F * F * F) :=
  one <- Arith.of_int A 1 ;;
  n <- Arith.of_int A num_patches_per_side ;;
  cell_size <- Arith.div A one n ;;
  let ul_x := (ul_idx mod num_patches_per_side)%Z in
  let ul_y := (ul_idx / num_patches_per_side)%Z in
  let lr_x := (lr_idx mod num_patches_per_side)%Z in
  let lr_y := (lr_idx / num_patches_per_side)%Z in
  ful_x <- Arith.of_int A ul_x ;;
  ful_y <- Arith.of_int A ul_y ;;
  flr_x <- Arith.of_int A lr_x ;;
  flr_y <- Arith.of_int A lr_y ;;
  if (ul_idx =? lr_idx)%Z then
    Ok (Arith.mul A ful_x cell_size,
        Arith.mul A ful_y cell_size,
        Arith.add A (Arith.mul A flr_x cell_size) cell_size,
        Arith.add A (Arith.mul A flr_y cell_size) cell_size)
  else if ((ul_x =? lr_x)%Z || (ul_y =? lr_y)%Z)%bool then
    Ok (Arith.mul A ful_x cell_size,
        Arith.mul A ful_y cell_size,
        Arith.add A (Arith.mul A flr_x cell_size) cell_size,
        Arith.add A (Arith.mul A flr_y cell_size) cell_size)
  else
    two <- Arith.of_int A 2 ;;
    half <- Arith.div A cell_size two ;;
    Ok (Arith.add A (Arith.mul A ful_x cell_size) half,
        Arith.add A (Arith.mul A ful_y cell_size) half,
        Arith.add A (Arith.mul A flr_x cell_size) half,
        Arith.add A (Arith.mul A flr_y cell_size) half).

End Quantizer.

(** ** The inserter *)

(** [f"<patch_index_{str(idx).zfill(4)}>"] *)
Definition patch_index_token (idx : Z) : string :=
  ("<patch_index_" ++ PyStr.zfill 4 (PyStr.str_of_int idx) ++ ">")%string.

(** [r"<phrase>.+?</phrase>"] *)
Definition phrase_pattern : regex :=
  Seq [Lit "<phrase>"; Plus false Dot; Lit "</phrase>"].

Section Inserter.
Variable A : Arith.ops.
Variable tk : tokenizer.
Local Abbreviation F := (Arith.num A).

(** [_convert_bbox_to_patch_index_tokens(bbox)].  For the numbers of patch
    tokens in use, [int(math.sqrt(n))] is the integer square root. *)
Definition _convert_bbox_to_patch_index_tokens (bbox : box F)
  : result (string * string) :=
  '(idx_1, idx_2) <-
    match bbox with
    | Patch idx_1 idx_2 => Ok (idx_1, idx_2)
    | Coord x1 y1 x2 y2 =>
        let num_patches_per_side :=
          Z.sqrt (Z.of_nat (num_patch_index_tokens tk)) in
        coordinate_to_patch_index A (x1, y1, x2, y2) num_patches_per_side
    end ;;
  Ok (patch_index_token idx_1, patch_index_token idx_2).

(** The [<object> ... </object>] block of one phrase: nothing for [None]
    and for the empty list. *)
Definition object_block (bbox : bbox_group F) : result (list string) :=
  match bbox with
  | NoBox => Ok []
  | _ =>
      let bbox := match bbox with
                  | OneBox b => [Some b]
                  | Boxes l => l
                  | NoBox => []
                  end in
      if forallb (fun b => match b with Some _ => true | None => false end) bbox
      then
        patch_index_strings <-
          mapM (fun b =>
                  match b with
                  | Some b =>
                      '(patch_index_1, patch_index_2) <-
                        _convert_bbox_to_patch_index_tokens b ;;
                      Ok (patch_index_1 ++ " " ++ patch_index_2)%string
                  | None => Raise AssertionError
                  end) bbox ;;
        match patch_index_strings with
        | [] => Ok []
        | _ =>
            let position_str :=
              PyStr.join " </delimiter_of_multi_objects/> " patch_index_strings in
            Ok [("<object> " ++ position_str ++ " </object>")%string]
        end
      else Raise AssertionError
  end.

(** The loop over [zip(matched_phrases, bboxes)]: the buffer's new
    elements and the last value of [curr_pos]. *)
Fixpoint insert_loop (text : string) (curr_pos : nat)
    (l : list (match_obj * bbox_group F)) : result (list string * nat) :=
  match l with
  | [] => Ok ([], curr_pos)
  | (matched, bbox) :: l' =>
      let e := m_end matched in
      let piece := PyStr.slice curr_pos e text in
      block <- object_block bbox ;;
      '(buffer, last) <- insert_loop text e l' ;;
      Ok (piece :: block ++ buffer, last)
  end.

(** [_insert_patch_index_tokens(text, bboxes)] *)
Definition _insert_patch_index_tokens (text : string)
    (bboxes : option (list (bbox_group F))) : result string :=
  match bboxes with
  | None | Some [] => Ok text
  | Some bboxes =>
      let matched_phrases := finditer phrase_pattern text in
      if negb (length matched_phrases =? length bboxes)
      then Raise (CountMismatch (length matched_phrases) (length bboxes))
      else
        '(buffer, curr_pos) <-
          insert_loop text 0 (combine matched_phrases bboxes) ;;
        let buffer :=
          if curr_pos <? String.length text
          then buffer ++ [PyStr.drop curr_pos text]
          else buffer in
        Ok (String.concat "" buffer)
  end.

End Inserter.

(** ** The tag spacing normalizer *)

(** The set [tag_tokens]: the tokenizer's tags and one token per patch
    index.  A Python set has no order of its own; the list gives the order
    in which the alternatives come in the pattern. *)
Definition all_tag_tokens (tk : tokenizer) : list string :=
  tag_tokens tk
  ++ map (fun x => patch_index_token (Z.of_nat x))
         (seq 0 (num_patch_index_tokens tk)).

(** [[split for idx, split in enumerate(splits)
      if not (idx in [0, len(splits) - 1] and split == "")]] *)
Definition drop_boundary_empty (splits : list string) : list string :=
  let n := length splits in
  map snd
    (filter (fun '(idx, split) =>
               negb (((idx =? 0) || (idx =? n - 1)) && String.eqb split ""))
            (combine (seq 0 n) splits)).

(** One iteration of the loop over the splits, on [(output,
    prev_str_in_targets)]. *)
Definition spaces_step (tags : list string) (st : string * bool)
    (split : string) : string * bool :=
  let '(output, prev_str_in_targets) := st in
  if PyStr.mem split tags
  then ((PyStr.rstrip output ++ split)%string, true)
  else if (prev_str_in_targets && negb (PyStr.startswith split " "))%bool
       then ((output ++ " " ++ split)%string, false)
       else ((output ++ split)%string, false).

(** [_add_remove_spaces_around_tag_tokens(text)].  The pattern is the
    tokens joined by [|], unescaped: it is the alternation of the literal
    tokens when no token has a character the pattern syntax gives a
    meaning to, and the embedding covers that case. *)
Definition _add_remove_spaces_around_tag_tokens (tk : tokenizer)
    (text : string) : result string :=
  let tags := all_tag_tokens tk in
  if forallb is_literal tags then
    let splits := Re.split (Alts (map Lit tags)) text in
    let splits := drop_boundary_empty splits in
    Ok (fst (fold_left (spaces_step tags) splits ("", false)))
  else Raise NotModelled.

(** [preprocess_single(text, image, bboxes)] of [preprocess_text];
    [image] tells whether an image comes with the text. *)
Definition preprocess_single (A : Arith.ops) (tk : tokenizer)
    (num_image_tokens : nat) (text : string) (image : bool)
    (bboxes : option (list (bbox_group (Arith.num A)))) : result string :=
  let img_tokens := repeat "<image>" num_image_tokens in
  let img_info := PyStr.join " " (["<image>"] ++ img_tokens ++ ["</image>"]) in
  let text := PyStr.strip text in
  let text := if image then (img_info ++ " " ++ text)%string else text in
  text <- _insert_patch_index_tokens A tk text bboxes ;;
  _add_remove_spaces_around_tag_tokens tk text.

(** ** The entity extractor *)

(** [r"<patch_index_(\d+)>"] *)
Definition patch_index_pattern : regex :=
  Seq [Lit "<patch_index_"; Grp 1 (Plus true Digit); Chr ">"].

(** [<patch_index_\d+><patch_index_\d+>] *)
Definition index_pair_pattern : regex :=
  Seq [Lit "<patch_index_"; Plus true Digit; Chr ">";
       Lit "<patch_index_"; Plus true Digit; Chr ">"].

(** The pattern of [extract_entities_with_patch_indices]: group 1 is the
    phrase with its tags, group 2 the phrase, group 3 the index pairs. *)
Definition entity_pattern : regex :=
  Seq [Opt (Grp 1 (Seq [Lit "<phrase>"; Grp 2 (Plus true (NotChr "<"));
                        Lit "</phrase>"]));
       Lit "<object>";
       Grp 3 (Seq [Star true (Seq [index_pair_pattern;
                                   Lit "</delimiter_of_multi_objects/>"]);
                   index_pair_pattern]);
       Lit "</object>"].

(** [(name, span, bboxes)] with the boxes as patch-index pairs *)
Definition patch_entity : Type := string * (Z * Z) * list (Z * Z).

(** The truth value of a string or [None]. *)
Definition truthy (s : option string) : bool :=
  match s with
  | Some s => negb (String.eqb s "")
  | None => false
  end.

(** [m.span(n)] as Python gives it: [(-1, -1)] for a group that took no
    part. *)
Definition py_span (m : match_obj) (n : nat) : Z * Z :=
  match span m n with
  | Some (a, b) => (Z.of_nat a, Z.of_nat b)
  | None => ((-1)%Z, (-1)%Z)
  end.

(** [int(m.group(1))] of a search for [patch_index_pattern] *)
Definition index_of (s : string) (m : match_obj) : Z :=
  match group s m 1 with
  | Some d => PyStr.int_of_digits d
  | None => 0%Z
  end.

(** The body of the loop over the pairs: the pair's indices when both
    searches find one. *)
Definition parse_pair (pair : string) : option (Z * Z) :=
  let x := search patch_index_pattern pair in
  let y := search patch_index_pattern (PyStr.drop 1 pair) in
  match x, y with
  | Some x, Some y => Some (index_of pair x, index_of (PyStr.drop 1 pair) y)
  | _, _ => None
  end.

(** [f"<patch_index_{bbox[0]}><patch_index_{bbox[1]}>"], the fake entity
    name of a box without a phrase *)
Definition bare_name (bbox : Z * Z) : string :=
  ("<patch_index_" ++ PyStr.str_of_int (fst bbox)
   ++ "><patch_index_" ++ PyStr.str_of_int (snd bbox) ++ ">")%string.

(** The body of the loop over the matches. *)
Definition entities_of_match (text : string) (m : match_obj)
  : list patch_entity :=
  let span := py_span m 2 in
  let phrase_tag := group text m 1 in
  let phrase := group text m 2 in
  let match_content :=
    match group text m 3 with Some c => c | None => EmptyString end in
  let '(phrase, span) :=
    if negb (truthy phrase_tag)
    then (None, (Z.of_nat (m_start m), Z.of_nat (m_start m)))
    else (phrase, span) in
  let patch_index_pairs :=
    PyStr.split "</delimiter_of_multi_objects/>" match_content in
  let entity_bboxes :=
    flat_map (fun pair => match parse_pair pair with
                          | Some b => [b]
                          | None => []
                          end) patch_index_pairs in
  if truthy phrase
  then [(match phrase with Some name => name | None => EmptyString end,
         span, entity_bboxes)]
  else map (fun bbox => (bare_name bbox, span, [bbox])) entity_bboxes.

(** [extract_entities_with_patch_indices(text)] *)
Definition extract_entities_with_patch_indices (text : string)
  : list patch_entity :=
  flat_map (entities_of_match text) (finditer entity_pattern text).

(** [remove_special_fields(text)]: [re.sub("<.*?>", "", text)] *)
Definition special_field_pattern : regex :=
  Seq [Chr "<"; Star false Dot; Chr ">"].

Definition remove_special_fields (text : string) : string :=
  sub_empty special_field_pattern text.

(** [text[:z]] for an [int]: a negative [z] counts from the end. *)
Definition upto (z : Z) (text : string) : string :=
  let n := Z.of_nat (String.length text) in
  let stop := if (z <? 0)%Z then Z.max 0 (n + z) else z in
  PyStr.slice 0 (Z.to_nat stop) text.

(** [adjust_entity_positions(entity, text)] *)
Definition adjust_entity_positions (entity : string * (Z * Z)) (text : string)
  : string * (Z * Z) :=
  let '(entity_name, (start, stop)) := entity in
  let adjusted_start :=
    Z.of_nat (String.length (remove_special_fields (upto start text))) in
  let adjusted_end :=
    Z.of_nat (String.length (remove_special_fields (upto stop text))) in
  (entity_name, (adjusted_start, adjusted_end)).

Section Decode.
Variable A : Arith.ops.
Local Abbreviation F := (Arith.num A).

(** [(name, span, bboxes)] with the boxes as coordinates *)
Definition coord_entity : Type := string * (Z * Z) * list (F * F * F * F).

(** [cleanup_spaces(text, entities)] *)
Definition cleanup_spaces (text : string) (entities : list coord_entity)
  : string * list coord_entity :=
  let new_text := PyStr.strip text in
  let leading_spaces :=
    (Z.of_nat (String.length text)
     - Z.of_nat (String.length (PyStr.lstrip text)))%Z in
  let new_entities :=
    map (fun '(entity_name, (start, stop), bboxes) =>
           let entity_name_leading_spaces :=
             (Z.of_nat (String.length entity_name)
              - Z.of_nat (String.length (PyStr.lstrip entity_name)))%Z in
           let entity_name_trailing_spaces :=
             (Z.of_nat (String.length entity_name)
              - Z.of_nat (String.length (PyStr.rstrip entity_name)))%Z in
           let start := (start - leading_spaces + entity_name_leading_spaces)%Z in
           let stop := (stop - leading_spaces - entity_name_trailing_spaces)%Z in
           (PyStr.strip entity_name, (start, stop), bboxes))
        entities in
  (new_text, new_entities).

(** [clean_text_and_extract_entities_with_bboxes(text, num_patches_per_side)] *)
Definition clean_text_and_extract_entities_with_bboxes (text : string)
    (num_patches_per_side : Z) : result (string * list coord_entity) :=
  let processed_text := remove_special_fields text in
  let entities_with_patch_indices := extract_entities_with_patch_indices text in
  entities <-
    mapM (fun item : patch_entity =>
            let '(name, span, bboxes) := item in
            let adjusted_entity := adjust_entity_positions (name, span) text in
            bboxes_in_coords <-
              mapM (fun bbox : Z * Z =>
                      patch_index_to_coordinate A (fst bbox) (snd bbox)
                        num_patches_per_side) bboxes ;;
            Ok (fst adjusted_entity, snd adjusted_entity, bboxes_in_coords))
         entities_with_patch_indices ;;
  Ok (cleanup_spaces processed_text entities).

End Decode.

(** ** The image-token expander: the loop body of [__call__] *)

Section Expander.
Variable with_bos : bool.
Variable num_image_tokens : nat.
Variable first_image_token_id : Z.

Definition start_index : nat := (if with_bos then 1 else 0) + 1.

(** [list(range(first_image_token_id, first_image_token_id + num_image_tokens))] *)
Definition image_token_ids : list Z :=
  map (fun i => (first_image_token_id + Z.of_nat i)%Z) (seq 0 num_image_tokens).

(** [[0] + [1] * num_image_tokens + [0]] *)
Definition base_image_features_mask : list Z :=
  [0%Z] ++ repeat 1%Z num_image_tokens ++ [0%Z].

(** One iteration of [for text_ids in all_input_ids]: the new ids and
    their mask. *)
Definition expand_text_ids (text_ids : list Z) : list Z * list Z :=
  let text_ids :=
    firstn start_index text_ids ++ image_token_ids
    ++ skipn (start_index + num_image_tokens) text_ids in
  let mask := base_image_features_mask in
  let mask := if with_bos then [0%Z] ++ mask else mask in
  let mask := mask ++ repeat 0%Z (length text_ids - length mask) in
  (text_ids, mask).

End Expander.

(** Modelled from the spec: the tokenizer's table of tag tokens and its
    number of patch-index tokens, which the source reads from a tokenizer
    that is not part of it.  The tags are those of the tag grammar and of
    the image block; the grid is 32 by 32. *)
Definition kosmos2_tokenizer : tokenizer := {|
  tag_tokens := ["<image>"; "</image>"; "<phrase>"; "</phrase>";
                 "<object>"; "</object>"; "</delimiter_of_multi_objects/>"];
  num_patch_index_tokens := 1024
|}.

(** The texts and boxes of the specification's examples. *)
Definition cat_dog_text : string :=
  "<phrase>cat</phrase> and <phrase>dog</phrase>".

Definition cat_dog_bboxes (F : Type) : option (list (bbox_group F)) :=
  Some [Boxes [Some (Patch 3 3)];
        Boxes [Some (Patch 10 12); Some (Patch 5 5)]]%Z.

Definition cat_dog_encoded : string :=
  "<phrase> cat</phrase><object><patch_index_0003><patch_index_0003></object> and<phrase> dog</phrase><object><patch_index_0010><patch_index_0012></delimiter_of_multi_objects/><patch_index_0005><patch_index_0005></object>".

Definition offset_text : string :=
  "<phrase>a</phrase><object><patch_index_0000><patch_index_0000></object> b".

(** The names of a list of entities. *)
Definition names (l : list patch_entity) : list string :=
  map (fun e => fst (fst e)) l.

(* ================================================================== *)
(** * Notions used in the statements and their proofs *)

(** ** Notions for the quantizer *)

(** A single cell's coordinates, quantized again. *)
Definition round_trip (A : Arith.ops) (ul_idx g : Z) : result (Z * Z) :=
  bbox <- patch_index_to_coordinate A ul_idx ul_idx g ;;
  coordinate_to_patch_index A bbox g.

Definition round_trip_ok (A : Arith.ops) (g ul_idx : Z) : bool :=
  match round_trip A ul_idx g with
  | Ok (a, b) => ((a =? ul_idx) && (b =? ul_idx))%Z
  | Raise _ => false
  end.


(** ** Notions for the matcher *)

(** [a] is what is left of [b] after some prefix. *)
Definition suffix_of (a b : string) : Prop := exists p, b = (p ++ a)%string.

(** A successful match goes on with its continuation somewhere later in
    the text. *)
Definition reaches (step : mstate -> cont -> option mstate) : Prop :=
  forall s k x, step s k = Some x ->
    exists s', k s' = Some x /\ suffix_of (rest s') (rest s).

(** [sub] occurs in [s]. *)
Definition occurs (sub s : string) : Prop :=
  exists a b, s = (a ++ sub ++ b)%string.

(** Whether [sub] occurs in [s], by scanning. *)
Fixpoint occursb (sub s : string) : bool :=
  (String.prefix sub s
   || match s with
      | EmptyString => false
      | String _ t => occursb sub t
      end)%bool.

(** Two texts with broken tags: one without [<object>], and one whose
    object block has a single index. *)
Definition malformed_text : string :=
  " <phrase>a</phrase> <objec <patch_index_0001></object> c ".

Definition malformed_block : string :=
  "<phrase>a</phrase><object><patch_index_0001></object>".

(** ** Notions for the normalizer *)

(** A character a tag may have after its [<]. *)
Definition body_char (c : ascii) : bool :=
  (negb (Ascii.eqb c "<") && negb (PyStr.is_space c))%bool.

(** A tag: [<], then characters that are neither [<] nor white space. *)
Definition tag_shape (T : string) : bool :=
  match T with
  | String c b =>
      (Ascii.eqb c "<" && forallb body_char (list_ascii_of_string b))%bool
  | EmptyString => false
  end.

(** The alternative of the pattern that matches at the start of [s]. *)
Definition first_tag (V : list string) (s : string) : option string :=
  find (fun T => String.prefix T s) V.

(** A fragment as the loop appends it after a tag. *)
Definition pad (f : string) : string :=
  if PyStr.startswith f " " then f else (" " ++ f)%string.

(** No tag matches at an offset inside the fragment [f], in a text that
    goes on with [c] after it. *)
Definition no_tag_in (V : list string) (f c : string) : Prop :=
  forall a b, f = (a ++ b)%string -> b <> EmptyString ->
    first_tag V (b ++ c) = None.

(** The pieces [re.split] cuts a text into: fragments and tags in turn. *)
Inductive Splits (V : list string) : string -> list string -> Prop :=
| Splits_last (f : string) :
    no_tag_in V f "" -> Splits V f [f]
| Splits_tag (f T rest : string) (l : list string) :
    no_tag_in V f (T ++ rest) ->
    first_tag V (T ++ rest) = Some T ->
    Splits V rest l ->
    Splits V (f ++ T ++ rest) (f :: T :: l).

(** What the loop makes of the pieces that follow a tag, *)
Fixpoint rend_after (l : list string) : string :=
  match l with
  | [] => EmptyString
  | [f] => if String.eqb f "" then EmptyString else pad f
  | f :: T :: l' => (PyStr.rstrip (pad f) ++ T ++ rend_after l')%string
  end.

(** and of all the pieces. *)
Definition rend_first (l : list string) : string :=
  match l with
  | [] => EmptyString
  | [f] => f
  | f :: T :: l' => (PyStr.rstrip f ++ T ++ rend_after l')%string
  end.

(** A list without its last element when that is the empty string. *)
Fixpoint drop_last_empty (l : list string) : list string :=
  match l with
  | [] => []
  | [x] => if String.eqb x "" then [] else [x]
  | x :: l' => x :: drop_last_empty l'
  end.

(** ** Notions for the extractor *)

(** What separates the index pairs of a block. *)
Definition delimiter : string := "</delimiter_of_multi_objects/>".

(** A non-empty string of decimal digits. *)
Definition digits (d : string) : Prop :=
  d <> EmptyString
  /\ forallb PyStr.is_digit (list_ascii_of_string d) = true.

(** [<patch_index_D><patch_index_E>] for two strings of digits. *)
Definition index_pair_text (de : string * string) : string :=
  ("<patch_index_" ++ fst de ++ "><patch_index_" ++ snd de ++ ">")%string.

(** No [<] in a text. *)
Definition no_lt (s : string) : bool :=
  forallb (fun c => negb (Ascii.eqb c "<")) (list_ascii_of_string s).

(** The text goes on with a digit. *)
Definition digit_next (t : string) : Prop :=
  exists c t', t = String c t' /\ PyStr.is_digit c = true.

(** The index pairs of an object block, joined by the delimiter. *)
Definition pairs_text (pairs : list (string * string)) : string :=
  PyStr.join delimiter (map index_pair_text pairs).

(** Both parts of every pair are digits. *)
Definition all_digits (pairs : list (string * string)) : Prop :=
  Forall (fun de => digits (fst de) /\ digits (snd de)) pairs.

(** The text goes on with [<]. *)
Definition lt_next (t : string) : Prop := exists t', t = String "<" t'.

(** The pattern matches only where the text goes on with [<]. *)
Definition starts_with_lt (r : regex) : Prop :=
  forall p s adv, ~ lt_next s -> match_at r p s adv = None.

(** [x] put before the first element of a list of strings. *)
Definition prepend (x : string) (l : list string) : list string :=
  match l with
  | y :: l' => (x ++ y)%string :: l'
  | [] => [x]
  end.

(** The indices two strings of digits stand for. *)
Definition pair_indices (de : string * string) : Z * Z :=
  (PyStr.int_of_digits (fst de), PyStr.int_of_digits (snd de)).

(** The text after a tag: nothing, or something that starts with a
    character no tag has in its body. *)
Definition breaks (c : string) : Prop :=
  c = EmptyString \/ exists x t, c = String x t /\ body_char x = false.

(** No tag occurs in [f]. *)
Definition tag_free (V : list string) (f : string) : Prop :=
  forall T, In T V -> ~ occurs T f.

(** The pattern [re.split] runs: the alternation of the tags, as one
    group. *)
Definition tags_pattern (V : list string) : regex := Grp 1 (Alts (map Lit V)).

(** ** Notions for the round trip of a pair of indices *)

(** The box of two patch indices, quantized again. *)
Definition box_round_trip (A : Arith.ops) (ul_idx lr_idx g : Z)
  : result (Z * Z) :=
  bbox <- patch_index_to_coordinate A ul_idx lr_idx g ;;
  coordinate_to_patch_index A bbox g.

(** The result is the integer [c]. *)
Definition returns (r : result Z) (c : Z) : bool :=
  match r with
  | Ok z => (z =? c)%Z
  | Raise _ => false
  end.

(** One coordinate [c] of a cell, along one axis of a grid of side [g]:
    the four expressions [patch_index_to_coordinate] has for it (the near
    and the far edge of the cell, and its centre for either corner) come
    back to [c] through the floor and the ceiling of
    [coordinate_to_patch_index]. *)
Definition axis_ok (A : Arith.ops) (g c : Z) : bool :=
  match Arith.of_int A 1, Arith.of_int A g, Arith.of_int A c,
        Arith.of_int A 2 with
  | Ok one, Ok n, Ok fc, Ok two =>
      match Arith.div A one n with
      | Ok cell_size =>
          match Arith.div A cell_size two with
          | Ok half =>
              let near := Arith.mul A fc cell_size in
              let far := Arith.add A near cell_size in
              let centre := Arith.add A near half in
              returns (Arith.floor A (Arith.mul A near n)) c
              && returns (Arith.ceil A (Arith.sub A (Arith.mul A far n) one)) c
              && returns (Arith.floor A (Arith.mul A centre n)) c
              && returns (Arith.ceil A (Arith.sub A (Arith.mul A centre n) one)) c
          | Raise _ => false
          end
      | Raise _ => false
      end
  | _, _, _, _ => false
  end.

(** ** Notions for the spans of entities *)

(** The span of an entity selects its name in the text:
    [text[start:stop] == name], with [0 <= start <= stop <= len(text)]. *)
Definition placed {B : Type} (text : string) (e : string * (Z * Z) * B)
  : Prop :=
  let '(name, (start, stop), _) := e in
  (0 <= start <= stop)%Z /\ (stop <= Z.of_nat (String.length text))%Z
  /\ PyStr.slice (Z.to_nat start) (Z.to_nat stop) text = name.

(** ** The caption of a generated text *)

Section PostProcess.
Variable A : Arith.ops.

(** [post_process_generation(text, cleanup_and_extract)]: the caption as
    it is, or cleaned and with its entities. *)
Definition post_process_generation (text : string)
    (cleanup_and_extract : bool)
  : result (string + string * list (coord_entity A)) :=
  let caption := last (PyStr.split "</image>" text) EmptyString in
  if cleanup_and_extract
  then
    cleaned <- clean_text_and_extract_entities_with_bboxes A caption 32 ;;
    Ok (inr cleaned)
  else Ok (inl caption).

End PostProcess.

(** ** Notions for the removal of the tags *)

(** What [.*?] passes before the [>] that ends a special field: neither
    [>] nor a newline. *)
Definition field_char (c : ascii) : bool :=
  (negb (Ascii.eqb c ">") && negb (Ascii.eqb c "010"))%bool.

Definition field_body (body : string) : bool :=
  forallb field_char (list_ascii_of_string body).

(** A text made of plain pieces, without [<], and of special fields
    [<body>], together with its plain pieces alone. *)
Inductive Fields : string -> string -> Prop :=
| Fields_plain (f : string) :
    no_lt f = true -> Fields f f
| Fields_tag (f body rest plain : string) :
    no_lt f = true -> field_body body = true -> Fields rest plain ->
    Fields (f ++ "<" ++ body ++ ">" ++ rest) (f ++ plain).

(** The text of the pieces [(f, body)], each a plain piece and the special
    field after it, and of what follows the last field; *)
Fixpoint tagged (l : list (string * string)) (tail : string) : string :=
  match l with
  | [] => tail
  | (f, body) :: l' => (f ++ "<" ++ body ++ ">" ++ tagged l' tail)%string
  end.

(** the same without the special fields. *)
Fixpoint untagged (l : list (string * string)) (tail : string) : string :=
  match l with
  | [] => tail
  | (f, _) :: l' => (f ++ untagged l' tail)%string
  end.

(** ** Notions for grounded captions *)

(** The text goes on with a character other than [<]. *)
Definition plain_next (t : string) : Prop :=
  exists c t', t = String c t' /\ Ascii.eqb "<" c = false.

(** The two parts of the pattern of
    [extract_entities_with_patch_indices]: the phrase with its tags, and
    the object block. *)
Definition phrase_group : regex :=
  Grp 1 (Seq [Lit "<phrase>"; Grp 2 (Plus true (NotChr "<"));
              Lit "</phrase>"]).

Definition object_pattern : regex :=
  Seq [Lit "<object>";
       Grp 3 (Seq [Star true (Seq [index_pair_pattern;
                                   Lit "</delimiter_of_multi_objects/>"]);
                   index_pair_pattern]);
       Lit "</object>"].

(** One grounded piece of a caption: a plain text, then an object block
    with its phrase, when it has one, and its pairs of digits. *)
Definition grounded : Type := string * option string * list (string * string).

Definition block_text (phrase : option string)
    (pairs : list (string * string)) : string :=
  (match phrase with
   | Some ph => "<phrase>" ++ ph ++ "</phrase>"
   | None => ""
   end ++ "<object>" ++ pairs_text pairs ++ "</object>")%string.

(** The caption of the pieces, and of what follows the last block. *)
Fixpoint caption_text (items : list grounded) (tail : string) : string :=
  match items with
  | [] => tail
  | (pre, phrase, pairs) :: l =>
      (pre ++ block_text phrase pairs ++ caption_text l tail)%string
  end.

(** The plain text has no [<]; a phrase is not empty and has no [<]; the
    block has a pair, and its pairs are two strings of digits each. *)
Definition well_formed (item : grounded) : Prop :=
  let '(pre, phrase, pairs) := item in
  no_lt pre = true
  /\ match phrase with
     | Some ph => ph <> EmptyString /\ no_lt ph = true
     | None => True
     end
  /\ pairs <> [] /\ all_digits pairs.

(** The entities of the pieces, when the first piece starts at [offset]:
    a phrase with its span and all the pairs of its block, or, without a
    phrase, one entity for each pair, at the start of the block. *)
Fixpoint block_entities (offset : nat) (items : list grounded)
  : list patch_entity :=
  match items with
  | [] => []
  | (pre, phrase, pairs) :: l =>
      let start := offset + String.length pre in
      match phrase with
      | Some ph =>
          [(ph, (Z.of_nat (start + 8),
                 Z.of_nat (start + 8 + String.length ph)),
            map pair_indices pairs)]
      | None =>
          map (fun de => (bare_name (pair_indices de),
                          (Z.of_nat start, Z.of_nat start),
                          [pair_indices de])) pairs
      end
      ++ block_entities (start + String.length (block_text phrase pairs)) l
  end.







(** ** Notions for the inserter *)

(** A successful match goes on with its continuation after a part [w] of
    the text, at the offset after [w]. *)
Definition tracks (step : mstate -> cont -> option mstate) : Prop :=
  forall s k x, step s k = Some x ->
    exists s' w, k s' = Some x
      /\ rest s = (w ++ rest s')%string
      /\ pos s' = pos s + String.length w.

(** A part of the text up to the end of a phrase. *)
Definition ends_phrase (piece : string) : Prop :=
  exists w, piece = (w ++ "</phrase>")%string.

(** The buffer of the inserter: each piece of the text, then the block of
    its phrase. *)
Fixpoint interleave (pieces : list string) (blocks : list (list string))
  : list string :=
  match pieces, blocks with
  | piece :: pieces', block :: blocks' =>
      piece :: block ++ interleave pieces' blocks'
  | _, _ => []
  end.

(** ** The padding of a batch: the end of [__call__]

    The part of [__call__] that runs for a list of texts with images,
    after the loop over the rows.  The tokenizer is not part of the
    source; what the code asks of it here is the row of one text encoded
    with the padding options, [encode_padded]. *)

(** The order of Python on pairs of integers. *)
Definition pair_leb (x y : nat * nat) : bool :=
  ((fst x <? fst y) || ((fst x =? fst y) && (snd x <=? snd y)))%bool.

(** [sorted(l)] for a list of pairs of integers, by insertion; equal
    pairs are the same pair, so every sort returns the same list. *)
Fixpoint insert_sorted (x : nat * nat) (l : list (nat * nat))
  : list (nat * nat) :=
  match l with
  | [] => [x]
  | y :: l' => if pair_leb x y then x :: l else y :: insert_sorted x l'
  end.

Definition sorted (l : list (nat * nat)) : list (nat * nat) :=
  fold_right insert_sorted [] l.

(** [[(idx, len(x)) for idx, x in enumerate(rows)]] *)
Definition enumerate_lengths (rows : list (list Z)) : list (nat * nat) :=
  combine (seq 0 (length rows)) (map (@length Z) rows).

Section Padding.
Variable padding_side : string.
Variable pad_token_id : Z.
Variable encode_padded : string -> list Z.

(** One row, padded with [filler] on the tokenizer's padding side; a row
    that is long enough stays as it is ([[filler] * n] is empty for a
    negative [n]). *)
Definition pad_row (filler : Z) (max_len_padded : nat) (x : list Z) : list Z :=
  if String.eqb padding_side "right"
  then x ++ repeat filler (max_len_padded - length x)
  else if String.eqb padding_side "left"
       then repeat filler (max_len_padded - length x) ++ x
       else x.

(** The block under [if isinstance(text, list)]: the new [input_ids],
    [image_features_mask] and [attention_mask] (when the encoding has
    one).  [None] stands for the [IndexError] of [sorted_length[0]] on an
    empty batch and of [text[idx]]. *)
Definition pad_batch (text : list string) (text_input_ids : list (list Z))
    (input_ids image_features_mask : list (list Z))
    (attention_mask : option (list (list Z)))
  : option (list (list Z) * list (list Z) * option (list (list Z))) :=
  let sorted_length := sorted (enumerate_lengths text_input_ids) in
  match sorted_length with
  | [] => None
  | (_, min_len_not_padded) :: _ =>
      let '(idx, _) := last sorted_length (0, 0) in
      match nth_error text idx with
      | None => None
      | Some longest =>
          let max_len_padded := length (encode_padded longest) in
          if negb (min_len_not_padded =? max_len_padded)
          then Some (map (pad_row pad_token_id max_len_padded) input_ids,
                     map (pad_row 0%Z max_len_padded) image_features_mask,
                     option_map (map (pad_row 0%Z max_len_padded))
                                attention_mask)
          else Some (input_ids, image_features_mask, attention_mask)
      end
  end.

End Padding.

(** ** Notions for the spacing of the normalizer *)




(** ** Notions for the normalizer on a text of fragments and tags *)

(** A tag closed by its only [>]: [<], then characters that are neither
    [<], [>] nor white space, then [>]. *)
Fixpoint closed_body (b : string) : bool :=
  match b with
  | EmptyString => false
  | String c EmptyString => Ascii.eqb c ">"
  | String c t =>
      (body_char c && negb (Ascii.eqb c ">") && closed_body t)%bool
  end.

Definition closed_tag (T : string) : bool :=
  match T with
  | String c b => (Ascii.eqb c "<" && closed_body b)%bool
  | EmptyString => false
  end.

(** The pieces [re.split] cuts the text of [tagged] into. *)
Fixpoint pieces (l : list (string * string)) (tail : string) : list string :=
  match l with
  | [] => [tail]
  | (f, body) :: l' => f :: ("<" ++ body ++ ">")%string :: pieces l' tail
  end.

(** A fragment between two tags, as the normalizer leaves it; *)
Definition trim (fb : string * string) : string * string :=
  (PyStr.rstrip (pad (fst fb)), snd fb).

(** and the fragment after the last tag. *)
Definition end_pad (tail : string) : string :=
  if String.eqb tail "" then EmptyString else pad tail.

(** ** Notions for the round trip of the encoder and the extractor *)













(** ** Notions for the image tokens *)

(** The image tokens of [img_info] as fragments and tags, each token but
    the first after the fragment [sp]. *)
Definition image_frags (sp : string) (n : nat) : list (string * string) :=
  ("", "image") :: repeat (sp, "image") n ++ [(sp, "/image")].


(** What the normalizer makes of a text of fragments and tags; *)
Definition normalized (l : list (string * string)) (tail : string) : string :=
  match l with
  | [] => tail
  | (f, body) :: l' =>
      tagged ((PyStr.rstrip f, body) :: map trim l') (end_pad tail)
  end.


(** ** Notions for a text after a prefix *)

(** The spans of the groups, a match state and a match, [d] characters
    further in a longer text. *)
Definition shift_caps (d : nat) (l : list (nat * (nat * nat)))
  : list (nat * (nat * nat)) :=
  map (fun c => (fst c, (fst (snd c) + d, snd (snd c) + d))) l.

Definition shift (d : nat) (s : mstate) : mstate :=
  MState (pos s + d) (rest s) (shift_caps d (caps s)).

Definition shift_match (d : nat) (m : match_obj) : match_obj :=
  Match (m_start m + d) (m_end m + d) (m_rest m) (shift_caps d (m_caps m)).

(** A step of the matcher does the same [d] characters further, when its
    continuation does. *)
Definition shifts (d : nat) (step : mstate -> cont -> option mstate) : Prop :=
  forall s k k',
    (forall s', k' (shift d s') = option_map (shift d) (k s')) ->
    step (shift d s) k' = option_map (shift d) (step s k).

(** Every [<] of a text is followed, in the text, by a character other
    than [p]: no [<phrase>] starts in it. *)
Fixpoint no_phrase_open (P : string) : bool :=
  match P with
  | EmptyString => true
  | String c t =>
      if Ascii.eqb c "<"
      then match t with
           | String c' _ => (negb (Ascii.eqb c' "p") && no_phrase_open t)%bool
           | EmptyString => false
           end
      else no_phrase_open t
  end.

(** A result with [P] before the text returned. *)
Definition with_prefix (P : string) (r : result string) : result string :=
  match r with
  | Ok s => Ok (P ++ s)%string
  | Raise e => Raise e
  end.


(* ================================================================== *)
(** * Properties *)

(** ** Encoding then extracting: the cat and dog example *)

Lemma cat_dog_inserted (A : Arith.ops) :
  _insert_patch_index_tokens A kosmos2_tokenizer cat_dog_text
    (cat_dog_bboxes _)
  = Ok "<phrase>cat</phrase><object> <patch_index_0003> <patch_index_0003> </object> and <phrase>dog</phrase><object> <patch_index_0010> <patch_index_0012> </delimiter_of_multi_objects/> <patch_index_0005> <patch_index_0005> </object>".
Proof. vm_compute. reflexivity. Qed.

Lemma cat_dog_preprocessed (A : Arith.ops) :
  preprocess_single A kosmos2_tokenizer 64 cat_dog_text false (cat_dog_bboxes _)
  = Ok cat_dog_encoded.
Proof. vm_compute. reflexivity. Qed.

(** Without the normalizer the extractor finds nothing: the inserter puts
    spaces inside the object block, and the pattern has none. *)
Lemma cat_dog_unnormalized :
  extract_entities_with_patch_indices
    "<phrase>cat</phrase><object> <patch_index_0003> <patch_index_0003> </object> and <phrase>dog</phrase><object> <patch_index_0010> <patch_index_0012> </delimiter_of_multi_objects/> <patch_index_0005> <patch_index_0005> </object>"
  = [].
Proof. vm_compute. reflexivity. Qed.

(** C1, as stated, fails: the normalizer puts a space after [<phrase>],
    so the names extracted from the encoded text are [" cat"] and
    [" dog"], not ["cat"] and ["dog"]. *)
Lemma cat_dog_names_not_recovered :
  preprocess_single Arith.exact kosmos2_tokenizer 64 cat_dog_text false
    (cat_dog_bboxes _) = Ok cat_dog_encoded
  /\ names (extract_entities_with_patch_indices cat_dog_encoded)
     = [" cat"; " dog"]
  /\ [" cat"; " dog"] <> ["cat"; "dog"].
Proof.
  split; [apply cat_dog_preprocessed|].
  split; [vm_compute; reflexivity | discriminate].
Qed.

(** C1, amended: for the text ["<phrase>cat</phrase> and
    <phrase>dog</phrase>"] and the boxes [[(3,3)], [(10,12),(5,5)]],
    insertion followed by spacing normalization gives a text from which
    extraction recovers exactly two entities, in order, with the bbox
    lists [(3,3)] and [(10,12),(5,5)]; their names are [" cat"] and
    [" dog"], each with the space the normalizer puts after [<phrase>],
    and are ["cat"] and ["dog"] once stripped, as the top-level decoder
    reports them. *)
Theorem cat_dog_round_trip (A : Arith.ops) :
  exists encoded,
    preprocess_single A kosmos2_tokenizer 64 cat_dog_text false
      (cat_dog_bboxes _) = Ok encoded
    /\ extract_entities_with_patch_indices encoded
       = [(" cat", (8, 12), [(3, 3)]);
          (" dog", (86, 90), [(10, 12); (5, 5)])]%Z
    /\ map PyStr.strip (names (extract_entities_with_patch_indices encoded))
       = ["cat"; "dog"]
    /\ (exists text entities,
          clean_text_and_extract_entities_with_bboxes Arith.binary64 encoded 32
          = Ok (text, entities)
          /\ map (fun e => fst (fst e)) entities = ["cat"; "dog"]).
Proof.
  exists cat_dog_encoded.
  split; [apply cat_dog_preprocessed|].
  split; [vm_compute; reflexivity|].
  split; [vm_compute; reflexivity|].
  eexists; eexists; split; [vm_compute; reflexivity|].
  reflexivity.
Qed.

(** ** The inserter's count check *)

(** C2, as stated, fails: with an empty sequence of bbox groups the
    inserter returns the text as it is, also when the text has a phrase. *)
Lemma empty_bboxes_no_error :
  length (finditer phrase_pattern "<phrase>a</phrase>") = 1
  /\ _insert_patch_index_tokens Arith.exact kosmos2_tokenizer
       "<phrase>a</phrase>" (Some [])
     = Ok "<phrase>a</phrase>".
Proof. split; vm_compute; reflexivity. Qed.

(** C2, amended: for every text and every non-empty sequence of bbox
    groups, the inserter fails with the count-mismatch error whenever the
    number of [<phrase>...</phrase>] matches differs from the length of
    the sequence; for no sequence and for the empty one it returns the
    text unchanged. *)
Theorem insert_count_mismatch (A : Arith.ops) (tk : tokenizer)
    (text : string) (bboxes : list (bbox_group (Arith.num A))) :
  bboxes <> [] ->
  length (finditer phrase_pattern text) <> length bboxes ->
  _insert_patch_index_tokens A tk text (Some bboxes)
  = Raise (CountMismatch (length (finditer phrase_pattern text))
                         (length bboxes))
  /\ _insert_patch_index_tokens A tk text (Some []) = Ok text
  /\ _insert_patch_index_tokens A tk text None = Ok text.
Proof.
  intros Hne Hlen.
  split; [|split; reflexivity].
  unfold _insert_patch_index_tokens.
  destruct bboxes as [|b bs]; [congruence|].
  apply Nat.eqb_neq in Hlen. rewrite Hlen. reflexivity.
Qed.

Lemma insert_count_mismatch_witness :
  _insert_patch_index_tokens Arith.exact kosmos2_tokenizer cat_dog_text
    (Some [NoBox])
  = Raise (CountMismatch 2 1)
  /\ _insert_patch_index_tokens Arith.exact kosmos2_tokenizer cat_dog_text
       (Some []) = Ok cat_dog_text
  /\ _insert_patch_index_tokens Arith.exact kosmos2_tokenizer cat_dog_text
       None = Ok cat_dog_text.
Proof.
  apply (insert_count_mismatch Arith.exact kosmos2_tokenizer cat_dog_text
           [NoBox]).
  - discriminate.
  - vm_compute. discriminate.
Defined.

(** ** The image-token expander *)

(** C3, as stated, fails: on the 3-token input the placeholder stays, the
    four image ids overwrite what follows it (the eos token is lost), and
    the mask is one longer than the ids. *)
Lemma expand_three_tokens :
  expand_text_ids true 4 100 [0; 64003; 2]%Z
  = ([0; 64003; 100; 101; 102; 103], [0; 0; 1; 1; 1; 1; 0])%Z
  /\ fst (expand_text_ids true 4 100 [0; 64003; 2]%Z)
     <> [0; 100; 101; 102; 103; 2]%Z
  /\ length (snd (expand_text_ids true 4 100 [0; 64003; 2]%Z))
     <> length (fst (expand_text_ids true 4 100 [0; 64003; 2]%Z)).
Proof. repeat split; vm_compute; discriminate. Qed.

Lemma length_image_token_ids (n : nat) (first : Z) :
  length (image_token_ids n first) = n.
Proof. unfold image_token_ids. now rewrite length_map, length_seq. Qed.

(** C3, amended: the expansion step overwrites, in place, the
    [numImageTokens] ids that follow the first [start_index] ones
    ([start_index] is 2 with a bos token, 1 without) with the ids
    [first_image_token_id], [first_image_token_id + 1], ...; when the
    input holds at least [start_index + numImageTokens + 1] ids, as a
    tokenized text with its image block does, the result has the length of
    the input and the mask has the same length: 0 on the first
    [start_index] positions, 1 on the [numImageTokens] next, 0 after.  So
    [bos, boi, p, p, p, p, eoi, eos] with 4 image tokens from id 100 gives
    [bos, boi, 100, 101, 102, 103, eoi, eos] and the mask
    [0, 0, 1, 1, 1, 1, 0, 0]. *)
Theorem expand_text_ids_aligned (with_bos : bool) (n : nat) (first : Z)
    (text_ids : list Z) :
  start_index with_bos + n + 1 <= length text_ids ->
  let ids := fst (expand_text_ids with_bos n first text_ids) in
  let mask := snd (expand_text_ids with_bos n first text_ids) in
  ids = firstn (start_index with_bos) text_ids
        ++ map (fun i => (first + Z.of_nat i)%Z) (seq 0 n)
        ++ skipn (start_index with_bos + n) text_ids
  /\ length ids = length text_ids
  /\ length mask = length ids
  /\ mask = repeat 0%Z (start_index with_bos) ++ repeat 1%Z n
            ++ repeat 0%Z (length text_ids - start_index with_bos - n).
Proof.
  intros Hlen ids mask.
  assert (Hl : length (firstn (start_index with_bos) text_ids
                       ++ image_token_ids n first
                       ++ skipn (start_index with_bos + n) text_ids)
               = length text_ids).
  { rewrite !length_app, length_firstn, length_skipn, length_image_token_ids.
    lia. }
  split; [reflexivity|]. split; [exact Hl|].
  assert (Hmask : mask = repeat 0%Z (start_index with_bos) ++ repeat 1%Z n
            ++ repeat 0%Z (length text_ids - start_index with_bos - n)).
  { subst mask. unfold expand_text_ids. cbn [snd].
    rewrite Hl.
    unfold base_image_features_mask, start_index in *.
    assert (Hz : forall k, 0 < k -> 0%Z :: repeat 0%Z (k - 1) = repeat 0%Z k).
    { intros [|k] Hk; [lia|]. replace (S k - 1) with k by lia. reflexivity. }
    destruct with_bos; cbn [length app Nat.add] in *;
      rewrite ?length_app, ?repeat_length; cbn [length app repeat Nat.add];
      rewrite <- !app_assoc; cbn [app]; do 2 f_equal.
    - f_equal.
      replace (length text_ids - S (S (n + 1))) with (length text_ids - 2 - n - 1) by lia.
      apply Hz. lia.
    - replace (length text_ids - S (n + 1)) with (length text_ids - 1 - n - 1) by lia.
      apply Hz. lia. }
  split; [|exact Hmask].
  rewrite Hmask, !length_app, !repeat_length. unfold ids, expand_text_ids. cbn [fst].
  rewrite Hl. lia.
Qed.

Lemma expand_text_ids_aligned_witness :
  let ids := fst (expand_text_ids true 4 100 [0; 64003; 7; 7; 7; 7; 64004; 2]%Z) in
  let mask := snd (expand_text_ids true 4 100 [0; 64003; 7; 7; 7; 7; 64004; 2]%Z) in
  ids = [0; 64003; 100; 101; 102; 103; 64004; 2]%Z
  /\ length ids = 8
  /\ length mask = length ids
  /\ mask = [0; 0; 1; 1; 1; 1; 0; 0]%Z.
Proof.
  apply (expand_text_ids_aligned true 4 100
           [0; 64003; 7; 7; 7; 7; 64004; 2]%Z).
  simpl. lia.
Defined.

(** ** Offsets in the tag-stripped text *)

(** C9: [adjust_entity_positions] recomputes a span [(start, end)] as the
    lengths of [remove_special_fields] of the prefixes [text[:start]] and
    [text[:end]].  In the text
    ["<phrase>a</phrase><object><patch_index_0000><patch_index_0000></object> b"]
    the phrase ["a"] is found at the raw span [(8, 9)] and adjusted to
    [(0, 1)]; [remove_special_fields] of the prefix that ends at
    [</phrase>] is ["a"]. *)
Theorem adjust_entity_positions_spec (name : string) (start stop : Z)
    (text : string) :
  adjust_entity_positions (name, (start, stop)) text
  = (name,
     (Z.of_nat (String.length (remove_special_fields (upto start text))),
      Z.of_nat (String.length (remove_special_fields (upto stop text)))))
  /\ extract_entities_with_patch_indices offset_text
     = [("a", (8, 9), [(0, 0)])]%Z
  /\ adjust_entity_positions ("a", (8, 9)%Z) offset_text = ("a", (0, 1)%Z)
  /\ upto 18 offset_text = "<phrase>a</phrase>"
  /\ remove_special_fields (upto 18 offset_text) = "a"
  /\ remove_special_fields (upto 8 offset_text) = ""
  /\ remove_special_fields (upto 9 offset_text) = "a".
Proof.
  split; [reflexivity|].
  repeat split; vm_compute; reflexivity.
Qed.

(** ** The quantizer *)

Lemma inject_Z_nonzero (g : Z) : g <> 0%Z -> Qeq_bool (inject_Z g) 0 = false.
Proof.
  intros Hg. destruct (Qeq_bool (inject_Z g) 0) eqn:E; [|reflexivity].
  apply Qeq_bool_iff in E. unfold Qeq in E. simpl in E. lia.
Qed.

Lemma inject_Z_nonzero_Q (g : Z) : g <> 0%Z -> ~ inject_Z g == 0.
Proof. intros Hg E. unfold Qeq in E. simpl in E. lia. Qed.

Lemma round_trip_exact (g ul_idx : Z) :
  g <> 0%Z -> round_trip Arith.exact ul_idx g = Ok (ul_idx, ul_idx).
Proof.
  intros Hg.
  unfold round_trip, patch_index_to_coordinate, coordinate_to_patch_index.
  cbn [bind Arith.exact Arith.of_int Arith.div Arith.mul Arith.add Arith.sub
       Arith.floor Arith.ceil Arith.num].
  rewrite inject_Z_nonzero by exact Hg.
  cbn [bind]. rewrite Z.eqb_refl. cbn [bind].
  pose proof (inject_Z_nonzero_Q g Hg) as Hq.
  set (x := (ul_idx mod g)%Z). set (y := (ul_idx / g)%Z).
  assert (Ex1 : inject_Z x * (inject_Z 1 / inject_Z g) * inject_Z g
                == inject_Z x) by (field; exact Hq).
  assert (Ey1 : inject_Z y * (inject_Z 1 / inject_Z g) * inject_Z g
                == inject_Z y) by (field; exact Hq).
  assert (Ex2 : (inject_Z x * (inject_Z 1 / inject_Z g)
                 + inject_Z 1 / inject_Z g) * inject_Z g - inject_Z 1
                == inject_Z x) by (field; exact Hq).
  assert (Ey2 : (inject_Z y * (inject_Z 1 / inject_Z g)
                 + inject_Z 1 / inject_Z g) * inject_Z g - inject_Z 1
                == inject_Z y) by (field; exact Hq).
  rewrite Ex1, Ey1, Ex2, Ey2, !Qfloor_Z, !Qceiling_Z.
  subst x y.
  replace (ul_idx / g * g + ul_idx mod g)%Z with ul_idx
    by (rewrite (Z.div_mod ul_idx g Hg) at 1; ring).
  reflexivity.
Qed.

(** The grid sides 1, 2, 4, ..., 64 in binary64, every cell. *)
Lemma binary64_grids_checked :
  forallb (fun k =>
             forallb (fun i => round_trip_ok Arith.binary64 (2 ^ Z.of_nat k)
                                 (Z.of_nat i))
                     (seq 0 (4 ^ k)))
          (seq 0 7) = true.
Proof. vm_compute. reflexivity. Qed.

Lemma forallb_seq_nth (f : nat -> bool) (n i : nat) :
  forallb f (seq 0 n) = true -> i < n -> f i = true.
Proof.
  intros H Hi. rewrite forallb_forall in H. apply H. apply in_seq. lia.
Qed.

Lemma round_trip_ok_sound (A : Arith.ops) (g ul_idx : Z) :
  round_trip_ok A g ul_idx = true -> round_trip A ul_idx g = Ok (ul_idx, ul_idx).
Proof.
  unfold round_trip_ok.
  destruct (round_trip A ul_idx g) as [[a b]|e]; [|discriminate].
  intros H. apply andb_prop in H. destruct H as [Ha Hb].
  apply Z.eqb_eq in Ha, Hb. now subst.
Qed.

Lemma round_trip_binary64 (k : nat) (ul_idx : Z) :
  k <= 6 -> (0 <= ul_idx < 2 ^ Z.of_nat k * 2 ^ Z.of_nat k)%Z ->
  round_trip Arith.binary64 ul_idx (2 ^ Z.of_nat k) = Ok (ul_idx, ul_idx).
Proof.
  intros Hk Hul.
  apply round_trip_ok_sound.
  assert (Hpow : Z.of_nat (4 ^ k) = (2 ^ Z.of_nat k * 2 ^ Z.of_nat k)%Z).
  { rewrite Nat2Z.inj_pow. change (Z.of_nat 4) with (2 * 2)%Z.
    rewrite Z.pow_mul_l. reflexivity. }
  pose proof (forallb_seq_nth _ 7 k binary64_grids_checked ltac:(lia)) as H.
  pose proof (forallb_seq_nth _ _ (Z.to_nat ul_idx) H ltac:(lia)) as H'.
  cbv beta in H'. rewrite Z2Nat.id in H' by lia. exact H'.
Qed.

(** C6, as stated, fails in the arithmetic the code runs on: with 49
    patches per side, [1.0 / 49 * 49] is below 1, and the cell 1 comes
    back as the pair (0, 1). *)
Lemma round_trip_fails_at_49 :
  round_trip Arith.binary64 1 49 = Ok (0, 1)%Z
  /\ (0, 1)%Z <> (1, 1)%Z.
Proof. split; [vm_compute; reflexivity | discriminate]. Qed.

(** C6, amended: in exact arithmetic the single-cell round trip holds for
    every grid side [g >= 1] and every index [0 <= ul_idx < g*g]:
    [coordinate_to_patch_index] of [patch_index_to_coordinate(ul_idx,
    ul_idx, g)] is [(ul_idx, ul_idx)].  In binary64 it holds for the grid
    sides 1, 2, 4, 8, 16, 32 (the default) and 64, and not for every
    grid side. *)
Theorem single_cell_round_trip (g ul_idx : Z) :
  (1 <= g)%Z -> (0 <= ul_idx < g * g)%Z ->
  round_trip Arith.exact ul_idx g = Ok (ul_idx, ul_idx)
  /\ (forall k, k <= 6 -> g = (2 ^ Z.of_nat k)%Z ->
      round_trip Arith.binary64 ul_idx g = Ok (ul_idx, ul_idx)).
Proof.
  intros Hg Hul. split.
  - apply round_trip_exact. lia.
  - intros k Hk ->. now apply round_trip_binary64.
Qed.

Lemma single_cell_round_trip_witness :
  round_trip Arith.exact 12 32 = Ok (12, 12)%Z
  /\ (forall k, k <= 6 -> 32%Z = (2 ^ Z.of_nat k)%Z ->
      round_trip Arith.binary64 12 32 = Ok (12, 12)%Z).
Proof. apply (single_cell_round_trip 32 12); lia. Defined.

Local Open Scope Q_scope.


Local Close Scope Q_scope.


Local Open Scope Q_scope.



Local Close Scope Q_scope.



Section Cases.
Variable A : Arith.ops.
Variables ul_idx lr_idx g : Z.
Variables one n cell_size ful_x ful_y flr_x flr_y : Arith.num A.
Hypothesis H_one : Arith.of_int A 1 = Ok one.
Hypothesis H_n : Arith.of_int A g = Ok n.
Hypothesis H_cell : Arith.div A one n = Ok cell_size.
Hypothesis H_ul_x : Arith.of_int A (ul_idx mod g) = Ok ful_x.
Hypothesis H_ul_y : Arith.of_int A (ul_idx / g) = Ok ful_y.
Hypothesis H_lr_x : Arith.of_int A (lr_idx mod g) = Ok flr_x.
Hypothesis H_lr_y : Arith.of_int A (lr_idx / g) = Ok flr_y.



End Cases.

Local Open Scope Q_scope.



Local Close Scope Q_scope.

(** In binary64 the lower-right boundary [x * cellSize + cellSize] and the
    product [(x + 1) * cellSize] can differ in the last place. *)
Lemma binary64_boundary_last_place :
  patch_index_to_coordinate Arith.binary64 5 5 10
  = Ok (0.5, 0, 0x1.3333333333333p-1, 0x1.999999999999ap-4)%float
  /\ (6 * 0x1.999999999999ap-4 = 0x1.3333333333334p-1)%float.
Proof. split; vm_compute; reflexivity. Qed.

(* ================================================================== *)
(** * Facts about the matcher *)

Module ReFacts.

Lemma suffix_of_refl (a : string) : suffix_of a a.
Proof. now exists EmptyString. Qed.

Lemma suffix_of_trans (a b c : string) :
  suffix_of a b -> suffix_of b c -> suffix_of a c.
Proof.
  intros [p ->] [q ->]. exists (q ++ p)%string.
  induction q as [|ch q IH]; [reflexivity|]. cbn. now rewrite IH.
Qed.

Lemma suffix_of_tail (a : string) (c : ascii) (b : string) :
  suffix_of a b -> suffix_of a (String c b).
Proof. intros [p ->]. now exists (String c p). Qed.

Lemma eat_reaches (r : regex) : reaches (eat r).
Proof.
  intros s k x. unfold eat.
  destruct (rest s) as [|c t] eqn:E; [discriminate|].
  destruct (char_ok r c); [|discriminate].
  intros H. eexists. split; [exact H|].
  cbn [rest]. apply suffix_of_tail, suffix_of_refl.
Qed.

Lemma star_loop_reaches (step : mstate -> cont -> option mstate)
    (greedy : bool) (fuel : nat) :
  reaches step -> reaches (star_loop step greedy fuel).
Proof.
  intros Hstep. induction fuel as [|fuel IH]; intros s k x.
  - cbn. intros H. exists s. split; [exact H | apply suffix_of_refl].
  - cbn [star_loop].
    set (again := step s _).
    assert (Hagain : again = Some x ->
              exists s', k s' = Some x /\ suffix_of (rest s') (rest s)).
    { subst again. intros H. apply Hstep in H.
      destruct H as (s1 & H1 & Hs1).
      destruct (pos s1 <=? pos s); [discriminate|].
      apply IH in H1. destruct H1 as (s2 & H2 & Hs2).
      exists s2. split; [exact H2|]. eapply suffix_of_trans; eassumption. }
    assert (Hstop : k s = Some x ->
              exists s', k s' = Some x /\ suffix_of (rest s') (rest s)).
    { intros H. exists s. split; [exact H | apply suffix_of_refl]. }
    destruct greedy.
    + destruct again as [y|]; [|exact Hstop].
      intros H. apply Hagain. exact H.
    + destruct (k s) as [y|]; [|exact Hagain].
      intros H. apply Hstop. exact H.
Qed.

Lemma rmatch_reaches (r : regex) : reaches (rmatch r).
Proof.
  induction r as [| c | | c | | a IHa b IHb | a IHa b IHb | g a IHa | n a IHa];
    try exact (eat_reaches _).
  - intros s k x H. exists s. split; [exact H | apply suffix_of_refl].
  - intros s k x H. cbn [rmatch] in H.
    apply IHa in H. destruct H as (s1 & H1 & Hs1).
    apply IHb in H1. destruct H1 as (s2 & H2 & Hs2).
    exists s2. split; [exact H2|]. eapply suffix_of_trans; eassumption.
  - intros s k x H. cbn [rmatch] in H.
    destruct (rmatch a s k) as [y|] eqn:E.
    + rewrite <- H in *. now apply IHa.
    + now apply IHb.
  - intros s k x H. cbn [rmatch] in H.
    now apply (star_loop_reaches _ _ _ IHa) in H.
  - intros s k x H. cbn [rmatch] in H.
    apply IHa in H. destruct H as (s1 & H1 & Hs1).
    eexists. split; [exact H1|]. exact Hs1.
Qed.

(** A literal matches only where the text goes on with it, and then goes
    on after it. *)
Lemma rmatch_Lit (t : string) (s : mstate) (k : cont) (u : string) :
  rest s = (t ++ u)%string ->
  rmatch (Lit t) s k
  = k (MState (pos s + String.length t) u (caps s)).
Proof.
  revert s. induction t as [|c t IH]; intros s E.
  - cbn in *. rewrite Nat.add_0_r. destruct s; cbn in *. now subst.
  - cbn [Lit rmatch]. unfold eat. cbn in E. rewrite E.
    cbn [char_ok]. rewrite Ascii.eqb_refl.
    rewrite IH by reflexivity. cbn [pos caps String.length].
    now rewrite Nat.add_succ_r.
Qed.

Lemma rmatch_Lit_inv (t : string) (s : mstate) (k : cont) (x : mstate) :
  rmatch (Lit t) s k = Some x -> exists u, rest s = (t ++ u)%string.
Proof.
  revert s. induction t as [|c t IH]; intros s H.
  - now exists (rest s).
  - cbn [Lit rmatch] in H. unfold eat in H.
    destruct (rest s) as [|c' t'] eqn:E; [discriminate|].
    cbn [char_ok] in H.
    destruct (Ascii.eqb c c') eqn:Ec; [|discriminate].
    apply Ascii.eqb_eq in Ec. subst c'.
    apply IH in H. destruct H as [u Hu]. cbn in Hu. subst t'.
    now exists u.
Qed.

Lemma prefix_app (t u : string) : String.prefix t (t ++ u) = true.
Proof.
  induction t as [|c t IH]; cbn; [now destruct u|].
  destruct (ascii_dec c c) as [_|n]; [exact IH | now elim n].
Qed.

Lemma prefix_inv (t s : string) :
  String.prefix t s = true -> exists u, s = (t ++ u)%string.
Proof.
  revert s. induction t as [|c t IH]; intros s H.
  - now exists s.
  - destruct s as [|c' s]; cbn in H; [discriminate|].
    destruct (ascii_dec c c') as [->|n]; [|discriminate].
    apply IH in H. destruct H as [u ->]. now exists u.
Qed.

Lemma rmatch_Lit_fail (t : string) (s : mstate) (k : cont) :
  String.prefix t (rest s) = false -> rmatch (Lit t) s k = None.
Proof.
  intros Hp. destruct (rmatch (Lit t) s k) as [x|] eqn:E; [|reflexivity].
  apply rmatch_Lit_inv in E. destruct E as [u Hu].
  rewrite Hu, prefix_app in Hp. discriminate.
Qed.

Lemma occurs_tail (sub : string) (c : ascii) (s : string) :
  occurs sub s -> occurs sub (String c s).
Proof. intros (a & b & ->). now exists (String c a), b. Qed.

(** A pattern that has the literal [t] after a first part, and another
    part after it, matches only in a text where [t] occurs. *)
Lemma match_at_needs_literal (a b : regex) (t : string) (p : nat)
    (s : string) (adv : bool) (m : match_obj) :
  match_at (Cat a (Cat (Lit t) b)) p s adv = Some m -> occurs t s.
Proof.
  unfold match_at.
  destruct (rmatch _ _ _) as [e|] eqn:E; [|discriminate].
  intros _. cbn [rmatch] in E.
  apply rmatch_reaches in E. destruct E as (s1 & H1 & [q Hq]).
  apply rmatch_Lit_inv in H1. destruct H1 as [u Hu].
  cbn [rest] in Hq. exists q, u. now rewrite Hq, Hu.
Qed.

Lemma search_from_needs_literal (a b : regex) (t : string) (s : string) :
  ~ occurs t s ->
  forall p adv, search_from (Cat a (Cat (Lit t) b)) p s adv = None.
Proof.
  induction s as [|c s IH]; intros Hno p adv; cbn [search_from].
  - destruct (match_at _ p EmptyString adv) as [m|] eqn:E; [|reflexivity].
    apply match_at_needs_literal in E. contradiction.
  - destruct (match_at _ p (String c s) adv) as [m|] eqn:E.
    + apply match_at_needs_literal in E. contradiction.
    + apply IH. intros Ho. apply Hno. now apply occurs_tail.
Qed.

Lemma finditer_needs_literal (a b : regex) (t : string) (s : string) :
  ~ occurs t s -> finditer (Cat a (Cat (Lit t) b)) s = [].
Proof.
  intros Hno. unfold finditer.
  cbn [finditer_from Nat.add Nat.mul].
  rewrite Nat.add_comm. cbn [Nat.add finditer_from].
  now rewrite search_from_needs_literal.
Qed.

End ReFacts.

(** ** Decoding a text without an object block *)

(** C10: applied to a text with no object block, that is a text in which
    the extractor's pattern has no match, as is every text in which
    [<object>] does not occur, whatever other tags or pieces of tags it
    has, [clean_text_and_extract_entities_with_bboxes] raises no exception
    and returns the tag-stripped, whitespace-trimmed text with an empty
    list of entities. *)
Theorem decode_without_object_block (A : Arith.ops) (text : string)
    (num_patches_per_side : Z) :
  ~ occurs "<object>" text \/ finditer entity_pattern text = [] ->
  extract_entities_with_patch_indices text = []
  /\ clean_text_and_extract_entities_with_bboxes A text num_patches_per_side
     = Ok (PyStr.strip (remove_special_fields text), []).
Proof.
  intros Hno.
  assert (He : extract_entities_with_patch_indices text = []).
  { unfold extract_entities_with_patch_indices.
    destruct Hno as [Hno | ->]; [|reflexivity].
    unfold entity_pattern. cbn [Seq].
    now rewrite ReFacts.finditer_needs_literal. }
  split; [exact He|].
  unfold clean_text_and_extract_entities_with_bboxes.
  rewrite He. reflexivity.
Qed.

Lemma occursb_complete (sub s : string) :
  occurs sub s -> occursb sub s = true.
Proof.
  intros (a & b & ->). induction a as [|c a IH].
  - cbn [append]. destruct (sub ++ b)%string eqn:E; cbn [occursb];
      rewrite <- E, ReFacts.prefix_app; reflexivity.
  - cbn [append occursb]. rewrite IH. apply orb_true_r.
Qed.

Lemma decode_without_object_block_witness :
  (extract_entities_with_patch_indices malformed_text = []
   /\ clean_text_and_extract_entities_with_bboxes Arith.binary64
        malformed_text 32
      = Ok ("a  c", []))
  /\ (extract_entities_with_patch_indices malformed_block = []
      /\ clean_text_and_extract_entities_with_bboxes Arith.binary64
           malformed_block 0
         = Ok ("a", [])).
Proof.
  split.
  - apply (decode_without_object_block Arith.binary64 malformed_text 32).
    left. intros H. apply occursb_complete in H. vm_compute in H.
    discriminate.
  - apply (decode_without_object_block Arith.binary64 malformed_block 0).
    right. vm_compute. reflexivity.
Defined.

(** ** Facts about strings *)

Module StrFacts.

Lemma app_nil_r (s : string) : (s ++ "")%string = s.
Proof. induction s as [|c s IH]; cbn; [reflexivity | now rewrite IH]. Qed.

Lemma app_assoc (a b c : string) :
  ((a ++ b) ++ c)%string = (a ++ b ++ c)%string.
Proof. induction a as [|x a IH]; cbn; [reflexivity | now rewrite IH]. Qed.

Lemma length_app (a b : string) :
  String.length (a ++ b) = String.length a + String.length b.
Proof. induction a as [|x a IH]; cbn; [reflexivity | now rewrite IH]. Qed.

Lemma prefix_cons (a c : ascii) (x t : string) :
  String.prefix (String a x) (String c t)
  = if ascii_dec a c then String.prefix x t else false.
Proof. reflexivity. Qed.

Lemma rstrip_head (c : ascii) (t : string) :
  PyStr.rstrip (String c t) = EmptyString
  \/ exists t', PyStr.rstrip (String c t) = String c t'.
Proof.
  cbn [PyStr.rstrip]. destruct (PyStr.rstrip t) as [|c' t'].
  - destruct (PyStr.is_space c); [now left | right; now eexists].
  - right. now eexists.
Qed.

Lemma rstrip_app_empty (a b : string) :
  PyStr.rstrip b = EmptyString -> PyStr.rstrip (a ++ b) = PyStr.rstrip a.
Proof.
  intros Hb. induction a as [|c a IH]; cbn [append PyStr.rstrip].
  - exact Hb.
  - now rewrite IH.
Qed.

Lemma rstrip_app_nonempty (a b : string) :
  PyStr.rstrip b <> EmptyString ->
  PyStr.rstrip (a ++ b) = (a ++ PyStr.rstrip b)%string.
Proof.
  intros Hb. induction a as [|c a IH]; cbn [append PyStr.rstrip].
  - reflexivity.
  - rewrite IH. destruct (a ++ PyStr.rstrip b)%string eqn:E; [|reflexivity].
    destruct a; cbn in E; [contradiction | discriminate].
Qed.

Lemma rstrip_idem (s : string) : PyStr.rstrip (PyStr.rstrip s) = PyStr.rstrip s.
Proof.
  induction s as [|c s IH]; [reflexivity|].
  cbn [PyStr.rstrip]. destruct (PyStr.rstrip s) as [|c' t'] eqn:E.
  - destruct (PyStr.is_space c) eqn:Ec; [reflexivity|].
    cbn [PyStr.rstrip]. now rewrite Ec.
  - cbn [PyStr.rstrip] in *. now rewrite IH.
Qed.

Lemma rstrip_no_space (s : string) :
  forallb (fun c => negb (PyStr.is_space c)) (list_ascii_of_string s) = true ->
  PyStr.rstrip s = s.
Proof.
  induction s as [|c s IH]; [reflexivity|].
  cbn [list_ascii_of_string forallb]. intros H.
  apply andb_prop in H. destruct H as [Hc Hs].
  cbn [PyStr.rstrip]. rewrite (IH Hs).
  destruct s; [|reflexivity].
  apply negb_true_iff in Hc. now rewrite Hc.
Qed.

Lemma rstrip_app_fixed (out x : string) :
  PyStr.rstrip out = out ->
  PyStr.rstrip (out ++ x) = (out ++ PyStr.rstrip x)%string.
Proof.
  intros Hout. destruct (PyStr.rstrip x) eqn:E.
  - rewrite rstrip_app_empty by exact E. now rewrite app_nil_r.
  - rewrite rstrip_app_nonempty; rewrite E; [reflexivity | discriminate].
Qed.

Lemma rstrip_prefix (s : string) : exists w, s = (PyStr.rstrip s ++ w)%string.
Proof.
  induction s as [|c s [w IH]]; [now exists EmptyString|].
  cbn [PyStr.rstrip]. destruct (PyStr.rstrip s) as [|c' t'].
  - cbn in IH. destruct (PyStr.is_space c).
    + now exists (String c s).
    + exists s. reflexivity.
  - exists w. cbn [append]. f_equal. exact IH.
Qed.

Lemma pad_starts (f : string) : PyStr.startswith (pad f) " " = true.
Proof.
  unfold pad. destruct (PyStr.startswith f " ") eqn:E; [exact E|].
  apply (ReFacts.prefix_app " " f).
Qed.

Lemma pad_fixed (f : string) : PyStr.startswith f " " = true -> pad f = f.
Proof. unfold pad. now intros ->. Qed.

Lemma pad_idem (f : string) : pad (pad f) = pad f.
Proof. apply pad_fixed, pad_starts. Qed.

Lemma startswith_space (s : string) :
  PyStr.startswith s " " = true <-> exists t, s = String " " t.
Proof.
  unfold PyStr.startswith. split.
  - intros H. apply ReFacts.prefix_inv in H. destruct H as [u ->].
    now exists u.
  - intros [t ->]. apply (ReFacts.prefix_app " " t).
Qed.

Lemma rstrip_pad_idem (f : string) :
  PyStr.rstrip (pad (PyStr.rstrip (pad f))) = PyStr.rstrip (pad f).
Proof.
  destruct (proj1 (startswith_space _) (pad_starts f)) as [t Ht].
  rewrite Ht.
  destruct (rstrip_head " " t) as [E | [t' E]]; rewrite E.
  - reflexivity.
  - rewrite pad_fixed by (apply startswith_space; now eexists).
    rewrite <- E. apply rstrip_idem.
Qed.

End StrFacts.

(** ** Facts about tags *)

Module TagFacts.

Lemma prefix_app_cases (T0 T c : string) :
  String.prefix T0 (T ++ c) = true ->
  String.prefix T0 T = true
  \/ exists x c' m, c = String x c' /\ T0 = (T ++ String x m)%string.
Proof.
  revert T0. induction T as [|y T IH]; intros T0 H.
  - destruct T0 as [|a t0]; [now left|]. right.
    apply ReFacts.prefix_inv in H. destruct H as [u Hu]. cbn in Hu.
    now exists a, (t0 ++ u)%string, t0.
  - destruct T0 as [|a t0]; [now left|].
    cbn in H. destruct (ascii_dec a y) as [->|n]; [|discriminate].
    apply IH in H. destruct H as [H | (x & c' & m & Hc & Ht)].
    + left. cbn. destruct (ascii_dec y y) as [_|n]; [exact H | now elim n].
    + right. exists x, c', m. split; [exact Hc|]. cbn. now rewrite Ht.
Qed.

Lemma prefix_app_r (T0 T c : string) :
  String.prefix T0 T = true -> String.prefix T0 (T ++ c) = true.
Proof.
  intros H. apply ReFacts.prefix_inv in H. destruct H as [u ->].
  rewrite StrFacts.app_assoc. apply ReFacts.prefix_app.
Qed.

Lemma forallb_body_app (b1 : string) (x : ascii) (b2 : string) :
  forallb body_char (list_ascii_of_string (b1 ++ String x b2)) = true ->
  body_char x = true.
Proof.
  induction b1 as [|c b1 IH]; cbn [append list_ascii_of_string forallb];
    intros H; apply andb_prop in H; destruct H as [H1 H2]; auto.
Qed.

Lemma tag_shape_inv (T : string) :
  tag_shape T = true ->
  exists b, T = String "<" b
    /\ forallb body_char (list_ascii_of_string b) = true.
Proof.
  destruct T as [|c b]; [discriminate|]. cbn [tag_shape]. intros H.
  apply andb_prop in H. destruct H as [Hc Hb].
  apply Ascii.eqb_eq in Hc. subst c. now exists b.
Qed.

(** A tag has no body character where another text has a [<] or a white
    space right after a non-empty common part. *)
Lemma tag_shape_no_break (T0 b : string) (x : ascii) (m : string) :
  tag_shape T0 = true -> b <> EmptyString ->
  T0 = (b ++ String x m)%string -> body_char x = true.
Proof.
  intros Hs Hb ->. destruct b as [|y b]; [contradiction|].
  apply tag_shape_inv in Hs. destruct Hs as (body & E & Hbody).
  cbn in E. injection E as _ <-. now apply forallb_body_app in Hbody.
Qed.

Lemma tag_shape_rstrip (T : string) : tag_shape T = true -> PyStr.rstrip T = T.
Proof.
  intros H. apply tag_shape_inv in H. destruct H as (b & -> & Hb).
  apply StrFacts.rstrip_no_space.
  cbn [list_ascii_of_string forallb]. apply andb_true_intro. split; [reflexivity|].
  rewrite forallb_forall in *. intros c Hc. apply Hb in Hc.
  unfold body_char in Hc. now apply andb_prop in Hc.
Qed.

Lemma find_prefix_stable (V : list string) (T c c2 : string) :
  (forall T0, In T0 V -> tag_shape T0 = true) ->
  T <> EmptyString ->
  first_tag V (T ++ c) = Some T -> breaks c2 ->
  first_tag V (T ++ c2) = Some T.
Proof.
  intros Hall HT H Hc2. unfold first_tag in *.
  induction V as [|T0 V' IH]; [discriminate|].
  cbn [find] in *.
  destruct (String.prefix T0 (T ++ c)) eqn:E.
  - injection H as ->. now rewrite ReFacts.prefix_app.
  - destruct (String.prefix T0 (T ++ c2)) eqn:E2.
    + exfalso. apply prefix_app_cases in E2.
      destruct E2 as [E2 | (x & c' & m & Hx & Ht)].
      * apply (prefix_app_r _ _ c) in E2. congruence.
      * destruct Hc2 as [-> | (x' & t & Hc & Hb)]; [discriminate|].
        rewrite Hc in Hx. injection Hx as <- <-.
        assert (Hs : tag_shape T0 = true) by (apply Hall; now left).
        pose proof (tag_shape_no_break T0 T x' m Hs HT Ht). congruence.
    + apply IH; [|exact H]. intros T1 H1. apply Hall. now right.
Qed.

Section Vocabulary.
Variable V : list string.
Hypothesis V_shape : forallb tag_shape V = true.

Lemma In_shape (T : string) : In T V -> tag_shape T = true.
Proof. intros H. rewrite forallb_forall in V_shape. now apply V_shape. Qed.

Lemma In_nonempty (T : string) : In T V -> T <> EmptyString.
Proof. intros H E. apply In_shape in H. now subst. Qed.

Lemma first_tag_Some (s T : string) :
  first_tag V s = Some T -> In T V /\ exists u, s = (T ++ u)%string.
Proof.
  intros H. apply find_some in H. destruct H as [Hin Hp].
  split; [exact Hin|]. now apply ReFacts.prefix_inv.
Qed.

Lemma first_tag_None (s T : string) :
  first_tag V s = None -> In T V -> String.prefix T s = false.
Proof. intros H Hin. exact (find_none _ _ H T Hin). Qed.

Lemma tag_mem (T : string) : In T V -> PyStr.mem T V = true.
Proof.
  intros H. unfold PyStr.mem. apply existsb_exists.
  exists T. split; [exact H | apply String.eqb_refl].
Qed.

Lemma frag_not_mem (f c : string) : no_tag_in V f c -> PyStr.mem f V = false.
Proof.
  intros Hf. destruct (PyStr.mem f V) eqn:E; [|reflexivity].
  unfold PyStr.mem in E. apply existsb_exists in E.
  destruct E as (T & Hin & Heq). apply String.eqb_eq in Heq. subst T.
  pose proof (Hf EmptyString f eq_refl (In_nonempty _ Hin)) as Hn.
  apply (first_tag_None _ f) in Hn; [|exact Hin].
  now rewrite ReFacts.prefix_app in Hn.
Qed.

Lemma first_tag_stable (T c c2 : string) :
  first_tag V (T ++ c) = Some T -> breaks c2 ->
  first_tag V (T ++ c2) = Some T.
Proof.
  intros H Hc2. apply (find_prefix_stable V T c c2).
  - exact In_shape.
  - apply first_tag_Some in H. now apply In_nonempty.
  - exact H.
  - exact Hc2.
Qed.

Lemma no_tag_in_tag_free (f c : string) : no_tag_in V f c -> tag_free V f.
Proof.
  intros Hf T Hin (a & b & E).
  assert (Hb : (T ++ b)%string <> EmptyString).
  { pose proof (In_nonempty _ Hin). destruct T; [contradiction | discriminate]. }
  pose proof (Hf a (T ++ b)%string E Hb) as Hn.
  apply (first_tag_None _ T) in Hn; [|exact Hin].
  now rewrite StrFacts.app_assoc, ReFacts.prefix_app in Hn.
Qed.

Lemma tag_free_no_tag_in (g c : string) :
  tag_free V g ->
  c = EmptyString \/ (exists t, c = String "<" t) ->
  no_tag_in V g c.
Proof.
  intros Hg Hc a b E Hb.
  destruct (first_tag V (b ++ c)) as [T|] eqn:F; [|reflexivity].
  exfalso. apply find_some in F. destruct F as [Hin Hp].
  apply prefix_app_cases in Hp.
  destruct Hp as [Hp | (x & c' & m & Hx & Ht)].
  - apply ReFacts.prefix_inv in Hp. destruct Hp as [u ->].
    apply (Hg T Hin). now exists a, u.
  - destruct Hc as [-> | [t ->]]; [discriminate|].
    injection Hx as <- <-.
    pose proof (tag_shape_no_break T b "<" m (In_shape _ Hin) Hb Ht).
    discriminate.
Qed.

Lemma tag_free_rstrip (f : string) : tag_free V f -> tag_free V (PyStr.rstrip f).
Proof.
  intros Hf T Hin (a & b & E). apply (Hf T Hin).
  destruct (StrFacts.rstrip_prefix f) as [w Hw].
  exists a, (b ++ w)%string. rewrite Hw at 1. rewrite E.
  now rewrite !StrFacts.app_assoc.
Qed.

Lemma tag_free_pad (f : string) : tag_free V f -> tag_free V (pad f).
Proof.
  intros Hf T Hin. unfold pad.
  destruct (PyStr.startswith f " "); [now apply Hf|].
  intros (a & b & E). destruct a as [|x a].
  - apply In_shape, tag_shape_inv in Hin. destruct Hin as (body & -> & _).
    cbn in E. discriminate.
  - cbn in E. injection E as _ E. apply (Hf T Hin). now exists a, b.
Qed.

End Vocabulary.

End TagFacts.

(** ** The split by the tags, piece by piece *)

Module SplitFacts.

Lemma drop_app (a b : string) : PyStr.drop (String.length a) (a ++ b) = b.
Proof. induction a as [|x a IH]; cbn; [now destruct b | exact IH]. Qed.

Lemma substring_app (b c : string) : substring 0 (String.length b) (b ++ c) = b.
Proof.
  induction b as [|x b IH]; cbn; [now destruct c | now rewrite IH].
Qed.

Lemma slice_app (a b c : string) :
  PyStr.slice (String.length a) (String.length a + String.length b)
    (a ++ b ++ c) = b.
Proof.
  unfold PyStr.slice.
  replace (String.length a + String.length b - String.length a)
    with (String.length b) by lia.
  induction a as [|x a IH]; cbn [append String.length].
  - apply substring_app.
  - cbn [substring]. exact IH.
Qed.

Lemma rmatch_tags (V : list string) (s : mstate) (k : cont) :
  V <> [] -> (forall s', k s' <> None) ->
  rmatch (Alts (map Lit V)) s k
  = match first_tag V (rest s) with
    | Some T => k (MState (pos s + String.length T)
                          (PyStr.drop (String.length T) (rest s)) (caps s))
    | None => None
    end.
Proof.
  intros HV Hk. unfold first_tag.
  induction V as [|T V' IH]; [contradiction|]. clear HV.
  assert (Hone : String.prefix T (rest s) = true ->
            rmatch (Lit T) s k
            = k (MState (pos s + String.length T)
                        (PyStr.drop (String.length T) (rest s)) (caps s))).
  { intros Hp. apply ReFacts.prefix_inv in Hp. destruct Hp as [u Hu].
    rewrite (ReFacts.rmatch_Lit T s k u Hu), Hu, drop_app. reflexivity. }
  cbn [find]. destruct V' as [|T2 V''].
  - cbn [map Alts find].
    destruct (String.prefix T (rest s)) eqn:E.
    + now apply Hone.
    + now apply ReFacts.rmatch_Lit_fail.
  - change (Alts (map Lit (T :: T2 :: V'')))
      with (Alt (Lit T) (Alts (map Lit (T2 :: V'')))).
    cbn [rmatch].
    destruct (String.prefix T (rest s)) eqn:E.
    + rewrite (Hone eq_refl).
      destruct (k _) eqn:Ek; [reflexivity | now apply Hk in Ek].
    + rewrite ReFacts.rmatch_Lit_fail by exact E.
      apply IH. discriminate.
Qed.

Section Vocabulary.
Variable V : list string.
Hypothesis V_shape : forallb tag_shape V = true.
Hypothesis V_nonempty : V <> [].

Lemma match_at_tags (p : nat) (s : string) :
  match_at (tags_pattern V) p s false
  = match first_tag V s with
    | Some T => Some (Match p (p + String.length T)
                        (PyStr.drop (String.length T) s)
                        [(1, (p, p + String.length T))])
    | None => None
    end.
Proof.
  unfold match_at, tags_pattern. cbn [rmatch andb].
  rewrite rmatch_tags; [|exact V_nonempty|discriminate].
  cbn [rest pos caps]. now destruct (first_tag V s).
Qed.

Lemma first_tag_empty : first_tag V "" = None.
Proof.
  destruct (first_tag V "") as [T|] eqn:E; [|reflexivity].
  apply (TagFacts.first_tag_Some V) in E. destruct E as [Hin [u Hu]].
  apply (TagFacts.In_nonempty V V_shape) in Hin.
  destruct T; [contradiction | discriminate].
Qed.

Lemma finditer_skip (fuel p : nat) (c : ascii) (s : string) :
  first_tag V (String c s) = None ->
  finditer_from (tags_pattern V) fuel p (String c s) false
  = finditer_from (tags_pattern V) fuel (S p) s false.
Proof.
  intros H. destruct fuel as [|fuel]; [reflexivity|].
  cbn [finditer_from search_from]. now rewrite match_at_tags, H.
Qed.

Lemma finditer_end (fuel p : nat) :
  finditer_from (tags_pattern V) fuel p "" false = [].
Proof.
  destruct fuel as [|fuel]; [reflexivity|].
  cbn [finditer_from search_from]. now rewrite match_at_tags, first_tag_empty.
Qed.

Lemma search_from_tag (p : nat) (s T : string) :
  first_tag V s = Some T ->
  search_from (tags_pattern V) p s false
  = Some (Match p (p + String.length T) (PyStr.drop (String.length T) s)
            [(1, (p, p + String.length T))]).
Proof.
  intros H. destruct s; cbn [search_from]; rewrite match_at_tags, H;
    reflexivity.
Qed.

Lemma finditer_tag (fuel p : nat) (T rest : string) :
  first_tag V (T ++ rest) = Some T ->
  finditer_from (tags_pattern V) (S fuel) p (T ++ rest) false
  = Match p (p + String.length T) rest [(1, (p, p + String.length T))]
    :: finditer_from (tags_pattern V) fuel (p + String.length T) rest false.
Proof.
  intros H.
  assert (HT : String.length T <> 0).
  { apply (TagFacts.first_tag_Some V) in H. destruct H as [Hin _].
    apply (TagFacts.In_nonempty V V_shape) in Hin.
    destruct T; [contradiction | discriminate]. }
  cbn [finditer_from].
  assert (Hs : search_from (tags_pattern V) p (T ++ rest) false
               = Some (Match p (p + String.length T) rest
                         [(1, (p, p + String.length T))])).
  { rewrite (search_from_tag p _ T H), drop_app. reflexivity. }
  rewrite Hs. cbn [m_end m_rest m_start].
  replace (p + String.length T =? p) with false; [reflexivity|].
  symmetry. apply Nat.eqb_neq. lia.
Qed.

Lemma no_tag_in_tail (x : ascii) (f c : string) :
  no_tag_in V (String x f) c -> no_tag_in V f c.
Proof. intros H a b E Hb. apply (H (String x a) b); [now rewrite E | exact Hb]. Qed.

Lemma skip_fragment (fuel : nat) (f c : string) (p : nat) :
  no_tag_in V f c ->
  finditer_from (tags_pattern V) fuel p (f ++ c) false
  = finditer_from (tags_pattern V) fuel (p + String.length f) c false.
Proof.
  revert p. induction f as [|x f IH]; intros p Hf.
  - cbn. now rewrite Nat.add_0_r.
  - cbn [append String.length]. rewrite finditer_skip.
    + rewrite IH by (eapply no_tag_in_tail; exact Hf).
      f_equal. lia.
    + apply (Hf EmptyString (String x f)); [reflexivity | discriminate].
Qed.

(** The pieces of a text are those [re.split] computes. *)
Lemma pieces_Splits (s : string) (l : list string) :
  Splits V s l ->
  forall fuel text pre, text = (pre ++ s)%string -> String.length s < fuel ->
    split_pieces text (String.length pre)
      (finditer_from (tags_pattern V) fuel (String.length pre) s false)
    = l.
Proof.
  induction 1 as [f Hf | f T rest l Hf HT _ IH]; intros fuel text pre -> Hfuel.
  - replace (finditer_from (tags_pattern V) fuel (String.length pre) f false)
      with (finditer_from (tags_pattern V) fuel (String.length pre)
              (f ++ "") false) by now rewrite StrFacts.app_nil_r.
    rewrite skip_fragment by exact Hf. rewrite finditer_end.
    cbn [split_pieces]. now rewrite drop_app.
  - rewrite skip_fragment by exact Hf.
    destruct fuel as [|fuel]; [lia|].
    rewrite finditer_tag by exact HT.
    cbn [split_pieces m_start m_end]. unfold group, span.
    cbn [lookup m_caps Nat.eqb].
    rewrite slice_app.
    replace (pre ++ f ++ T ++ rest)%string
      with ((pre ++ f) ++ T ++ rest)%string by apply StrFacts.app_assoc.
    rewrite <- StrFacts.length_app, slice_app.
    f_equal. f_equal.
    rewrite <- StrFacts.length_app.
    apply IH.
    + now rewrite !StrFacts.app_assoc.
    + rewrite !StrFacts.length_app in Hfuel.
      destruct (TagFacts.first_tag_Some V _ _ HT) as [Hin _].
      apply (TagFacts.In_nonempty V V_shape) in Hin.
      destruct T; [contradiction | cbn in Hfuel; lia].
Qed.

Lemma split_Splits (s : string) (l : list string) :
  Splits V s l -> Re.split (Alts (map Lit V)) s = l.
Proof.
  intros H. unfold Re.split, finditer.
  apply (pieces_Splits s l H _ s EmptyString); [reflexivity | lia].
Qed.

(** Every text has its pieces. *)
Lemma scan (s : string) :
  no_tag_in V s ""
  \/ exists f T rest,
       s = (f ++ T ++ rest)%string
       /\ no_tag_in V f (T ++ rest)
       /\ first_tag V (T ++ rest) = Some T.
Proof.
  induction s as [|x s IH].
  - left. intros a b E Hb. destruct a; destruct b; cbn in E; congruence.
  - destruct (first_tag V (String x s)) as [T|] eqn:F.
    + right. destruct (TagFacts.first_tag_Some V _ _ F) as [_ [u Hu]].
      exists EmptyString, T, u. cbn [append]. rewrite <- Hu.
      repeat split; [|exact F].
      intros a b E Hb. destruct a; destruct b; cbn in E; congruence.
    + destruct IH as [IH | (f & T & rest & E & Hf & HT)].
      * left. intros a b E Hb. destruct a as [|y a].
        -- cbn in E. subst b. now rewrite StrFacts.app_nil_r.
        -- cbn in E. injection E as _ E. now apply (IH a b).
      * right. exists (String x f), T, rest. subst s.
        repeat split; [|exact HT].
        intros a b E Hb. destruct a as [|y a].
        -- cbn in E. subst b. exact F.
        -- cbn in E. injection E as _ E. now apply (Hf a b).
Qed.

Lemma Splits_total (s : string) : exists l, Splits V s l.
Proof.
  remember (String.length s) as n eqn:Hn.
  revert s Hn. induction n as [n IH] using lt_wf_ind. intros s Hn.
  destruct (scan s) as [H | (f & T & rest & E & Hf & HT)].
  - exists [s]. now constructor.
  - assert (Hlen : String.length rest < n).
    { subst n s. rewrite !StrFacts.length_app.
      destruct (TagFacts.first_tag_Some V _ _ HT) as [Hin _].
      apply (TagFacts.In_nonempty V V_shape) in Hin.
      destruct T; [contradiction | cbn; lia]. }
    destruct (IH _ Hlen rest eq_refl) as [l Hl].
    exists (f :: T :: l). subst s. now constructor.
Qed.

End Vocabulary.

End SplitFacts.

(** ** The loop of the normalizer over the pieces *)

Module LoopFacts.

Lemma filter_inner (l : list string) (a N : nat) :
  1 <= a -> a + length l = N ->
  map snd
    (filter (fun '(idx, split) =>
               negb (((idx =? 0) || (idx =? N - 1)) && String.eqb split ""))
            (combine (seq a (length l)) l))
  = drop_last_empty l.
Proof.
  revert a. induction l as [|x l IH]; intros a Ha HN; [reflexivity|].
  cbn [length seq combine filter].
  destruct l as [|y l].
  - cbn [length] in HN.
    replace (a =? 0) with false by (symmetry; apply Nat.eqb_neq; lia).
    replace (a =? N - 1) with true by (symmetry; apply Nat.eqb_eq; lia).
    cbn [orb andb seq combine filter drop_last_empty].
    destruct (String.eqb x ""); reflexivity.
  - cbn [length] in HN.
    replace (a =? 0) with false by (symmetry; apply Nat.eqb_neq; lia).
    replace (a =? N - 1) with false by (symmetry; apply Nat.eqb_neq; lia).
    cbn [orb andb negb map snd].
    rewrite IH by (cbn [length]; lia). reflexivity.
Qed.

Lemma drop_boundary_empty_one (x : string) :
  drop_boundary_empty [x] = if String.eqb x "" then [] else [x].
Proof. unfold drop_boundary_empty. cbn. now destruct (String.eqb x ""). Qed.

Lemma drop_boundary_empty_more (x y : string) (l : list string) :
  drop_boundary_empty (x :: y :: l)
  = (if String.eqb x "" then [] else [x]) ++ drop_last_empty (y :: l).
Proof.
  unfold drop_boundary_empty.
  change (length (x :: y :: l)) with (S (length (y :: l))).
  cbn [seq]. cbn [combine filter].
  rewrite <- (filter_inner (y :: l) 1 (S (length (y :: l))) (le_n 1) eq_refl).
  cbn [Nat.eqb orb andb].
  destruct (String.eqb x ""); reflexivity.
Qed.

Section Vocabulary.
Variable V : list string.
Hypothesis V_shape : forallb tag_shape V = true.

Lemma step_frag (out : string) (prev : bool) (f c : string) :
  no_tag_in V f c ->
  spaces_step V (out, prev) f
  = (if (prev && negb (PyStr.startswith f " "))%bool
     then (out ++ " " ++ f)%string else (out ++ f)%string, false).
Proof.
  intros Hf. unfold spaces_step.
  rewrite (TagFacts.frag_not_mem V V_shape f c Hf).
  now destruct (prev && negb (PyStr.startswith f " "))%bool.
Qed.

Lemma step_tag (out : string) (prev : bool) (T : string) :
  In T V ->
  spaces_step V (out, prev) T = ((PyStr.rstrip out ++ T)%string, true).
Proof.
  intros HT. unfold spaces_step. now rewrite (TagFacts.tag_mem V T HT).
Qed.

Lemma Splits_nonempty (s : string) (l : list string) : Splits V s l -> l <> [].
Proof. destruct 1; discriminate. Qed.

Lemma rstrip_after_tag (out T : string) :
  In T V -> PyStr.rstrip (out ++ T) = (out ++ T)%string.
Proof.
  intros HT. pose proof (TagFacts.In_shape V V_shape T HT) as Hs.
  pose proof (TagFacts.tag_shape_rstrip T Hs) as Hr.
  rewrite StrFacts.rstrip_app_nonempty; rewrite Hr; [reflexivity|].
  now apply (TagFacts.In_nonempty V V_shape).
Qed.

Lemma fold_after (s : string) (l : list string) :
  Splits V s l ->
  forall out, PyStr.rstrip out = out ->
    fst (fold_left (spaces_step V) (drop_last_empty l) (out, true))
    = (out ++ rend_after l)%string.
Proof.
  induction 1 as [f Hf | f T rest l Hf HT Hl IH]; intros out Hout.
  - cbn [drop_last_empty rend_after].
    destruct (String.eqb f ""); cbn [fold_left fst].
    + now rewrite StrFacts.app_nil_r.
    + rewrite (step_frag out true f "" Hf). cbn [andb fst]. unfold pad.
      now destruct (PyStr.startswith f " ").
  - pose proof (Splits_nonempty _ _ Hl) as Hne.
    destruct (TagFacts.first_tag_Some V _ _ HT) as [Hin _].
    assert (Hd : drop_last_empty (f :: T :: l) = f :: T :: drop_last_empty l).
    { destruct l; [contradiction | reflexivity]. }
    rewrite Hd. cbn [fold_left rend_after].
    rewrite (step_frag out true f _ Hf), (step_tag _ false T Hin).
    cbn [andb].
    assert (Hp : (if negb (PyStr.startswith f " ")
                  then (out ++ " " ++ f)%string else (out ++ f)%string)
                 = (out ++ pad f)%string).
    { unfold pad. now destruct (PyStr.startswith f " "). }
    rewrite Hp, (StrFacts.rstrip_app_fixed out (pad f) Hout).
    rewrite IH by apply (rstrip_after_tag _ T Hin).
    now rewrite !StrFacts.app_assoc.
Qed.

Lemma fold_first (s : string) (l : list string) :
  Splits V s l ->
  fst (fold_left (spaces_step V) (drop_boundary_empty l) ("", false))
  = rend_first l.
Proof.
  destruct 1 as [f Hf | f T rest l Hf HT Hl].
  - rewrite drop_boundary_empty_one. cbn [rend_first].
    destruct (String.eqb f "") eqn:E; cbn [fold_left fst].
    + apply String.eqb_eq in E. now subst.
    + now rewrite (step_frag "" false f "" Hf).
  - pose proof (Splits_nonempty _ _ Hl) as Hne.
    destruct (TagFacts.first_tag_Some V _ _ HT) as [Hin _].
    rewrite drop_boundary_empty_more.
    assert (Hd : drop_last_empty (T :: l) = T :: drop_last_empty l).
    { destruct l; [contradiction | reflexivity]. }
    rewrite Hd. cbn [rend_first].
    assert (Hgo : forall out,
              fst (fold_left (spaces_step V) (T :: drop_last_empty l)
                     (out, false))
              = (PyStr.rstrip out ++ T ++ rend_after l)%string).
    { intros out. cbn [fold_left]. rewrite (step_tag _ false T Hin).
      rewrite (fold_after _ _ Hl) by apply (rstrip_after_tag _ T Hin).
      now rewrite StrFacts.app_assoc. }
    destruct (String.eqb f "") eqn:E.
    + apply String.eqb_eq in E. subst f. cbn [app]. apply Hgo.
    + cbn [app fold_left]. rewrite (step_frag "" false f _ Hf).
      cbn [andb append]. apply Hgo.
Qed.

(** The text the loop builds splits into the pieces it was built from,
    each in the form the loop gives it. *)
Lemma rend_after_breaks (s : string) (l : list string) :
  Splits V s l -> breaks (rend_after l).
Proof.
  destruct 1 as [f Hf | f T rest l Hf HT Hl].
  - cbn [rend_after]. destruct (String.eqb f ""); [now left|].
    right. destruct (proj1 (StrFacts.startswith_space _) (StrFacts.pad_starts f))
      as [t ->].
    now exists " "%char, t.
  - cbn [rend_after]. right.
    destruct (proj1 (StrFacts.startswith_space _) (StrFacts.pad_starts f))
      as [t ->].
    destruct (StrFacts.rstrip_head " " t) as [E | [t' E]]; rewrite E.
    + destruct (TagFacts.first_tag_Some V _ _ HT) as [Hin _].
      apply (TagFacts.In_shape V V_shape), TagFacts.tag_shape_inv in Hin.
      destruct Hin as (b & -> & _). cbn [append].
      now eexists "<"%char, _.
    + cbn [append]. now eexists " "%char, _.
Qed.

Lemma tag_starts (T c : string) :
  In T V -> exists t, (T ++ c)%string = String "<" t.
Proof.
  intros Hin.
  apply (TagFacts.In_shape V V_shape), TagFacts.tag_shape_inv in Hin.
  destruct Hin as (b & -> & _). now eexists.
Qed.

Lemma Splits_rend_after (s : string) (l : list string) :
  Splits V s l ->
  exists l2, Splits V (rend_after l) l2 /\ rend_after l2 = rend_after l.
Proof.
  induction 1 as [f Hf | f T rest l Hf HT Hl IH].
  - cbn [rend_after]. destruct (String.eqb f "") eqn:E.
    + exists [""]. split; [|reflexivity]. constructor.
      intros a b Eab Hb. destruct a; destruct b; cbn in Eab; congruence.
    + exists [pad f]. split.
      * constructor. apply (TagFacts.tag_free_no_tag_in V V_shape);
          [|now left].
        apply (TagFacts.tag_free_pad V V_shape).
        now apply (TagFacts.no_tag_in_tag_free V V_shape f "").
      * cbn [rend_after]. rewrite StrFacts.pad_idem.
        destruct (String.eqb (pad f) "") eqn:E2; [|reflexivity].
        apply String.eqb_eq in E2.
        destruct (proj1 (StrFacts.startswith_space _) (StrFacts.pad_starts f))
          as [t Ht]. congruence.
  - destruct IH as (l2 & Hl2 & El2).
    destruct (TagFacts.first_tag_Some V _ _ HT) as [Hin _].
    exists (PyStr.rstrip (pad f) :: T :: l2). split.
    + constructor.
      * apply (TagFacts.tag_free_no_tag_in V V_shape);
          [|right; now apply tag_starts].
        apply (TagFacts.tag_free_rstrip V), (TagFacts.tag_free_pad V V_shape).
        now apply (TagFacts.no_tag_in_tag_free V V_shape f (T ++ rest)).
      * apply (TagFacts.first_tag_stable V V_shape T rest); [exact HT|].
        now apply (rend_after_breaks _ _ Hl).
      * exact Hl2.
    + cbn [rend_after]. now rewrite StrFacts.rstrip_pad_idem, El2.
Qed.

Lemma Splits_rend_first (s : string) (l : list string) :
  Splits V s l ->
  exists l2, Splits V (rend_first l) l2 /\ rend_first l2 = rend_first l.
Proof.
  destruct 1 as [f Hf | f T rest l Hf HT Hl].
  - exists [f]. split; [now constructor | reflexivity].
  - destruct (Splits_rend_after _ _ Hl) as (l2 & Hl2 & El2).
    destruct (TagFacts.first_tag_Some V _ _ HT) as [Hin _].
    exists (PyStr.rstrip f :: T :: l2). split.
    + cbn [rend_first]. constructor.
      * apply (TagFacts.tag_free_no_tag_in V V_shape);
          [|right; now apply tag_starts].
        apply (TagFacts.tag_free_rstrip V).
        now apply (TagFacts.no_tag_in_tag_free V V_shape f (T ++ rest)).
      * apply (TagFacts.first_tag_stable V V_shape T rest); [exact HT|].
        now apply (rend_after_breaks _ _ Hl).
      * exact Hl2.
    + cbn [rend_first]. now rewrite StrFacts.rstrip_idem, El2.
Qed.

End Vocabulary.

End LoopFacts.

(** ** Idempotence of the normalizer *)

Lemma normalize_rend (tk : tokenizer) (text : string) (l : list string) :
  forallb tag_shape (all_tag_tokens tk) = true ->
  forallb is_literal (all_tag_tokens tk) = true ->
  all_tag_tokens tk <> [] ->
  Splits (all_tag_tokens tk) text l ->
  _add_remove_spaces_around_tag_tokens tk text = Ok (rend_first l).
Proof.
  intros Hshape Hlit Hne Hl. unfold _add_remove_spaces_around_tag_tokens.
  rewrite Hlit.
  rewrite (SplitFacts.split_Splits _ Hshape Hne text l Hl).
  now rewrite (LoopFacts.fold_first _ Hshape text l Hl).
Qed.

(** C5, as stated, fails: with the two tokens [<a>] and [<b<a>], removing
    the space before [<a>] makes the token [<b<a>], and a second pass
    removes the space before it; so with the tokens [ab] and [b].  The
    order of the tokens in the pattern plays no part. *)
Lemma normalize_not_idempotent :
  (_add_remove_spaces_around_tag_tokens (Tokenizer ["<a>"; "<b<a>"] 0)
     "x <b <a>" = Ok "x <b<a>"
   /\ _add_remove_spaces_around_tag_tokens (Tokenizer ["<a>"; "<b<a>"] 0)
        "x <b<a>" = Ok "x<b<a>"
   /\ "x <b<a>" <> "x<b<a>")
  /\ (_add_remove_spaces_around_tag_tokens (Tokenizer ["<b<a>"; "<a>"] 0)
        "x <b <a>" = Ok "x <b<a>"
      /\ _add_remove_spaces_around_tag_tokens (Tokenizer ["<b<a>"; "<a>"] 0)
           "x <b<a>" = Ok "x<b<a>")
  /\ (_add_remove_spaces_around_tag_tokens (Tokenizer ["ab"; "b"] 0) "  a b"
      = Ok "  ab"
      /\ _add_remove_spaces_around_tag_tokens (Tokenizer ["ab"; "b"] 0) "  ab"
         = Ok "ab"
      /\ "  ab" <> "ab").
Proof.
  repeat split; try (vm_compute; reflexivity); discriminate.
Qed.

(** C5, amended: the normalizer is idempotent for every text and every
    non-empty vocabulary of tags, a tag being a [<] followed by
    characters that are neither [<] nor white space (and, the pattern
    being built without escaping, none that is special in a pattern):
    normalizing the normalized text gives the normalized text. *)
Theorem normalize_idempotent (tk : tokenizer) (text : string) :
  forallb tag_shape (all_tag_tokens tk) = true ->
  forallb is_literal (all_tag_tokens tk) = true ->
  all_tag_tokens tk <> [] ->
  exists normalized,
    _add_remove_spaces_around_tag_tokens tk text = Ok normalized
    /\ _add_remove_spaces_around_tag_tokens tk normalized = Ok normalized.
Proof.
  intros Hshape Hlit Hne.
  destruct (SplitFacts.Splits_total _ Hshape text) as [l Hl].
  destruct (LoopFacts.Splits_rend_first _ Hshape text l Hl) as (l2 & Hl2 & E).
  exists (rend_first l). split.
  - now apply normalize_rend.
  - rewrite <- E at 2. now apply normalize_rend.
Qed.

Lemma normalize_idempotent_witness :
  exists normalized,
    _add_remove_spaces_around_tag_tokens kosmos2_tokenizer
      " An  <phrase> apple </phrase><object> <patch_index_0012>  <patch_index_0012> </object>is red "
    = Ok normalized
    /\ _add_remove_spaces_around_tag_tokens kosmos2_tokenizer normalized
       = Ok normalized.
Proof.
  apply (normalize_idempotent kosmos2_tokenizer).
  - vm_compute. reflexivity.
  - vm_compute. reflexivity.
  - vm_compute. discriminate.
Defined.


(** ** The matcher on index pairs *)

Module PairFacts.

Lemma mstate_eta (s : mstate) : MState (pos s) (rest s) (caps s) = s.
Proof. now destruct s. Qed.

Lemma rmatch_Cat (a b : regex) (s : mstate) (k : cont) :
  rmatch (Cat a b) s k = rmatch a s (fun s' => rmatch b s' k).
Proof. reflexivity. Qed.

Lemma rmatch_Grp (n : nat) (a : regex) (s : mstate) (k : cont) :
  rmatch (Grp n a) s k
  = rmatch a s (fun s' => k (MState (pos s') (rest s')
                               ((n, (pos s, pos s')) :: caps s'))).
Proof. reflexivity. Qed.

Lemma digit_not_gt (c : ascii) :
  PyStr.is_digit c = true -> Ascii.eqb ">" c = false.
Proof.
  intros H. destruct (Ascii.eqb ">" c) eqn:E; [|reflexivity].
  apply Ascii.eqb_eq in E. subst c. discriminate.
Qed.

Lemma digit_not_lt (c : ascii) :
  PyStr.is_digit c = true -> Ascii.eqb c "<" = false.
Proof.
  intros H. destruct (Ascii.eqb c "<") eqn:E; [|reflexivity].
  apply Ascii.eqb_eq in E. subst c. discriminate.
Qed.

Lemma gt_fails_on_digit (s : mstate) (k : cont) :
  digit_next (rest s) -> rmatch (Chr ">") s k = None.
Proof.
  intros (c & t & E & Hc). cbn [rmatch]. unfold eat. rewrite E.
  cbn [char_ok]. now rewrite digit_not_gt.
Qed.

(** A greedy run of digits takes them all when what follows it cannot
    start at a digit. *)
Lemma star_digits (d r : string) (K : cont) :
  forallb PyStr.is_digit (list_ascii_of_string d) = true ->
  ~ digit_next r ->
  (forall s', digit_next (rest s') -> K s' = None) ->
  forall fuel s, String.length d <= fuel -> rest s = (d ++ r)%string ->
    star_loop (rmatch Digit) true fuel s K
    = K (MState (pos s + String.length d) r (caps s)).
Proof.
  intros Hd Hr HK. induction d as [|c d IH]; intros fuel s Hfuel E.
  - cbn [append String.length] in *. rewrite Nat.add_0_r, <- E, mstate_eta.
    destruct fuel as [|fuel]; [reflexivity|].
    cbn [star_loop rmatch]. unfold eat.
    destruct (rest s) as [|c t] eqn:Er; [reflexivity|].
    cbn [char_ok]. destruct (PyStr.is_digit c) eqn:Ec; [|reflexivity].
    exfalso. apply Hr. rewrite <- E. now exists c, t.
  - cbn [list_ascii_of_string forallb] in Hd.
    apply andb_prop in Hd. destruct Hd as [Hc Hd].
    destruct fuel as [|fuel]; [cbn in Hfuel; lia|].
    cbn [String.length] in Hfuel.
    cbn [star_loop rmatch]. unfold eat at 1. rewrite E.
    cbn [append char_ok pos rest caps]. rewrite Hc.
    replace (S (pos s) <=? pos s) with false
      by (symmetry; apply Nat.leb_gt; lia).
    rewrite (IH Hd fuel); [| lia | reflexivity].
    cbn [pos caps String.length].
    replace (S (pos s) + String.length d) with (pos s + S (String.length d))
      by lia.
    destruct (K _) eqn:EK; [reflexivity|].
    apply HK. rewrite E. now exists c, (d ++ r)%string.
Qed.

Lemma plus_digits (d r : string) (K : cont) (s : mstate) :
  digits d -> ~ digit_next r ->
  (forall s', digit_next (rest s') -> K s' = None) ->
  rest s = (d ++ r)%string ->
  rmatch (Plus true Digit) s K
  = K (MState (pos s + String.length d) r (caps s)).
Proof.
  intros [Hne Hd] Hr HK E. destruct d as [|c d]; [contradiction|].
  cbn [list_ascii_of_string forallb] in Hd.
  apply andb_prop in Hd. destruct Hd as [Hc Hd].
  unfold Plus. rewrite rmatch_Cat.
  change (rmatch Digit s) with (eat Digit s). unfold eat. rewrite E.
  cbn [append char_ok]. rewrite Hc. cbn [rmatch].
  rewrite (star_digits d r K Hd Hr HK); cbn [rest pos caps];
    [|rewrite StrFacts.length_app; lia | reflexivity].
  cbn [String.length]. f_equal. f_equal. lia.
Qed.

Lemma gt_not_digit_next (r : string) : ~ digit_next (String ">" r).
Proof. intros (c & t & E & Hc). injection E as <- _. discriminate. Qed.

(** One [<patch_index_D>], in the three pieces of its pattern. *)
Lemma rmatch_index (d r : string) (K : cont) (s : mstate) :
  digits d ->
  rest s = ("<patch_index_" ++ d ++ ">" ++ r)%string ->
  rmatch (Lit "<patch_index_") s
    (fun s1 => rmatch (Plus true Digit) s1
                 (fun s2 => rmatch (Chr ">") s2 K))
  = K (MState (pos s + 13 + String.length d + 1) r (caps s)).
Proof.
  intros Hd E.
  rewrite (ReFacts.rmatch_Lit "<patch_index_" s _ _ E).
  rewrite (plus_digits d (">" ++ r) _ _ Hd);
    [| apply gt_not_digit_next
     | intros s' Hs'; now apply gt_fails_on_digit
     | reflexivity].
  cbn [rmatch pos caps]. unfold eat. cbn [rest append char_ok].
  rewrite Ascii.eqb_refl. cbn [String.length pos caps].
  f_equal. f_equal. lia.
Qed.

(** The same with the digits as group 1. *)
Lemma rmatch_index_group (d r : string) (K : cont) (s : mstate) :
  digits d ->
  rest s = ("<patch_index_" ++ d ++ ">" ++ r)%string ->
  rmatch patch_index_pattern s K
  = K (MState (pos s + 13 + String.length d + 1) r
         ((1, (pos s + 13, pos s + 13 + String.length d)) :: caps s)).
Proof.
  intros Hd E. unfold patch_index_pattern. cbn [Seq].
  rewrite rmatch_Cat.
  rewrite (ReFacts.rmatch_Lit "<patch_index_" s _ _ E).
  rewrite rmatch_Cat, rmatch_Grp.
  rewrite (plus_digits d (">" ++ r) _ _ Hd);
    [| apply gt_not_digit_next
     | intros s' Hs'; now apply gt_fails_on_digit
     | reflexivity].
  cbn [rmatch pos caps rest]. unfold eat. cbn [rest append char_ok].
  rewrite Ascii.eqb_refl. cbn [String.length pos caps].
  f_equal. f_equal. lia.
Qed.

Lemma rmatch_index_then (R : regex) (d r : string) (K : cont) (s : mstate) :
  digits d ->
  rest s = ("<patch_index_" ++ d ++ ">" ++ r)%string ->
  rmatch (Cat (Lit "<patch_index_") (Cat (Plus true Digit) (Cat (Chr ">") R)))
    s K
  = rmatch R (MState (pos s + 13 + String.length d + 1) r (caps s)) K.
Proof.
  intros Hd E. exact (rmatch_index d r (fun s3 => rmatch R s3 K) s Hd E).
Qed.

Lemma rmatch_index_last (d r : string) (K : cont) (s : mstate) :
  digits d ->
  rest s = ("<patch_index_" ++ d ++ ">" ++ r)%string ->
  rmatch (Cat (Lit "<patch_index_") (Cat (Plus true Digit) (Chr ">"))) s K
  = K (MState (pos s + 13 + String.length d + 1) r (caps s)).
Proof. intros Hd E. exact (rmatch_index d r K s Hd E). Qed.

Lemma rmatch_index_pair (de : string * string) (r : string) (K : cont)
    (s : mstate) :
  digits (fst de) -> digits (snd de) ->
  rest s = (index_pair_text de ++ r)%string ->
  rmatch index_pair_pattern s K
  = K (MState (pos s + String.length (index_pair_text de)) r (caps s)).
Proof.
  intros Hd He E. destruct de as [d e]. cbn [fst snd] in *.
  unfold index_pair_pattern. cbn [Seq].
  unfold index_pair_text in E. cbn [fst snd] in E.
  rewrite !StrFacts.app_assoc in E.
  rewrite (rmatch_index_then _ d ("<patch_index_" ++ e ++ ">" ++ r) K s Hd)
    by (rewrite E; cbn [append]; reflexivity).
  rewrite (rmatch_index_last e r K _ He) by reflexivity.
  cbn [pos caps]. unfold index_pair_text. cbn [fst snd].
  rewrite !StrFacts.length_app. cbn [String.length].
  f_equal. f_equal. lia.
Qed.

End PairFacts.

(** ** The matcher on an object block without a phrase *)

Module BlockFacts.

Lemma rmatch_Alt (a b : regex) (s : mstate) (k : cont) :
  rmatch (Alt a b) s k
  = match rmatch a s k with Some x => Some x | None => rmatch b s k end.
Proof. reflexivity. Qed.

Lemma rmatch_Star (g : bool) (a : regex) (s : mstate) (k : cont) :
  rmatch (Star g a) s k
  = star_loop (rmatch a) g (S (String.length (rest s))) s k.
Proof. reflexivity. Qed.

Lemma lit_needs_lt (x : string) (s : mstate) (k : cont) :
  ~ lt_next (rest s) -> rmatch (Lit (String "<" x)) s k = None.
Proof.
  intros H. apply ReFacts.rmatch_Lit_fail.
  destruct (rest s) as [|c t]; [reflexivity|].
  rewrite StrFacts.prefix_cons.
  destruct (ascii_dec "<" c) as [<-|_]; [|reflexivity].
  exfalso. apply H. now exists t.
Qed.

Lemma entity_pattern_lt : starts_with_lt entity_pattern.
Proof.
  intros p s adv H. unfold match_at, entity_pattern. cbn [Seq].
  rewrite PairFacts.rmatch_Cat. unfold Opt. rewrite rmatch_Alt.
  rewrite PairFacts.rmatch_Grp, PairFacts.rmatch_Cat.
  rewrite lit_needs_lt by exact H.
  change (rmatch Eps ?s0 ?k) with (k s0). cbv beta.
  rewrite PairFacts.rmatch_Cat, lit_needs_lt by exact H. reflexivity.
Qed.

Lemma patch_index_pattern_lt : starts_with_lt patch_index_pattern.
Proof.
  intros p s adv H. unfold match_at, patch_index_pattern. cbn [Seq].
  rewrite PairFacts.rmatch_Cat, lit_needs_lt by exact H. reflexivity.
Qed.

Lemma search_from_hit (r : regex) (p : nat) (s : string) (adv : bool)
    (m : match_obj) :
  match_at r p s adv = Some m -> search_from r p s adv = Some m.
Proof. intros H. destruct s; cbn [search_from]; now rewrite H. Qed.

Lemma search_from_skip (r : regex) (pre s : string) (p : nat) :
  starts_with_lt r -> no_lt pre = true ->
  search_from r p (pre ++ s) false
  = search_from r (p + String.length pre) s false.
Proof.
  intros Hr. revert p. induction pre as [|c pre IH]; intros p Hpre.
  - cbn. now rewrite Nat.add_0_r.
  - unfold no_lt in Hpre. cbn [list_ascii_of_string forallb] in Hpre.
    apply andb_prop in Hpre. destruct Hpre as [Hc Hpre].
    cbn [append search_from]. rewrite Hr.
    + rewrite IH by exact Hpre. cbn [String.length]. f_equal. lia.
    + intros [t E]. injection E as -> _. discriminate.
Qed.

Lemma search_from_none (r : regex) (post : string) (p : nat) :
  starts_with_lt r -> no_lt post = true ->
  search_from r p post false = None.
Proof.
  intros Hr Hpost.
  rewrite <- (StrFacts.app_nil_r post), search_from_skip by assumption.
  cbn [search_from]. rewrite Hr; [reflexivity|]. intros [t E]. discriminate.
Qed.

Lemma length_pairs_text (pairs : list (string * string)) :
  length pairs <= String.length (pairs_text pairs).
Proof.
  unfold pairs_text. induction pairs as [|de pairs IH]; [cbn; lia|].
  destruct pairs as [|de2 pairs].
  - cbn [map PyStr.join length]. unfold index_pair_text.
    rewrite !StrFacts.length_app. cbn [String.length]. clear IH. lia.
  - change (PyStr.join delimiter (map index_pair_text (de :: de2 :: pairs)))
      with (index_pair_text de ++ delimiter
            ++ PyStr.join delimiter (map index_pair_text (de2 :: pairs)))%string.
    set (J := PyStr.join delimiter (map index_pair_text (de2 :: pairs))) in *.
    rewrite !StrFacts.length_app.
    change (length (de :: de2 :: pairs)) with (S (length (de2 :: pairs))).
    assert (1 <= String.length (index_pair_text de)).
    { unfold index_pair_text. rewrite StrFacts.length_app.
      cbn [String.length]. clear. lia. }
    lia.
Qed.

(** The repetition takes every pair but the last, which it leaves to the
    pattern that follows it. *)
Lemma star_pairs (tail : string) (Kc : cont) :
  String.prefix delimiter tail = false ->
  (forall s', String.prefix delimiter (rest s') = true -> Kc s' = None) ->
  forall pairs, pairs <> [] -> all_digits pairs ->
  forall fuel s, length pairs <= fuel ->
    rest s = (pairs_text pairs ++ tail)%string ->
    star_loop (rmatch (Seq [index_pair_pattern; Lit delimiter])) true fuel s
      (fun s' => rmatch index_pair_pattern s' Kc)
    = Kc (MState (pos s + String.length (pairs_text pairs)) tail (caps s)).
Proof.
  intros Htail HKc pairs. induction pairs as [|de pairs IH];
    intros Hne Hd fuel s Hfuel E; [contradiction|].
  inversion Hd as [|? ? [Hd1 Hd2] Hd']; subst.
  destruct pairs as [|de2 pairs].
  - change (pairs_text [de]) with (index_pair_text de) in *.
    assert (Hk : rmatch index_pair_pattern s Kc
                 = Kc (MState (pos s + String.length (index_pair_text de))
                         tail (caps s)))
      by now apply PairFacts.rmatch_index_pair.
    destruct fuel as [|fuel]; [exact Hk|].
    cbn [star_loop Seq]. rewrite PairFacts.rmatch_Cat.
    rewrite (PairFacts.rmatch_index_pair de tail _ s Hd1 Hd2 E).
    rewrite ReFacts.rmatch_Lit_fail by exact Htail. exact Hk.
  - change (pairs_text (de :: de2 :: pairs))
      with (index_pair_text de ++ delimiter ++ pairs_text (de2 :: pairs))%string
      in *.
    rewrite !StrFacts.app_assoc in E.
    destruct fuel as [|fuel]; [cbn in Hfuel; lia|].
    cbn [star_loop Seq]. rewrite PairFacts.rmatch_Cat.
    rewrite (PairFacts.rmatch_index_pair de _ _ s Hd1 Hd2 E).
    rewrite (ReFacts.rmatch_Lit delimiter _ _
               (pairs_text (de2 :: pairs) ++ tail)) by reflexivity.
    cbn [pos caps].
    replace (pos s + String.length (index_pair_text de)
             + String.length delimiter <=? pos s) with false
      by (symmetry; apply Nat.leb_gt; cbn; lia).
    rewrite IH; [| discriminate | exact Hd' | cbn [length] in *; lia
                 | reflexivity].
    cbn [pos caps]. rewrite !StrFacts.length_app.
    replace (pos s + String.length (index_pair_text de)
             + String.length delimiter
             + String.length (pairs_text (de2 :: pairs)))
      with (pos s + (String.length (index_pair_text de)
                     + (String.length delimiter
                        + String.length (pairs_text (de2 :: pairs)))))
      by lia.
    destruct (Kc _) eqn:EK; [reflexivity|].
    rewrite (PairFacts.rmatch_index_pair de _ Kc s Hd1 Hd2 E).
    apply HKc. cbn [rest]. apply ReFacts.prefix_app.
Qed.

Lemma delimiter_not_object (t : string) :
  String.prefix delimiter t = true -> String.prefix "</object>" t = false.
Proof.
  intros H. apply ReFacts.prefix_inv in H. destruct H as [u ->]. reflexivity.
Qed.

(** The match of a block without a phrase. *)
Lemma match_at_bare (pairs : list (string * string)) (post : string)
    (p : nat) (adv : bool) :
  pairs <> [] -> all_digits pairs ->
  match_at entity_pattern p
    ("<object>" ++ pairs_text pairs ++ "</object>" ++ post) adv
  = Some (Match p (p + 8 + String.length (pairs_text pairs) + 9) post
            [(3, (p + 8, p + 8 + String.length (pairs_text pairs)))]).
Proof.
  intros Hne Hd. unfold match_at, entity_pattern. cbn [Seq].
  rewrite PairFacts.rmatch_Cat. unfold Opt. rewrite rmatch_Alt.
  rewrite PairFacts.rmatch_Grp, PairFacts.rmatch_Cat.
  rewrite ReFacts.rmatch_Lit_fail by reflexivity.
  change (rmatch Eps ?s0 ?k) with (k s0). cbv beta.
  rewrite PairFacts.rmatch_Cat.
  rewrite (ReFacts.rmatch_Lit "<object>" _ _
             (pairs_text pairs ++ "</object>" ++ post)) by reflexivity.
  rewrite PairFacts.rmatch_Cat, PairFacts.rmatch_Grp, PairFacts.rmatch_Cat.
  rewrite rmatch_Star.
  rewrite star_pairs
    with (pairs := pairs) (tail := ("</object>" ++ post)%string);
    cbn [rest pos caps];
    [ | reflexivity
      | intros s' Hs'; apply ReFacts.rmatch_Lit_fail;
        now apply delimiter_not_object
      | exact Hne | exact Hd
      | pose proof (length_pairs_text pairs); rewrite StrFacts.length_app; lia
      | reflexivity ].
  rewrite (ReFacts.rmatch_Lit "</object>" _ _ post) by reflexivity.
  cbn [pos rest caps String.length].
  replace (p + 8 + String.length (pairs_text pairs) + 9 =? p) with false
    by (symmetry; apply Nat.eqb_neq; lia).
  now rewrite andb_false_r.
Qed.


End BlockFacts.

(** ** The pairs of a block, split and parsed *)

Module ParseFacts.

Lemma no_lt_app (a b : string) : no_lt (a ++ b) = (no_lt a && no_lt b)%bool.
Proof.
  unfold no_lt. induction a as [|c a IH]; [reflexivity|].
  cbn [append list_ascii_of_string forallb]. now rewrite IH, andb_assoc.
Qed.

Lemma digits_no_lt (d : string) : digits d -> no_lt d = true.
Proof.
  intros [_ H]. unfold no_lt. rewrite forallb_forall in *.
  intros c Hc. apply H in Hc. now rewrite PairFacts.digit_not_lt.
Qed.

Lemma split_go_nonempty (sep : string) (k : nat) (s : string) :
  PyStr.split_go sep k s <> [].
Proof.
  revert k. induction s as [|c s IH]; intros k; cbn [PyStr.split_go];
    [discriminate|].
  destruct k; [|apply IH].
  destruct (String.prefix sep (String c s)); [discriminate|].
  destruct (PyStr.split_go sep 0 s); discriminate.
Qed.

Lemma prepend_app (a b : string) (l : list string) :
  l <> [] -> prepend a (prepend b l) = prepend (a ++ b) l.
Proof.
  destruct l as [|y l]; [contradiction|]. intros _. cbn.
  now rewrite StrFacts.app_assoc.
Qed.

Lemma prepend_nonempty (a : string) (l : list string) : prepend a l <> [].
Proof. destruct l; discriminate. Qed.

Lemma split_go_char (c : ascii) (t : string) :
  String.prefix delimiter (String c t) = false ->
  PyStr.split_go delimiter 0 (String c t)
  = prepend (String c "") (PyStr.split_go delimiter 0 t).
Proof.
  intros H. cbn [PyStr.split_go]. rewrite H.
  pose proof (split_go_nonempty delimiter 0 t) as Hne.
  destruct (PyStr.split_go delimiter 0 t); [contradiction | reflexivity].
Qed.

Lemma split_go_no_lt (x t : string) :
  no_lt x = true ->
  PyStr.split_go delimiter 0 (x ++ t)
  = prepend x (PyStr.split_go delimiter 0 t).
Proof.
  induction x as [|c x IH]; intros Hx.
  - cbn [append]. pose proof (split_go_nonempty delimiter 0 t) as Hne.
    destruct (PyStr.split_go delimiter 0 t); [contradiction | reflexivity].
  - unfold no_lt in Hx. cbn [list_ascii_of_string forallb] in Hx.
    apply andb_prop in Hx. destruct Hx as [Hc Hx].
    cbn [append]. rewrite split_go_char.
    + rewrite IH by exact Hx.
      now rewrite prepend_app by apply split_go_nonempty.
    + unfold delimiter. rewrite StrFacts.prefix_cons.
      destruct (ascii_dec "<" c) as [<-|_]; [discriminate | reflexivity].
Qed.

(** [<p...] with no other [<]: no delimiter starts in it. *)
Lemma split_go_lt_p (x t : string) :
  no_lt x = true ->
  PyStr.split_go delimiter 0 (String "<" (String "p" x) ++ t)
  = prepend (String "<" (String "p" x)) (PyStr.split_go delimiter 0 t).
Proof.
  intros Hx. cbn [append].
  rewrite split_go_char by reflexivity.
  change (String "p" (x ++ t)) with (String "p" x ++ t)%string.
  rewrite (split_go_no_lt (String "p" x) t)
    by (unfold no_lt in *; cbn [list_ascii_of_string forallb]; now rewrite Hx).
  now rewrite prepend_app by apply split_go_nonempty.
Qed.

Lemma split_go_pair (de : string * string) (t : string) :
  digits (fst de) -> digits (snd de) ->
  PyStr.split_go delimiter 0 (index_pair_text de ++ t)
  = prepend (index_pair_text de) (PyStr.split_go delimiter 0 t).
Proof.
  intros Hd He. destruct de as [d e]. cbn [fst snd] in *.
  assert (E : index_pair_text (d, e)
              = (String "<" (String "p" ("atch_index_" ++ d ++ ">"))
                 ++ String "<" (String "p" ("atch_index_" ++ e ++ ">")))%string).
  { unfold index_pair_text. cbn [fst snd append].
    do 13 f_equal. rewrite !StrFacts.app_assoc. reflexivity. }
  rewrite E, StrFacts.app_assoc.
  rewrite split_go_lt_p, split_go_lt_p.
  - now rewrite prepend_app by apply split_go_nonempty.
  - rewrite !no_lt_app, (digits_no_lt e He). reflexivity.
  - rewrite !no_lt_app, (digits_no_lt d Hd). reflexivity.
Qed.

Lemma split_go_delimiter (t : string) :
  PyStr.split_go delimiter 0 (delimiter ++ t)
  = EmptyString :: PyStr.split_go delimiter 0 t.
Proof.
  pose proof (ReFacts.prefix_app delimiter t) as H.
  change (delimiter ++ t)%string
    with (String "<" ("/delimiter_of_multi_objects/>" ++ t)) in *.
  cbn [PyStr.split_go]. rewrite H. reflexivity.
Qed.

Lemma split_pairs_text (pairs : list (string * string)) :
  pairs <> [] -> all_digits pairs ->
  PyStr.split delimiter (pairs_text pairs) = map index_pair_text pairs.
Proof.
  unfold PyStr.split. induction pairs as [|de pairs IH]; intros Hne Hd;
    [contradiction|].
  inversion Hd as [|? ? [Hd1 Hd2] Hd']; subst.
  destruct pairs as [|de2 pairs].
  - change (pairs_text [de]) with (index_pair_text de).
    rewrite <- (StrFacts.app_nil_r (index_pair_text de)) at 1.
    rewrite split_go_pair by assumption.
    cbn. now rewrite StrFacts.app_nil_r.
  - change (pairs_text (de :: de2 :: pairs))
      with (index_pair_text de ++ delimiter ++ pairs_text (de2 :: pairs))%string.
    rewrite split_go_pair by assumption.
    rewrite split_go_delimiter, IH by (discriminate || assumption).
    cbn [prepend map]. now rewrite StrFacts.app_nil_r.
Qed.

Lemma parse_index_pair (de : string * string) :
  digits (fst de) -> digits (snd de) ->
  parse_pair (index_pair_text de) = Some (pair_indices de).
Proof.
  intros Hd He. destruct de as [d e]. cbn [fst snd] in *.
  unfold parse_pair, search, pair_indices. cbn [fst snd].
  set (pair := index_pair_text (d, e)).
  assert (Hx : search_from patch_index_pattern 0 pair false
               = Some (Match 0 (13 + String.length d + 1)
                         ("<patch_index_" ++ e ++ ">")
                         [(1, (13, 13 + String.length d))])).
  { apply BlockFacts.search_from_hit. unfold match_at.
    rewrite (PairFacts.rmatch_index_group d ("<patch_index_" ++ e ++ ">")
               _ _ Hd) by reflexivity.
    cbn [pos rest caps Nat.add andb]. reflexivity. }
  assert (Hy : search_from patch_index_pattern 0 (PyStr.drop 1 pair) false
               = Some (Match (12 + String.length d + 1)
                         (12 + String.length d + 1 + 13 + String.length e + 1)
                         EmptyString
                         [(1, (12 + String.length d + 1 + 13,
                               12 + String.length d + 1 + 13
                               + String.length e))])).
  { change (PyStr.drop 1 pair)
      with ("patch_index_" ++ d ++ "><patch_index_" ++ e ++ ">")%string.
    replace ("patch_index_" ++ d ++ "><patch_index_" ++ e ++ ">")%string
      with (("patch_index_" ++ d ++ ">")
            ++ "<patch_index_" ++ e ++ ">" ++ "")%string
      by (rewrite !StrFacts.app_assoc; reflexivity).
    rewrite (BlockFacts.search_from_skip _ _ _ 0
               BlockFacts.patch_index_pattern_lt)
      by (rewrite !no_lt_app, (digits_no_lt d Hd); reflexivity).
    apply BlockFacts.search_from_hit. unfold match_at.
    rewrite (PairFacts.rmatch_index_group e "" _ _ He) by reflexivity.
    cbn [pos rest caps andb]. rewrite !StrFacts.length_app.
    cbn [String.length Nat.add]. reflexivity. }
  rewrite Hx, Hy. unfold index_of, group, span.
  cbn [lookup m_caps Nat.eqb].
  f_equal. f_equal.
  - f_equal.
    change 13 with (String.length "<patch_index_").
    apply (SplitFacts.slice_app "<patch_index_" d ("><patch_index_" ++ e ++ ">")).
  - f_equal.
    change (PyStr.drop 1 pair)
      with ("patch_index_" ++ d ++ "><patch_index_" ++ e ++ ">")%string.
    replace ("patch_index_" ++ d ++ "><patch_index_" ++ e ++ ">")%string
      with (("patch_index_" ++ d ++ "><patch_index_") ++ e ++ ">")%string
      by (rewrite !StrFacts.app_assoc; reflexivity).
    replace (12 + String.length d + 1 + 13)
      with (String.length ("patch_index_" ++ d ++ "><patch_index_"))
      by (rewrite !StrFacts.length_app; cbn [String.length]; lia).
    apply SplitFacts.slice_app.
Qed.

Lemma parse_pairs (pairs : list (string * string)) :
  all_digits pairs ->
  flat_map (fun pair => match parse_pair pair with
                        | Some b => [b]
                        | None => []
                        end) (map index_pair_text pairs)
  = map pair_indices pairs.
Proof.
  induction 1 as [|de pairs [Hd He] _ IH]; [reflexivity|].
  cbn [map flat_map]. now rewrite parse_index_pair, IH.
Qed.

End ParseFacts.

(** ** An object block without a phrase *)




(* ================================================================== *)
(** * Further properties *)

(** ** The quantizer: pairs of indices *)

Lemma returns_sound (r : result Z) (c : Z) : returns r c = true -> r = Ok c.
Proof.
  destruct r as [z|e]; cbn; [|discriminate].
  intros H. apply Z.eqb_eq in H. now subst.
Qed.

(** The round trip of a pair of indices follows from the round trip of
    its four coordinates, in any arithmetic. *)
Lemma box_round_trip_axes (A : Arith.ops) (ul_idx lr_idx g : Z) :
  g <> 0%Z ->
  axis_ok A g (ul_idx mod g) = true -> axis_ok A g (ul_idx / g) = true ->
  axis_ok A g (lr_idx mod g) = true -> axis_ok A g (lr_idx / g) = true ->
  box_round_trip A ul_idx lr_idx g = Ok (ul_idx, lr_idx).
Proof.
  intros Hg Hux Huy Hlx Hly.
  unfold axis_ok in Hux, Huy, Hlx, Hly.
  unfold box_round_trip, patch_index_to_coordinate, coordinate_to_patch_index.
  destruct (Arith.of_int A 1) as [one|] eqn:E1; [|discriminate].
  destruct (Arith.of_int A g) as [n|] eqn:En; [|discriminate].
  destruct (Arith.of_int A (ul_idx mod g)) as [ful_x|]; [|discriminate].
  destruct (Arith.of_int A (ul_idx / g)) as [ful_y|]; [|discriminate].
  destruct (Arith.of_int A (lr_idx mod g)) as [flr_x|]; [|discriminate].
  destruct (Arith.of_int A (lr_idx / g)) as [flr_y|]; [|discriminate].
  destruct (Arith.of_int A 2) as [two|] eqn:E2; [|discriminate].
  destruct (Arith.div A one n) as [cell_size|] eqn:Ec; [|discriminate].
  destruct (Arith.div A cell_size two) as [half|] eqn:Eh; [|discriminate].
  cbv zeta in Hux, Huy, Hlx, Hly.
  repeat match goal with
         | H : (_ && _)%bool = true |- _ =>
             apply andb_prop in H; destruct H
         end.
  repeat match goal with
         | H : returns _ _ = true |- _ => apply returns_sound in H
         end.
  assert (E : forall a b : Z, (a = ul_idx / g -> b = ul_idx mod g ->
                               a * g + b = ul_idx)%Z).
  { intros a b -> ->. rewrite (Z.div_mod ul_idx g Hg) at 3. ring. }
  assert (E' : forall a b : Z, (a = lr_idx / g -> b = lr_idx mod g ->
                                a * g + b = lr_idx)%Z).
  { intros a b -> ->. rewrite (Z.div_mod lr_idx g Hg) at 3. ring. }
  cbn [bind].
  destruct (ul_idx =? lr_idx)%Z;
    [|destruct (((ul_idx mod g =? lr_idx mod g)%Z
                 || (ul_idx / g =? lr_idx / g)%Z)%bool)];
    cbn [bind];
    repeat match goal with
           | H : ?x = Ok _ |- context [?x] => rewrite H; cbn [bind]
           end;
    cbn [bind];
    rewrite (E _ _ eq_refl eq_refl), (E' _ _ eq_refl eq_refl); reflexivity.
Qed.

Local Open Scope Q_scope.




Local Close Scope Q_scope.



(** The coordinates 0 .. g-1 of the grid sides 1, 2, 4, ..., 256 in
    binary64. *)
Lemma binary64_axes_checked :
  forallb (fun k =>
             forallb (fun c => axis_ok Arith.binary64 (2 ^ Z.of_nat k)
                                 (Z.of_nat c))
                     (seq 0 (2 ^ k)))
          (seq 0 9) = true.
Proof. vm_compute. reflexivity. Qed.

Lemma axis_ok_binary64 (k : nat) (c : Z) :
  k <= 8 -> (0 <= c < 2 ^ Z.of_nat k)%Z ->
  axis_ok Arith.binary64 (2 ^ Z.of_nat k) c = true.
Proof.
  intros Hk Hc.
  assert (Hpow : Z.of_nat (2 ^ k) = (2 ^ Z.of_nat k)%Z).
  { rewrite Nat2Z.inj_pow. reflexivity. }
  pose proof (forallb_seq_nth _ 9 k binary64_axes_checked ltac:(lia)) as H.
  pose proof (forallb_seq_nth _ _ (Z.to_nat c) H ltac:(lia)) as H'.
  cbv beta in H'. rewrite Z2Nat.id in H' by lia. exact H'.
Qed.

(** X2.  In binary64, on the grids of side 1, 2, 4, ..., 256 (32 is the
    default), quantizing the box of a pair of patch indices of the grid
    returns the pair, for every pair. *)
Theorem index_pair_round_trip_binary64 (k : nat) (ul_idx lr_idx : Z) :
  k <= 8 ->
  (0 <= ul_idx < 2 ^ Z.of_nat k * 2 ^ Z.of_nat k)%Z ->
  (0 <= lr_idx < 2 ^ Z.of_nat k * 2 ^ Z.of_nat k)%Z ->
  box_round_trip Arith.binary64 ul_idx lr_idx (2 ^ Z.of_nat k)
  = Ok (ul_idx, lr_idx).
Proof.
  intros Hk Hul Hlr.
  assert (Hg : (0 < 2 ^ Z.of_nat k)%Z) by (apply Z.pow_pos_nonneg; lia).
  apply box_round_trip_axes; [lia| | | |];
    apply axis_ok_binary64; try exact Hk.
  - apply Z.mod_pos_bound. exact Hg.
  - split; [apply Z.div_pos; lia | apply Z.div_lt_upper_bound; lia].
  - apply Z.mod_pos_bound. exact Hg.
  - split; [apply Z.div_pos; lia | apply Z.div_lt_upper_bound; lia].
Qed.

Lemma index_pair_round_trip_binary64_witness :
  box_round_trip Arith.binary64 37 1000 (2 ^ Z.of_nat 5) = Ok (37, 1000)%Z.
Proof.
  apply (index_pair_round_trip_binary64 5 37 1000); [lia | | ];
    vm_compute; split; congruence.
Defined.

(** ** The quantizer: boxes inside the image *)

Local Open Scope Q_scope.





Local Close Scope Q_scope.




(** ** The spans after [cleanup_spaces] *)

Module StripFacts.

Lemma lstrip_length (s : string) :
  String.length (PyStr.lstrip s) <= String.length s.
Proof.
  induction s as [|c t IH]; cbn [PyStr.lstrip]; [lia|].
  destruct (PyStr.is_space c); cbn [String.length]; lia.
Qed.

(** Leading white space ends at the first character that is none. *)
Lemma lstrip_app_solid (u : string) (c : ascii) (v : string) :
  PyStr.is_space c = false ->
  PyStr.lstrip (u ++ String c v) = (PyStr.lstrip u ++ String c v)%string.
Proof.
  intros Hc. induction u as [|x u IH].
  - cbn [append PyStr.lstrip]. rewrite Hc. reflexivity.
  - cbn [append PyStr.lstrip]. destruct (PyStr.is_space x); [exact IH|reflexivity].
Qed.

Lemma lstrip_head (s : string) :
  PyStr.lstrip s = EmptyString
  \/ exists c t, PyStr.lstrip s = String c t /\ PyStr.is_space c = false.
Proof.
  induction s as [|c t IH]; [left; reflexivity|].
  cbn [PyStr.lstrip]. destruct (PyStr.is_space c) eqn:E; [exact IH|].
  right. exists c, t. split; [reflexivity | exact E].
Qed.

(** What [lstrip] drops is a prefix. *)
Lemma lstrip_suffix (s : string) : exists sp, s = (sp ++ PyStr.lstrip s)%string.
Proof.
  induction s as [|c t [sp IH]]; [exists EmptyString; reflexivity|].
  cbn [PyStr.lstrip]. destruct (PyStr.is_space c).
  - exists (String c sp). cbn [append]. rewrite <- IH. reflexivity.
  - exists EmptyString. reflexivity.
Qed.

Lemma app_inv_empty (a b : string) : (a ++ b)%string = b -> a = EmptyString.
Proof.
  intros H. apply (f_equal String.length) in H.
  rewrite StrFacts.length_app in H. destruct a; [reflexivity|].
  cbn [String.length] in H. lia.
Qed.

(** A name that is not only white space: its white space on either side
    and what [strip] leaves. *)
Lemma strip_parts (name : string) :
  PyStr.strip name <> EmptyString ->
  exists sp c t w,
    PyStr.strip name = String c t /\ PyStr.is_space c = false
    /\ name = (sp ++ String c t ++ w)%string
    /\ PyStr.rstrip name = (sp ++ String c t)%string
    /\ PyStr.lstrip name = (String c t ++ w)%string.
Proof.
  intros Hne. unfold PyStr.strip in *.
  destruct (StrFacts.rstrip_prefix name) as [w Hw].
  destruct (lstrip_suffix (PyStr.rstrip name)) as [sp Hsp].
  destruct (lstrip_head (PyStr.rstrip name)) as [E|[c [t [E Hc]]]];
    [contradiction|].
  exists sp, c, t, w. rewrite E in *.
  assert (Hl : PyStr.lstrip sp = EmptyString).
  { pose proof (lstrip_app_solid sp c t Hc) as H.
    rewrite <- Hsp, E in H. symmetry in H. apply app_inv_empty in H. exact H. }
  repeat split; try assumption.
  - rewrite Hw at 1. rewrite Hsp. rewrite StrFacts.app_assoc. reflexivity.
  - rewrite Hw at 1. rewrite Hsp. rewrite StrFacts.app_assoc.
    cbn [append]. rewrite lstrip_app_solid by exact Hc. rewrite Hl. reflexivity.
Qed.

(** A span inside the text cuts it in three. *)
Lemma substring_parts (text : string) (a n : nat) :
  a + n <= String.length text ->
  exists x z, text = (x ++ substring a n text ++ z)%string
              /\ String.length x = a /\ String.length (substring a n text) = n.
Proof.
  revert a n. induction text as [|c t IH]; intros a n H.
  - cbn [String.length] in H. assert (a = 0) by lia. assert (n = 0) by lia.
    subst. exists EmptyString, EmptyString. repeat split.
  - destruct a as [|a].
    + destruct n as [|n].
      * exists EmptyString, (String c t). repeat split.
      * cbn [String.length] in H.
        destruct (IH 0 n ltac:(lia)) as [x [z [E [Hx Hn]]]].
        destruct x; [|discriminate]. cbn [append] in E.
        exists EmptyString, z. cbn [substring append String.length].
        rewrite <- E at 1. repeat split. now rewrite Hn.
    + cbn [String.length] in H.
      destruct (IH a n ltac:(lia)) as [x [z [E [Hx Hn]]]].
      exists (String c x), z. cbn [substring append String.length].
      rewrite <- E. repeat split; [now rewrite Hx | exact Hn].
Qed.

End StripFacts.

(** One entity of [cleanup_spaces]: the new span, on the stripped name in
    the stripped text. *)
Lemma cleanup_entity {B : Type} (text name : string) (start stop : Z)
    (bboxes : B) :
  placed text (name, (start, stop), bboxes) ->
  PyStr.strip name <> EmptyString ->
  placed (PyStr.strip text)
    (PyStr.strip name,
     ((start
       - (Z.of_nat (String.length text)
          - Z.of_nat (String.length (PyStr.lstrip text)))
       + (Z.of_nat (String.length name)
          - Z.of_nat (String.length (PyStr.lstrip name))))%Z,
      (stop
       - (Z.of_nat (String.length text)
          - Z.of_nat (String.length (PyStr.lstrip text)))
       - (Z.of_nat (String.length name)
          - Z.of_nat (String.length (PyStr.rstrip name))))%Z),
     bboxes).
Proof.
  intros Hp Hs.
  destruct Hp as [Hr [Hb Hn]].
  destruct (StripFacts.strip_parts name Hs)
    as [sp [c [t [w [Ecore [Hc [Ename [Er El]]]]]]]].
  unfold PyStr.slice in Hn.
  destruct (StripFacts.substring_parts text (Z.to_nat start)
              (Z.to_nat stop - Z.to_nat start) ltac:(lia))
    as [a [z [Et [Ha Hlen]]]].
  rewrite Hn in Et, Hlen.
  (* the text around the name's core *)
  set (u := (a ++ sp)%string).
  assert (Etext : text = (u ++ String c (t ++ w ++ z))%string).
  { rewrite Et. rewrite Ename at 1. unfold u.
    rewrite !StrFacts.app_assoc. reflexivity. }
  assert (Elt : PyStr.lstrip text
                = (PyStr.lstrip u ++ String c (t ++ w ++ z))%string).
  { rewrite Etext at 1. apply StripFacts.lstrip_app_solid. exact Hc. }
  assert (Ert : exists z', PyStr.rstrip text
                           = (u ++ String c (t ++ z'))%string).
  { assert (Hcore : PyStr.rstrip (u ++ String c t) = (u ++ String c t)%string).
    { unfold u. rewrite StrFacts.app_assoc.
      rewrite StrFacts.rstrip_app_nonempty.
      - rewrite <- Er, StrFacts.rstrip_idem. reflexivity.
      - rewrite <- Er, StrFacts.rstrip_idem, Er. destruct sp; discriminate. }
    assert (Esplit : text = ((u ++ String c t) ++ w ++ z)%string).
    { rewrite Etext. rewrite StrFacts.app_assoc. reflexivity. }
    destruct (PyStr.rstrip (w ++ z)) eqn:Ewz.
    - exists EmptyString. rewrite Esplit at 1.
      rewrite StrFacts.rstrip_app_empty by exact Ewz.
      rewrite Hcore, StrFacts.app_nil_r. reflexivity.
    - exists (String a0 s). rewrite Esplit at 1.
      rewrite StrFacts.rstrip_app_nonempty by (rewrite Ewz; discriminate).
      rewrite Ewz, StrFacts.app_assoc. reflexivity. }
  destruct Ert as [z' Ert].
  assert (Estrip : PyStr.strip text
                   = (PyStr.lstrip u ++ String c t ++ z')%string).
  { unfold PyStr.strip. rewrite Ert.
    apply StripFacts.lstrip_app_solid. exact Hc. }
  pose proof (StripFacts.lstrip_length u) as Hlu.
  assert (Lname : String.length name
                  = String.length sp + String.length (String c t)
                    + String.length w).
  { rewrite Ename at 1. rewrite !StrFacts.length_app. lia. }
  assert (Ltext : String.length text
                  = String.length u + String.length (String c t)
                    + String.length (w ++ z)).
  { rewrite Etext at 1. change (String c (t ++ w ++ z))
      with (String c t ++ w ++ z)%string.
    rewrite !StrFacts.length_app. lia. }
  assert (Llt : String.length (PyStr.lstrip text)
                = String.length (PyStr.lstrip u)
                  + String.length (String c t) + String.length (w ++ z)).
  { rewrite Elt. change (String c (t ++ w ++ z))
      with (String c t ++ w ++ z)%string.
    rewrite !StrFacts.length_app. lia. }
  assert (Lu : String.length u = Z.to_nat start + String.length sp).
  { unfold u. rewrite StrFacts.length_app. lia. }
  assert (Lln : String.length (PyStr.lstrip name)
                = String.length (String c t) + String.length w).
  { rewrite El. rewrite StrFacts.length_app. reflexivity. }
  assert (Lrn : String.length (PyStr.rstrip name)
                = String.length sp + String.length (String c t)).
  { rewrite Er. rewrite StrFacts.length_app. reflexivity. }
  unfold placed. rewrite Ecore.
  set (k := String.length (String c t)) in *.
  assert (S1 : (Z.of_nat (Z.to_nat start)
                - (Z.of_nat (String.length text)
                   - Z.of_nat (String.length (PyStr.lstrip text)))
                + (Z.of_nat (String.length name)
                   - Z.of_nat (String.length (PyStr.lstrip name))))%Z
               = Z.of_nat (String.length (PyStr.lstrip u))) by lia.
  assert (S2 : (Z.of_nat (Z.to_nat stop)
                - (Z.of_nat (String.length text)
                   - Z.of_nat (String.length (PyStr.lstrip text)))
                - (Z.of_nat (String.length name)
                   - Z.of_nat (String.length (PyStr.rstrip name))))%Z
               = Z.of_nat (String.length (PyStr.lstrip u) + k)) by lia.
  rewrite !Z2Nat.id in S1, S2 by lia. rewrite S1, S2.
  rewrite !Nat2Z.id.
  split; [lia|]. split.
  + rewrite Estrip. change (String c t ++ z')%string with (String c (t ++ z')).
    change (String c (t ++ z')) with (String c t ++ z')%string.
    rewrite !StrFacts.length_app. fold k. lia.
  + rewrite Estrip. apply SplitFacts.slice_app.
Qed.

(** X5.  [cleanup_spaces] keeps the spans on their names: when a span
    selects its entity's name in the text and the name is not only white
    space, the new span selects the stripped name in the stripped text. *)
Theorem cleanup_spaces_keeps_spans (A : Arith.ops) (text : string)
    (entities : list (coord_entity A)) :
  Forall (fun e => placed text e /\ PyStr.strip (fst (fst e)) <> EmptyString)
         entities ->
  fst (cleanup_spaces A text entities) = PyStr.strip text
  /\ Forall (placed (PyStr.strip text)) (snd (cleanup_spaces A text entities))
  /\ map (fun e => fst (fst e)) (snd (cleanup_spaces A text entities))
     = map (fun e => PyStr.strip (fst (fst e))) entities
  /\ map snd (snd (cleanup_spaces A text entities)) = map snd entities.
Proof.
  intros H. unfold cleanup_spaces. cbn [fst snd].
  split; [reflexivity|].
  induction H as [|[[name [start stop]] bboxes] l [Hp Hs] Hl IH].
  - repeat split. constructor.
  - destruct IH as [IH1 [IH2 IH3]]. cbn [map fst snd].
    split; [|split; [f_equal; exact IH2 | f_equal; exact IH3]].
    constructor; [|exact IH1].
    now apply cleanup_entity.
Qed.

Lemma cleanup_spaces_keeps_spans_witness :
  fst (cleanup_spaces Arith.exact "  a cat  " [(" cat ", (3, 8)%Z, [(0, 0, 1, 1)%Q])])
  = PyStr.strip "  a cat  "
  /\ Forall (placed (PyStr.strip "  a cat  "))
       (snd (cleanup_spaces Arith.exact "  a cat  " [(" cat ", (3, 8)%Z, [(0, 0, 1, 1)%Q])]))
  /\ map (fun e => fst (fst e))
       (snd (cleanup_spaces Arith.exact "  a cat  " [(" cat ", (3, 8)%Z, [(0, 0, 1, 1)%Q])]))
     = map (fun e => PyStr.strip (fst (fst e))) [(" cat ", (3, 8)%Z, [(0, 0, 1, 1)%Q])]
  /\ map snd
       (snd (cleanup_spaces Arith.exact "  a cat  " [(" cat ", (3, 8)%Z, [(0, 0, 1, 1)%Q])]))
     = map snd [(" cat ", (3, 8)%Z, [(0, 0, 1, 1)%Q])].
Proof.
  apply (cleanup_spaces_keeps_spans Arith.exact "  a cat  "
           [(" cat ", (3, 8)%Z, [(0, 0, 1, 1)%Q])]).
  repeat constructor; try discriminate; cbn; lia.
Defined.

(** ** The caption: [str.split] and its last piece *)

Module SepFacts.

Lemma app_inv_head (x y z : string) : (x ++ y)%string = (x ++ z)%string -> y = z.
Proof.
  induction x as [|c x IH]; cbn [append]; intros H; [exact H|].
  injection H as H. exact (IH H).
Qed.

(** Two ways to cut a string in two: the shorter head is a prefix of the
    longer one. *)
Lemma app_eq_app (x y x' y' : string) :
  (x ++ y)%string = (x' ++ y')%string ->
  String.length x <= String.length x' ->
  exists d, x' = (x ++ d)%string /\ y = (d ++ y')%string.
Proof.
  revert x'. induction x as [|c x IH]; intros x' H Hl.
  - exists x'. split; [reflexivity | exact H].
  - destruct x' as [|c' x']; [cbn [String.length] in Hl; lia|].
    cbn [append] in H. injection H as Hc H.
    cbn [String.length] in Hl.
    destruct (IH x' H ltac:(lia)) as [d [E1 E2]].
    exists d. subst. split; reflexivity.
Qed.

Lemma occurs_cons (sep : string) (c : ascii) (t : string) :
  occurs sep (String c t) ->
  String.prefix sep (String c t) = true \/ occurs sep t.
Proof.
  intros [a [b E]]. destruct a as [|x a].
  - left. cbn [append] in E. rewrite E. apply ReFacts.prefix_app.
  - right. cbn [append] in E. injection E as _ E. exists a, b. exact E.
Qed.

Lemma prefix_occurs (sep s : string) :
  String.prefix sep s = true -> occurs sep s.
Proof.
  intros H. apply ReFacts.prefix_inv in H. destruct H as [u E].
  exists EmptyString, u. exact E.
Qed.

Lemma last_app_one {X : Type} (l : list X) (b d : X) : last (l ++ [b]) d = b.
Proof.
  induction l as [|x l IH]; [reflexivity|].
  cbn [app]. destruct (l ++ [b]) eqn:E; [destruct l; discriminate|].
  cbn [last]. cbn [last] in IH. exact IH.
Qed.

Lemma prepend_snoc (x b : string) (l : list string) :
  l <> [] -> prepend x (l ++ [b]) = prepend x l ++ [b].
Proof. destruct l; [contradiction|reflexivity]. Qed.

Section Separator.
Variable sep : string.
Hypothesis sep_nonempty : sep <> EmptyString.

Lemma split_go_skip (x u : string) :
  PyStr.split_go sep (String.length x) (x ++ u) = PyStr.split_go sep 0 u.
Proof.
  induction x as [|c x IH]; [reflexivity|].
  cbn [append String.length PyStr.split_go]. exact IH.
Qed.

(** At a separator the scan starts a new piece, *)
Lemma split_go_sep (u : string) :
  PyStr.split_go sep 0 (sep ++ u)
  = EmptyString :: PyStr.split_go sep 0 u.
Proof.
  pose proof (ReFacts.prefix_app sep u) as Hp.
  destruct sep as [|c s] eqn:E; [contradiction|].
  cbn [append] in *. cbn [PyStr.split_go]. rewrite Hp.
  cbn [String.length].
  replace (S (String.length s) - 1) with (String.length s) by lia.
  rewrite <- E. f_equal. apply split_go_skip.
Qed.

(** and elsewhere the character goes to the piece under way. *)
Lemma split_go_other (c : ascii) (t : string) :
  String.prefix sep (String c t) = false ->
  PyStr.split_go sep 0 (String c t)
  = prepend (String c "") (PyStr.split_go sep 0 t).
Proof.
  intros H. cbn [PyStr.split_go]. rewrite H.
  destruct (PyStr.split_go sep 0 t); reflexivity.
Qed.

Lemma not_occurs_empty : ~ occurs sep "".
Proof.
  intros [a [b E]]. destruct a; [|discriminate].
  destruct sep; [contradiction|discriminate].
Qed.

(** A text without the separator is one piece. *)
Lemma split_whole (s : string) : ~ occurs sep s -> PyStr.split sep s = [s].
Proof.
  unfold PyStr.split. induction s as [|c t IH]; intros H; [reflexivity|].
  rewrite split_go_other.
  - rewrite IH; [reflexivity|]. intros Ho. apply H.
    now apply ReFacts.occurs_tail.
  - destruct (String.prefix sep (String c t)) eqn:E; [|reflexivity].
    exfalso. apply H. now apply prefix_occurs.
Qed.

(** Every text has a last separator, or none. *)
Lemma last_occurrence (s : string) :
  ~ occurs sep s
  \/ exists a b, s = (a ++ sep ++ b)%string /\ ~ occurs sep b.
Proof.
  induction s as [|c t IH]; [left; apply not_occurs_empty|].
  destruct IH as [Hn|[a [b [E Hb]]]].
  - destruct (String.prefix sep (String c t)) eqn:Ep.
    + right. apply ReFacts.prefix_inv in Ep. destruct Ep as [u Eu].
      exists EmptyString, u. split; [exact Eu|].
      intros [x [y Exy]]. apply Hn.
      destruct sep as [|c' s']; [contradiction|].
      cbn [append] in Eu. injection Eu as _ Et.
      exists (s' ++ x)%string, y. rewrite Et, Exy.
      rewrite StrFacts.app_assoc. reflexivity.
    + left. intros Ho. apply occurs_cons in Ho.
      destruct Ho as [Ho|Ho]; [congruence | contradiction].
  - right. exists (String c a), b. split; [|exact Hb].
    cbn [append]. rewrite E. reflexivity.
Qed.

(** The separator does not overlap itself. *)
Hypothesis sep_unbordered :
  forall x y z, x <> EmptyString ->
    (sep ++ y)%string = (x ++ sep ++ z)%string ->
    String.length sep <= String.length x.

(** The last piece is what follows the last separator. *)
Lemma split_last (b : string) :
  ~ occurs sep b ->
  forall n a, String.length a <= n ->
    exists l, l <> [] /\ PyStr.split sep (a ++ sep ++ b) = l ++ [b].
Proof.
  intros Hb. unfold PyStr.split.
  induction n as [|n IH]; intros a Hn.
  - destruct a; [|cbn [String.length] in Hn; lia].
    exists [EmptyString]. split; [discriminate|].
    cbn [append]. rewrite split_go_sep.
    fold (PyStr.split sep b). rewrite split_whole by exact Hb. reflexivity.
  - destruct (String.prefix sep (a ++ sep ++ b)) eqn:Ep.
    + apply ReFacts.prefix_inv in Ep. destruct Ep as [u Eu].
      destruct a as [|c a'] eqn:Ea.
      * cbn [append] in *. apply app_inv_head in Eu. subst u.
        exists [EmptyString]. split; [discriminate|].
        rewrite split_go_sep.
        fold (PyStr.split sep b). rewrite split_whole by exact Hb. reflexivity.
      * rewrite <- Ea in *.
        assert (Hne : a <> EmptyString) by (rewrite Ea; discriminate).
        symmetry in Eu.
        pose proof (sep_unbordered a u b Hne Eu) as Hlen.
        destruct (app_eq_app sep u a (sep ++ b) Eu Hlen) as [d [E1 E2]].
        assert (Hd : String.length d <= n).
        { rewrite E1, StrFacts.length_app in Hn.
          destruct sep; [contradiction|]. cbn [String.length] in Hn. lia. }
        destruct (IH d Hd) as [l [Hl El]].
        exists (EmptyString :: l). split; [discriminate|].
        rewrite E1, StrFacts.app_assoc, split_go_sep, El. reflexivity.
    + destruct a as [|c a'].
      * cbn [append] in Ep. rewrite ReFacts.prefix_app in Ep. discriminate.
      * cbn [append] in *. rewrite split_go_other by exact Ep.
        cbn [String.length] in Hn.
        destruct (IH a' ltac:(lia)) as [l [Hl El]].
        exists (prepend (String c "") l).
        split; [apply ParseFacts.prepend_nonempty|].
        rewrite El. now apply prepend_snoc.
Qed.

End Separator.

Lemma image_end_unbordered (x y z : string) :
  x <> EmptyString ->
  ("</image>" ++ y)%string = (x ++ "</image>" ++ z)%string ->
  String.length "</image>" <= String.length x.
Proof.
  intros Hx H.
  do 8 (destruct x as [|? x];
        [first [contradiction | cbn [append] in H; congruence]|]).
  cbn [String.length]. lia.
Qed.

End SepFacts.

(** X6.  The caption [post_process_generation] works on is what follows
    the last [</image>] of the text, and the whole text when there is
    none: the text is [p ++ caption], where [</image>] does not occur in
    [caption] and [p] is empty or ends with [</image>]. *)
Theorem post_process_generation_caption (A : Arith.ops) (text : string) :
  exists p caption,
    text = (p ++ caption)%string
    /\ (p = EmptyString \/ exists a, p = (a ++ "</image>")%string)
    /\ ~ occurs "</image>" caption
    /\ post_process_generation A text false = Ok (inl caption)
    /\ post_process_generation A text true
       = (cleaned <-
            clean_text_and_extract_entities_with_bboxes A caption 32 ;;
          Ok (inr cleaned)).
Proof.
  assert (Hne : "</image>" <> EmptyString) by discriminate.
  unfold post_process_generation.
  destruct (SepFacts.last_occurrence "</image>" Hne text)
    as [Hn|[a [b [E Hb]]]].
  - exists EmptyString, text.
    rewrite (SepFacts.split_whole "</image>" text Hn). cbn [last].
    repeat split; [left; reflexivity | exact Hn].
  - exists (a ++ "</image>")%string, b.
    destruct (SepFacts.split_last "</image>" Hne SepFacts.image_end_unbordered
                b Hb (String.length a) a (Nat.le_refl _)) as [l [Hl El]].
    rewrite E, El, SepFacts.last_app_one.
    repeat split; [now rewrite StrFacts.app_assoc | right; now exists a
                  | exact Hb].
Qed.

(** ** The removal of the special fields *)

Module FieldFacts.

Lemma special_field_lt : starts_with_lt special_field_pattern.
Proof.
  intros p s adv H. unfold match_at, special_field_pattern. cbn [Seq].
  rewrite PairFacts.rmatch_Cat.
  change (rmatch (Chr "<") ?s0 ?k) with (eat (Chr "<") s0 k).
  unfold eat. cbn [rest]. destruct s as [|c t]; [reflexivity|].
  cbn [char_ok]. destruct (Ascii.eqb "<" c) eqn:E; [|reflexivity].
  apply Ascii.eqb_eq in E. subst c. exfalso. apply H. now exists t.
Qed.

(** The lazy repetition stops at the first [>]. *)
Lemma lazy_dots (r : string) (K : cont) (x : mstate) :
  forall body fuel s,
    field_body body = true -> String.length body <= fuel ->
    rest s = (body ++ String ">" r)%string ->
    K (MState (pos s + String.length body + 1) r (caps s)) = Some x ->
    star_loop (rmatch Dot) false fuel s (fun s' => rmatch (Chr ">") s' K)
    = Some x.
Proof.
  induction body as [|c body IH]; intros fuel s Hb Hf E HK.
  - cbn [append String.length] in *. rewrite Nat.add_0_r in HK.
    assert (Hk : rmatch (Chr ">") s K = Some x).
    { change (rmatch (Chr ">") s K) with (eat (Chr ">") s K).
      unfold eat. rewrite E. cbn [char_ok]. rewrite Ascii.eqb_refl.
      rewrite <- HK. f_equal. f_equal. lia. }
    destruct fuel as [|fuel]; cbn [star_loop]; rewrite Hk; reflexivity.
  - unfold field_body in Hb. cbn [list_ascii_of_string forallb] in Hb.
    apply andb_prop in Hb. destruct Hb as [Hc Hb].
    unfold field_char in Hc. apply andb_prop in Hc. destruct Hc as [Hc1 Hc2].
    apply negb_true_iff in Hc1, Hc2.
    destruct fuel as [|fuel]; [cbn [String.length] in Hf; lia|].
    cbn [append String.length] in *.
    cbn [star_loop].
    assert (Hk : rmatch (Chr ">") s K = None).
    { change (rmatch (Chr ">") s K) with (eat (Chr ">") s K).
      unfold eat. rewrite E. cbn [char_ok].
      rewrite Ascii.eqb_sym, Hc1. reflexivity. }
    rewrite Hk.
    change (rmatch Dot s ?k) with (eat Dot s k).
    unfold eat. rewrite E. cbn [char_ok]. rewrite Hc2. cbn [negb pos].
    replace (S (pos s) <=? pos s) with false
      by (symmetry; apply Nat.leb_gt; lia).
    apply IH; [exact Hb | lia | reflexivity|].
    cbn [pos caps]. rewrite <- HK. f_equal. f_equal. lia.
Qed.

(** The match of a special field. *)
Lemma match_at_field (body r : string) (p : nat) :
  field_body body = true ->
  match_at special_field_pattern p ("<" ++ body ++ String ">" r) false
  = Some (Match p (p + 1 + String.length body + 1) r []).
Proof.
  intros Hb. unfold match_at, special_field_pattern. cbn [Seq].
  rewrite PairFacts.rmatch_Cat.
  change (rmatch (Chr "<") ?s0 ?k) with (eat (Chr "<") s0 k).
  unfold eat. cbn [rest append char_ok]. rewrite Ascii.eqb_refl.
  cbn [pos caps]. rewrite PairFacts.rmatch_Cat, BlockFacts.rmatch_Star.
  rewrite (lazy_dots r _ (MState (p + 1 + String.length body + 1) r []) body);
    [reflexivity | exact Hb
     | cbn [rest]; rewrite StrFacts.length_app; lia | reflexivity |].
  cbn [pos caps andb]. f_equal. f_equal. lia.
Qed.

(** What is left between the matches, for a text cut into plain pieces
    and special fields. *)
Lemma fields_pieces (s plain : string) :
  Fields s plain ->
  forall fuel text pre, text = (pre ++ s)%string -> String.length s < fuel ->
    sub_pieces text (String.length pre)
      (finditer_from special_field_pattern fuel (String.length pre) s false)
    = plain.
Proof.
  induction 1 as [f Hf|f body rest0 plain Hf Hb HF IH];
    intros fuel text pre Et Hfuel.
  - destruct fuel as [|fuel]; [lia|]. cbn [finditer_from].
    rewrite (BlockFacts.search_from_none _ f _ special_field_lt Hf).
    cbn [sub_pieces]. rewrite Et. apply SplitFacts.drop_app.
  - destruct fuel as [|fuel]; [lia|]. cbn [finditer_from].
    rewrite (BlockFacts.search_from_skip _ f _ _ special_field_lt Hf).
    change (">" ++ rest0)%string with (String ">" rest0).
    rewrite (BlockFacts.search_from_hit _ _ _ _ _
               (match_at_field body rest0 _ Hb)).
    cbn [m_end m_rest m_start sub_pieces].
    replace (String.length pre + String.length f + 1 + String.length body + 1
             =? String.length pre + String.length f) with false
      by (symmetry; apply Nat.eqb_neq; lia).
    set (pre' := (pre ++ f ++ "<" ++ body ++ ">")%string).
    assert (Hl : String.length pre + String.length f + 1 + String.length body + 1
                 = String.length pre').
    { unfold pre'. rewrite !StrFacts.length_app. cbn [String.length]. lia. }
    rewrite Hl, (IH fuel text pre').
    + f_equal. rewrite Et. apply SplitFacts.slice_app.
    + rewrite Et. unfold pre'. rewrite !StrFacts.app_assoc. reflexivity.
    + rewrite !StrFacts.length_app in Hfuel. cbn [String.length] in Hfuel.
      lia.
Qed.

Lemma remove_fields (s plain : string) :
  Fields s plain -> remove_special_fields s = plain.
Proof.
  intros H. unfold remove_special_fields, sub_empty, finditer.
  apply (fields_pieces s plain H _ s EmptyString); [reflexivity | lia].
Qed.

Lemma Fields_tagged (l : list (string * string)) (tail : string) :
  forallb (fun '(f, body) => no_lt f && field_body body)%bool l = true ->
  no_lt tail = true ->
  Fields (tagged l tail) (untagged l tail).
Proof.
  intros Hl Ht. induction l as [|[f body] l IH]; cbn [tagged untagged].
  - now constructor.
  - cbn [forallb] in Hl. apply andb_prop in Hl. destruct Hl as [Hfb Hl].
    apply andb_prop in Hfb. destruct Hfb as [Hf Hb].
    constructor; [exact Hf | exact Hb | exact (IH Hl)].
Qed.

End FieldFacts.

(** X7.  On a text made of plain pieces without [<] and of special fields
    [<body>] whose bodies have neither [>] nor a newline,
    [remove_special_fields] returns the plain pieces, in their order and
    whole. *)
Theorem remove_special_fields_tagged (l : list (string * string))
    (tail : string) :
  forallb (fun '(f, body) => no_lt f && field_body body)%bool l = true ->
  no_lt tail = true ->
  remove_special_fields (tagged l tail) = untagged l tail.
Proof.
  intros Hl Ht. apply FieldFacts.remove_fields.
  now apply FieldFacts.Fields_tagged.
Qed.

Lemma remove_special_fields_tagged_witness :
  remove_special_fields
    (tagged [("a > b ", "phrase"); ("cat", "/phrase"); ("", "obj<ect")] " c")
  = untagged [("a > b ", "phrase"); ("cat", "/phrase"); ("", "obj<ect")] " c".
Proof.
  apply (remove_special_fields_tagged
           [("a > b ", "phrase"); ("cat", "/phrase"); ("", "obj<ect")] " c");
    reflexivity.
Defined.

(** ** The extractor on a caption of plain text and object blocks *)

Module CaptionFacts.

Lemma entity_pattern_parts :
  entity_pattern = Cat (Opt phrase_group) object_pattern.
Proof. reflexivity. Qed.

Lemma plain_not_lt (t : string) : plain_next t -> ~ lt_next t.
Proof.
  intros (c & t' & E & Hc) [u Eu]. rewrite E in Eu.
  injection Eu as -> _. discriminate.
Qed.

Lemma lt_not_plain (t : string) : ~ plain_next (String "<" t).
Proof. intros (c & t' & E & Hc). injection E as <- _. discriminate. Qed.

(** A greedy run of characters other than [<] takes them all when what
    follows it cannot start at one of them. *)
Lemma star_plain (d r : string) (K : cont) :
  no_lt d = true -> ~ plain_next r ->
  (forall s', plain_next (rest s') -> K s' = None) ->
  forall fuel s, String.length d <= fuel -> rest s = (d ++ r)%string ->
    star_loop (rmatch (NotChr "<")) true fuel s K
    = K (MState (pos s + String.length d) r (caps s)).
Proof.
  intros Hd Hr HK. induction d as [|c d IH]; intros fuel s Hfuel E.
  - cbn [append String.length] in *.
    rewrite Nat.add_0_r, <- E, PairFacts.mstate_eta.
    destruct fuel as [|fuel]; [reflexivity|].
    cbn [star_loop rmatch]. unfold eat.
    destruct (rest s) as [|c t] eqn:Er; [reflexivity|].
    cbn [char_ok]. destruct (Ascii.eqb "<" c) eqn:Ec; [reflexivity|].
    exfalso. apply Hr. rewrite <- E. now exists c, t.
  - unfold no_lt in Hd. cbn [list_ascii_of_string forallb] in Hd.
    apply andb_prop in Hd. destruct Hd as [Hc Hd].
    apply negb_true_iff in Hc. rewrite Ascii.eqb_sym in Hc.
    destruct fuel as [|fuel]; [cbn in Hfuel; lia|].
    cbn [String.length] in Hfuel.
    cbn [star_loop rmatch]. unfold eat at 1. rewrite E.
    cbn [append char_ok pos rest caps]. rewrite Hc. cbn [negb].
    replace (S (pos s) <=? pos s) with false
      by (symmetry; apply Nat.leb_gt; lia).
    rewrite (IH Hd fuel); [| lia | reflexivity].
    cbn [pos caps String.length].
    replace (S (pos s) + String.length d) with (pos s + S (String.length d))
      by lia.
    destruct (K _) eqn:EK; [reflexivity|].
    apply HK. rewrite E. now exists c, (d ++ r)%string.
Qed.

Lemma plus_plain (ph r : string) (K : cont) (s : mstate) :
  ph <> EmptyString -> no_lt ph = true -> ~ plain_next r ->
  (forall s', plain_next (rest s') -> K s' = None) ->
  rest s = (ph ++ r)%string ->
  rmatch (Plus true (NotChr "<")) s K
  = K (MState (pos s + String.length ph) r (caps s)).
Proof.
  intros Hne Hd Hr HK E. destruct ph as [|c d]; [contradiction|].
  unfold no_lt in Hd. cbn [list_ascii_of_string forallb] in Hd.
  apply andb_prop in Hd. destruct Hd as [Hc Hd].
  apply negb_true_iff in Hc. rewrite Ascii.eqb_sym in Hc.
  unfold Plus. rewrite PairFacts.rmatch_Cat.
  change (rmatch (NotChr "<") s) with (eat (NotChr "<") s). unfold eat.
  rewrite E. cbn [append char_ok]. rewrite Hc. cbn [negb rmatch].
  rewrite (star_plain d r K Hd Hr HK); cbn [rest pos caps];
    [|rewrite StrFacts.length_app; lia | reflexivity].
  cbn [String.length]. f_equal. f_equal. lia.
Qed.

(** The object block, from any state. *)
Lemma rmatch_object (pairs : list (string * string)) (post : string)
    (s : mstate) (k : cont) :
  pairs <> [] -> all_digits pairs ->
  rest s = ("<object>" ++ pairs_text pairs ++ "</object>" ++ post)%string ->
  rmatch object_pattern s k
  = k (MState (pos s + 8 + String.length (pairs_text pairs) + 9) post
         ((3, (pos s + 8, pos s + 8 + String.length (pairs_text pairs)))
          :: caps s)).
Proof.
  intros Hne Hd E. unfold object_pattern. cbn [Seq].
  rewrite PairFacts.rmatch_Cat.
  rewrite (ReFacts.rmatch_Lit "<object>" _ _
             (pairs_text pairs ++ "</object>" ++ post) E).
  rewrite PairFacts.rmatch_Cat, PairFacts.rmatch_Grp, PairFacts.rmatch_Cat.
  rewrite BlockFacts.rmatch_Star.
  rewrite BlockFacts.star_pairs
    with (pairs := pairs) (tail := ("</object>" ++ post)%string);
    cbn [rest pos caps];
    [ | reflexivity
      | intros s' Hs'; apply ReFacts.rmatch_Lit_fail;
        now apply BlockFacts.delimiter_not_object
      | exact Hne | exact Hd
      | pose proof (BlockFacts.length_pairs_text pairs);
        rewrite StrFacts.length_app; lia
      | reflexivity ].
  rewrite (ReFacts.rmatch_Lit "</object>" _ _ post) by reflexivity.
  cbn [pos rest caps String.length]. reflexivity.
Qed.

(** The match of a block with its phrase. *)
Lemma match_at_phrase (ph : string) (pairs : list (string * string))
    (post : string) (p : nat) (adv : bool) :
  ph <> EmptyString -> no_lt ph = true ->
  pairs <> [] -> all_digits pairs ->
  match_at entity_pattern p
    ("<phrase>" ++ ph ++ "</phrase>" ++ "<object>" ++ pairs_text pairs
     ++ "</object>" ++ post) adv
  = Some (Match p
            (p + 8 + String.length ph + 9 + 8
             + String.length (pairs_text pairs) + 9)
            post
            [(3, (p + 8 + String.length ph + 9 + 8,
                  p + 8 + String.length ph + 9 + 8
                  + String.length (pairs_text pairs)));
             (1, (p, p + 8 + String.length ph + 9));
             (2, (p + 8, p + 8 + String.length ph))]).
Proof.
  intros Hne Hph Hp Hd. unfold match_at.
  rewrite entity_pattern_parts, PairFacts.rmatch_Cat.
  unfold Opt. rewrite BlockFacts.rmatch_Alt.
  unfold phrase_group. rewrite PairFacts.rmatch_Grp. cbn [Seq].
  rewrite PairFacts.rmatch_Cat.
  rewrite (ReFacts.rmatch_Lit "<phrase>" _ _
             (ph ++ "</phrase>" ++ "<object>" ++ pairs_text pairs
              ++ "</object>" ++ post)) by reflexivity.
  rewrite PairFacts.rmatch_Cat, PairFacts.rmatch_Grp.
  rewrite (plus_plain ph ("</phrase>" ++ "<object>" ++ pairs_text pairs
                          ++ "</object>" ++ post));
    [ | exact Hne | exact Hph | apply lt_not_plain
      | intros s' Hs'; apply BlockFacts.lit_needs_lt; cbn [rest];
        now apply plain_not_lt
      | reflexivity ].
  cbn [pos rest caps].
  rewrite (ReFacts.rmatch_Lit "</phrase>" _ _
             ("<object>" ++ pairs_text pairs ++ "</object>" ++ post))
    by reflexivity.
  cbn [pos rest caps].
  rewrite (rmatch_object pairs post _ _ Hp Hd) by reflexivity.
  cbn [pos rest caps String.length].
  replace (p + 8 + String.length ph + 9 + 8
           + String.length (pairs_text pairs) + 9 =? p) with false
    by (symmetry; apply Nat.eqb_neq; lia).
  rewrite andb_false_r. reflexivity.
Qed.

(** A part of a text, by what comes before and after it. *)
Lemma slice_at (text a b c : string) (i j : nat) :
  text = (a ++ b ++ c)%string ->
  i = String.length a -> j = String.length a + String.length b ->
  PyStr.slice i j text = b.
Proof. intros -> -> ->. apply SplitFacts.slice_app. Qed.

Lemma block_text_phrase (ph : string) (pairs : list (string * string))
    (rest0 : string) :
  (block_text (Some ph) pairs ++ rest0)%string
  = ("<phrase>" ++ ph ++ "</phrase>" ++ "<object>" ++ pairs_text pairs
     ++ "</object>" ++ rest0)%string.
Proof. unfold block_text. now rewrite !StrFacts.app_assoc. Qed.

Lemma block_text_bare (pairs : list (string * string)) (rest0 : string) :
  (block_text None pairs ++ rest0)%string
  = ("<object>" ++ pairs_text pairs ++ "</object>" ++ rest0)%string.
Proof. unfold block_text. now rewrite !StrFacts.app_assoc. Qed.

Lemma length_block_phrase (ph : string) (pairs : list (string * string)) :
  String.length (block_text (Some ph) pairs)
  = 8 + String.length ph + 9 + 8 + String.length (pairs_text pairs) + 9.
Proof.
  unfold block_text. rewrite !StrFacts.length_app. cbn [String.length]. lia.
Qed.

Lemma length_block_bare (pairs : list (string * string)) :
  String.length (block_text None pairs)
  = 8 + String.length (pairs_text pairs) + 9.
Proof.
  unfold block_text. rewrite !StrFacts.length_app. cbn [String.length]. lia.
Qed.

(** The entities of the match of a block with its phrase, *)
Lemma entities_of_phrase (text pre0 ph post : string)
    (pairs : list (string * string)) :
  ph <> EmptyString -> pairs <> [] -> all_digits pairs ->
  text = (pre0 ++ "<phrase>" ++ ph ++ "</phrase>" ++ "<object>"
          ++ pairs_text pairs ++ "</object>" ++ post)%string ->
  let p := String.length pre0 in
  entities_of_match text
    (Match p
       (p + 8 + String.length ph + 9 + 8 + String.length (pairs_text pairs) + 9)
       post
       [(3, (p + 8 + String.length ph + 9 + 8,
             p + 8 + String.length ph + 9 + 8
             + String.length (pairs_text pairs)));
        (1, (p, p + 8 + String.length ph + 9));
        (2, (p + 8, p + 8 + String.length ph))])
  = [(ph, (Z.of_nat (p + 8), Z.of_nat (p + 8 + String.length ph)),
      map pair_indices pairs)].
Proof.
  intros Hne Hp Hd Et p.
  unfold entities_of_match, py_span, group, span.
  cbn [lookup m_caps m_start Nat.eqb].
  rewrite (slice_at text pre0 ("<phrase>" ++ ph ++ "</phrase>")
             ("<object>" ++ pairs_text pairs ++ "</object>" ++ post));
    [ | rewrite Et, !StrFacts.app_assoc; reflexivity | reflexivity
      | rewrite !StrFacts.length_app; cbn [String.length]; fold p; lia ].
  rewrite (slice_at text (pre0 ++ "<phrase>") ph
             ("</phrase>" ++ "<object>" ++ pairs_text pairs ++ "</object>"
              ++ post));
    [ | rewrite Et, !StrFacts.app_assoc; reflexivity
      | rewrite !StrFacts.length_app; reflexivity
      | rewrite !StrFacts.length_app; reflexivity ].
  rewrite (slice_at text (pre0 ++ "<phrase>" ++ ph ++ "</phrase>" ++ "<object>")
             (pairs_text pairs) ("</object>" ++ post));
    [ | rewrite Et, !StrFacts.app_assoc; reflexivity
      | rewrite !StrFacts.length_app; cbn [String.length]; fold p; lia
      | rewrite !StrFacts.length_app; cbn [String.length]; fold p; lia ].
  cbn [truthy append String.eqb Ascii.eqb Bool.eqb negb].
  assert (Hph : negb (String.eqb ph "") = true).
  { destruct ph; [contradiction|reflexivity]. }
  rewrite Hph.
  change "</delimiter_of_multi_objects/>" with delimiter.
  rewrite ParseFacts.split_pairs_text by assumption.
  rewrite ParseFacts.parse_pairs by assumption.
  reflexivity.
Qed.

(** and of the match of a block without one. *)
Lemma entities_of_bare (text pre0 post : string)
    (pairs : list (string * string)) :
  pairs <> [] -> all_digits pairs ->
  text = (pre0 ++ "<object>" ++ pairs_text pairs ++ "</object>" ++ post)%string ->
  let p := String.length pre0 in
  entities_of_match text
    (Match p (p + 8 + String.length (pairs_text pairs) + 9) post
       [(3, (p + 8, p + 8 + String.length (pairs_text pairs)))])
  = map (fun de => (bare_name (pair_indices de),
                    (Z.of_nat p, Z.of_nat p), [pair_indices de])) pairs.
Proof.
  intros Hp Hd Et p.
  unfold entities_of_match, py_span, group, span.
  cbn [lookup m_caps m_start Nat.eqb truthy negb].
  rewrite (slice_at text (pre0 ++ "<object>") (pairs_text pairs)
             ("</object>" ++ post));
    [ | rewrite Et, !StrFacts.app_assoc; reflexivity
      | rewrite !StrFacts.length_app; reflexivity
      | rewrite !StrFacts.length_app; reflexivity ].
  change "</delimiter_of_multi_objects/>" with delimiter.
  rewrite ParseFacts.split_pairs_text by assumption.
  rewrite ParseFacts.parse_pairs by assumption.
  rewrite map_map. reflexivity.
Qed.

Lemma length_caption_block (pre : string) (phrase : option string)
    (pairs : list (string * string)) (rest0 : string) :
  String.length (pre ++ block_text phrase pairs ++ rest0)
  = String.length pre + String.length (block_text phrase pairs)
    + String.length rest0.
Proof. rewrite !StrFacts.length_app. lia. Qed.

(** The entities of a caption, block by block. *)
Lemma caption_entities (tail : string) (items : list grounded) :
  no_lt tail = true -> Forall well_formed items ->
  forall fuel text pre0,
    text = (pre0 ++ caption_text items tail)%string ->
    String.length (caption_text items tail) < fuel ->
    flat_map (entities_of_match text)
      (finditer_from entity_pattern fuel (String.length pre0)
         (caption_text items tail) false)
    = block_entities (String.length pre0) items.
Proof.
  intros Htail. induction 1 as [|[[pre phrase] pairs] l Hw Hl IH];
    intros fuel text pre0 Et Hfuel.
  - cbn [caption_text block_entities] in *.
    destruct fuel as [|fuel]; [lia|]. cbn [finditer_from].
    now rewrite (BlockFacts.search_from_none _ tail _
                   BlockFacts.entity_pattern_lt Htail).
  - destruct Hw as [Hpre [Hph [Hp Hd]]].
    cbn [caption_text block_entities] in *.
    rewrite length_caption_block in Hfuel.
    destruct fuel as [|fuel]; [lia|]. cbn [finditer_from].
    rewrite (BlockFacts.search_from_skip _ pre _ _
               BlockFacts.entity_pattern_lt Hpre).
    set (p := String.length pre0 + String.length pre).
    assert (Hp0 : p = String.length (pre0 ++ pre))
      by (unfold p; now rewrite StrFacts.length_app).
    destruct phrase as [ph|].
    + destruct Hph as [Hne Hph].
      rewrite block_text_phrase.
      rewrite (BlockFacts.search_from_hit _ _ _ _ _
                 (match_at_phrase ph pairs (caption_text l tail) p false
                    Hne Hph Hp Hd)).
      cbn [m_end m_rest m_start flat_map].
      replace (p + 8 + String.length ph + 9 + 8
               + String.length (pairs_text pairs) + 9 =? p) with false
        by (symmetry; apply Nat.eqb_neq; lia).
      rewrite Hp0.
      rewrite (entities_of_phrase text (pre0 ++ pre) ph (caption_text l tail)
                 pairs Hne Hp Hd)
        by (rewrite Et, <- block_text_phrase, !StrFacts.app_assoc;
            reflexivity).
      rewrite <- Hp0. f_equal.
      rewrite length_block_phrase.
      replace (p + 8 + String.length ph + 9 + 8
               + String.length (pairs_text pairs) + 9)
        with (String.length (pre0 ++ pre ++ block_text (Some ph) pairs))
        by (rewrite !StrFacts.length_app, length_block_phrase; unfold p; lia).
      replace (p + (8 + String.length ph + 9 + 8
                    + String.length (pairs_text pairs) + 9))
        with (String.length (pre0 ++ pre ++ block_text (Some ph) pairs))
        by (rewrite !StrFacts.length_app, length_block_phrase; unfold p; lia).
      apply IH; [rewrite Et, !StrFacts.app_assoc; reflexivity|].
      rewrite length_block_phrase in Hfuel. lia.
    + rewrite block_text_bare.
      rewrite (BlockFacts.search_from_hit _ _ _ _ _
                 (BlockFacts.match_at_bare pairs (caption_text l tail) p false
                    Hp Hd)).
      cbn [m_end m_rest m_start flat_map].
      replace (p + 8 + String.length (pairs_text pairs) + 9 =? p) with false
        by (symmetry; apply Nat.eqb_neq; lia).
      rewrite Hp0.
      rewrite (entities_of_bare text (pre0 ++ pre) (caption_text l tail)
                 pairs Hp Hd)
        by (rewrite Et, <- block_text_bare, !StrFacts.app_assoc;
            reflexivity).
      rewrite <- Hp0. f_equal.
      rewrite length_block_bare.
      replace (p + 8 + String.length (pairs_text pairs) + 9)
        with (String.length (pre0 ++ pre ++ block_text None pairs))
        by (rewrite !StrFacts.length_app, length_block_bare; unfold p; lia).
      replace (p + (8 + String.length (pairs_text pairs) + 9))
        with (String.length (pre0 ++ pre ++ block_text None pairs))
        by (rewrite !StrFacts.length_app, length_block_bare; unfold p; lia).
      apply IH; [rewrite Et, !StrFacts.app_assoc; reflexivity|].
      rewrite length_block_bare in Hfuel. lia.
Qed.

End CaptionFacts.

(** X8.  On a caption made of plain pieces without [<] and of object
    blocks, each with a phrase without [<] before it or with none,
    [extract_entities_with_patch_indices] returns the entities block by
    block: for a block with a phrase, the phrase, the span of the phrase
    in the caption and the pairs of the block as integers; for a block
    without one, an entity for each pair, at the start of the block. *)
Theorem extract_entities_of_caption (items : list grounded) (tail : string) :
  Forall well_formed items -> no_lt tail = true ->
  extract_entities_with_patch_indices (caption_text items tail)
  = block_entities 0 items.
Proof.
  intros Hw Ht. unfold extract_entities_with_patch_indices, finditer.
  apply (CaptionFacts.caption_entities tail items Ht Hw _ _ EmptyString);
    [reflexivity | lia].
Qed.

Lemma extract_entities_of_caption_witness :
  extract_entities_with_patch_indices
    (caption_text
       [("a ", Some "cat", [("0003", "0004")]);
        (" and ", Some "two dogs", [("10", "12"); ("0005", "0005")]);
        (" or ", None, [("1", "2")])]
       ".")
  = block_entities 0
      [("a ", Some "cat", [("0003", "0004")]);
       (" and ", Some "two dogs", [("10", "12"); ("0005", "0005")]);
       (" or ", None, [("1", "2")])].
Proof.
  apply (extract_entities_of_caption
           [("a ", Some "cat", [("0003", "0004")]);
            (" and ", Some "two dogs", [("10", "12"); ("0005", "0005")]);
            (" or ", None, [("1", "2")])]
           ".").
  - repeat constructor; discriminate.
  - reflexivity.
Defined.

(** ** Decoding a caption *)

Module DecodeFacts.

Lemma no_lt_nil : no_lt "" = true.
Proof. reflexivity. Qed.
















End DecodeFacts.



(** ** The patch-index tokens, written and read *)

Module TokenFacts.

Lemma uint_digits (d : Decimal.uint) :
  forallb PyStr.is_digit (list_ascii_of_string (NilEmpty.string_of_uint d))
  = true.
Proof.
  induction d; cbn [NilEmpty.string_of_uint list_ascii_of_string forallb];
    [reflexivity | rewrite IHd; reflexivity ..].
Qed.

Lemma fold_uint_pos (d : Decimal.uint) (p : positive) :
  fold_left (fun acc c => (10 * acc + Z.of_nat (nat_of_ascii c - 48))%Z)
    (list_ascii_of_string (NilEmpty.string_of_uint d)) (Z.pos p)
  = Z.pos (Pos.of_uint_acc d p).
Proof.
  revert p.
  induction d; intros p;
    cbn [NilEmpty.string_of_uint list_ascii_of_string fold_left
         Pos.of_uint_acc];
    [reflexivity
    | rewrite <- IHd; f_equal;
      simpl (Z.of_nat (nat_of_ascii _ - 48)); lia ..].
Qed.

Lemma fold_uint (d : Decimal.uint) :
  fold_left (fun acc c => (10 * acc + Z.of_nat (nat_of_ascii c - 48))%Z)
    (list_ascii_of_string (NilEmpty.string_of_uint d)) 0%Z
  = Z.of_N (Pos.of_uint d).
Proof.
  induction d;
    cbn [NilEmpty.string_of_uint list_ascii_of_string fold_left Pos.of_uint];
    [reflexivity | exact IHd | apply fold_uint_pos ..].
Qed.

Lemma str_of_int_uint (p : positive) :
  PyStr.str_of_int (Z.pos p) = NilEmpty.string_of_uint (Pos.to_uint p).
Proof.
  unfold PyStr.str_of_int. cbn [Z.to_int NilZero.string_of_int].
  unfold NilZero.string_of_uint.
  pose proof (DecimalPos.Unsigned.to_uint_nonnil p) as H.
  destruct (Pos.to_uint p); [contradiction | reflexivity ..].
Qed.

(** [str] of a natural number is a string of digits, and [int] reads the
    number back. *)
Lemma str_of_int_digits (z : Z) : (0 <= z)%Z -> digits (PyStr.str_of_int z).
Proof.
  intros Hz. destruct z as [|p|p]; [split; [discriminate|reflexivity] | | lia].
  rewrite str_of_int_uint. split; [|apply uint_digits].
  pose proof (DecimalPos.Unsigned.to_uint_nonnil p) as H.
  destruct (Pos.to_uint p); [contradiction | discriminate ..].
Qed.

Lemma int_of_str (z : Z) :
  (0 <= z)%Z -> PyStr.int_of_digits (PyStr.str_of_int z) = z.
Proof.
  intros Hz. destruct z as [|p|p]; [reflexivity | | lia].
  rewrite str_of_int_uint. unfold PyStr.int_of_digits.
  rewrite fold_uint, DecimalPos.Unsigned.of_to. reflexivity.
Qed.

Lemma list_ascii_app (a b : string) :
  list_ascii_of_string (a ++ b)
  = list_ascii_of_string a ++ list_ascii_of_string b.
Proof.
  induction a as [|c a IH]; [reflexivity|].
  cbn [append list_ascii_of_string app]. now rewrite IH.
Qed.

Lemma zeros_digits (n : nat) :
  forallb PyStr.is_digit (list_ascii_of_string (PyStr.replicate n "0")) = true.
Proof. induction n as [|n IH]; [reflexivity|]. cbn. exact IH. Qed.

Lemma int_of_zeros (n : nat) (s : string) :
  PyStr.int_of_digits (PyStr.replicate n "0" ++ s) = PyStr.int_of_digits s.
Proof.
  unfold PyStr.int_of_digits. induction n as [|n IH]; [reflexivity|].
  cbn [PyStr.replicate append list_ascii_of_string fold_left]. exact IH.
Qed.

(** Zeros before a string of digits keep it a string of digits, of the
    same number. *)
Lemma zfill_digits (w : nat) (s : string) :
  digits s ->
  digits (PyStr.zfill w s)
  /\ PyStr.int_of_digits (PyStr.zfill w s) = PyStr.int_of_digits s.
Proof.
  intros [Hne Hd]. unfold PyStr.zfill.
  destruct (w <=? String.length s); [repeat split; assumption|].
  destruct s as [|c t]; [contradiction|].
  assert (Hc : (Ascii.eqb c "+" || Ascii.eqb c "-")%bool = false).
  { cbn [list_ascii_of_string forallb] in Hd.
    apply andb_prop in Hd. destruct Hd as [Hc _].
    destruct (Ascii.eqb c "+") eqn:E1;
      [apply Ascii.eqb_eq in E1; subst c; discriminate|].
    destruct (Ascii.eqb c "-") eqn:E2;
      [apply Ascii.eqb_eq in E2; subst c; discriminate|].
    reflexivity. }
  rewrite Hc. split; [split|].
  - destruct (PyStr.replicate _ _); discriminate.
  - rewrite list_ascii_app, forallb_app, zeros_digits, Hd. reflexivity.
  - apply int_of_zeros.
Qed.

Lemma token_digits (idx : Z) :
  (0 <= idx)%Z ->
  digits (PyStr.zfill 4 (PyStr.str_of_int idx))
  /\ PyStr.int_of_digits (PyStr.zfill 4 (PyStr.str_of_int idx)) = idx.
Proof.
  intros H. destruct (zfill_digits 4 _ (str_of_int_digits idx H)) as [Hd Hi].
  split; [exact Hd|]. rewrite Hi. now apply int_of_str.
Qed.

Lemma token_pair_text (idx_1 idx_2 : Z) :
  (patch_index_token idx_1 ++ patch_index_token idx_2)%string
  = index_pair_text (PyStr.zfill 4 (PyStr.str_of_int idx_1),
                     PyStr.zfill 4 (PyStr.str_of_int idx_2)).
Proof.
  unfold patch_index_token, index_pair_text. cbn [fst snd].
  now rewrite !StrFacts.app_assoc.
Qed.

End TokenFacts.

(** X10.  The two tokens [_convert_bbox_to_patch_index_tokens] writes for
    a pair of indices, none of them negative, are read back as that pair
    by the loop of [extract_entities_with_patch_indices]: the zeros that
    [zfill] puts before an index do not change it. *)
Theorem patch_index_tokens_read_back (A : Arith.ops) (tk : tokenizer)
    (idx_1 idx_2 : Z) :
  (0 <= idx_1)%Z -> (0 <= idx_2)%Z ->
  exists token_1 token_2,
    _convert_bbox_to_patch_index_tokens A tk (Patch idx_1 idx_2)
    = Ok (token_1, token_2)
    /\ parse_pair (token_1 ++ token_2) = Some (idx_1, idx_2).
Proof.
  intros H1 H2.
  exists (patch_index_token idx_1), (patch_index_token idx_2).
  split; [reflexivity|].
  destruct (TokenFacts.token_digits idx_1 H1) as [Hd1 Hi1].
  destruct (TokenFacts.token_digits idx_2 H2) as [Hd2 Hi2].
  rewrite TokenFacts.token_pair_text.
  rewrite ParseFacts.parse_index_pair by assumption.
  unfold pair_indices. cbn [fst snd]. now rewrite Hi1, Hi2.
Qed.

Lemma patch_index_tokens_read_back_witness :
  exists token_1 token_2,
    _convert_bbox_to_patch_index_tokens Arith.exact kosmos2_tokenizer
      (Patch 7 12345)
    = Ok (token_1, token_2)
    /\ parse_pair (token_1 ++ token_2) = Some (7, 12345)%Z.
Proof.
  apply (patch_index_tokens_read_back Arith.exact kosmos2_tokenizer 7 12345);
    lia.
Defined.

(** ** The inserter: what it adds and what it keeps *)

Module TrackFacts.

Lemma tracks_here (s : mstate) (k : cont) (x : mstate) :
  k s = Some x ->
  exists s' w, k s' = Some x
    /\ rest s = (w ++ rest s')%string
    /\ pos s' = pos s + String.length w.
Proof.
  intros H. exists s, EmptyString. cbn [append String.length].
  repeat split; [exact H | lia].
Qed.

Lemma tracks_trans (s s1 s2 : mstate) (w1 w2 : string) :
  rest s = (w1 ++ rest s1)%string -> pos s1 = pos s + String.length w1 ->
  rest s1 = (w2 ++ rest s2)%string -> pos s2 = pos s1 + String.length w2 ->
  rest s = ((w1 ++ w2) ++ rest s2)%string
  /\ pos s2 = pos s + String.length (w1 ++ w2).
Proof.
  intros E1 P1 E2 P2. split.
  - rewrite E1, E2, StrFacts.app_assoc. reflexivity.
  - rewrite StrFacts.length_app. lia.
Qed.

Lemma eat_tracks (r : regex) : tracks (eat r).
Proof.
  intros s k x. unfold eat.
  destruct (rest s) as [|c t] eqn:E; [discriminate|].
  destruct (char_ok r c); [|discriminate].
  intros H. eexists. exists (String c ""). split; [exact H|].
  cbn [rest pos append String.length]. split; [reflexivity | lia].
Qed.

Lemma star_loop_tracks (step : mstate -> cont -> option mstate)
    (greedy : bool) (fuel : nat) :
  tracks step -> tracks (star_loop step greedy fuel).
Proof.
  intros Hstep. induction fuel as [|fuel IH]; intros s k x.
  - cbn. apply tracks_here.
  - cbn [star_loop].
    set (again := step s _).
    assert (Hagain : again = Some x ->
              exists s' w, k s' = Some x
                /\ rest s = (w ++ rest s')%string
                /\ pos s' = pos s + String.length w).
    { subst again. intros H. apply Hstep in H.
      destruct H as (s1 & w1 & H1 & E1 & P1).
      destruct (pos s1 <=? pos s); [discriminate|].
      apply IH in H1. destruct H1 as (s2 & w2 & H2 & E2 & P2).
      exists s2, (w1 ++ w2)%string. split; [exact H2|].
      eapply tracks_trans; eassumption. }
    destruct greedy.
    + destruct again as [y|]; [|apply tracks_here].
      intros H. apply Hagain. exact H.
    + destruct (k s) as [y|] eqn:Ek; [|exact Hagain].
      intros H. apply tracks_here. now rewrite Ek.
Qed.

Lemma rmatch_tracks (r : regex) : tracks (rmatch r).
Proof.
  induction r as [| c | | c | | a IHa b IHb | a IHa b IHb | g a IHa | n a IHa];
    try exact (eat_tracks _).
  - intros s k x H. now apply tracks_here.
  - intros s k x H. cbn [rmatch] in H.
    apply IHa in H. destruct H as (s1 & w1 & H1 & E1 & P1).
    apply IHb in H1. destruct H1 as (s2 & w2 & H2 & E2 & P2).
    exists s2, (w1 ++ w2)%string. split; [exact H2|].
    eapply tracks_trans; eassumption.
  - intros s k x H. cbn [rmatch] in H.
    destruct (rmatch a s k) as [y|] eqn:E.
    + rewrite <- H in *. now apply IHa.
    + now apply IHb.
  - intros s k x H. cbn [rmatch] in H.
    now apply (star_loop_tracks _ _ _ IHa) in H.
  - intros s k x H. cbn [rmatch] in H.
    apply IHa in H. destruct H as (s1 & w1 & H1 & E1 & P1).
    eexists. exists w1. split; [exact H1|]. cbn [rest pos]. now split.
Qed.

(** A match of a pattern that ends with a literal: the text it takes
    ends with the literal. *)
Lemma match_at_ends (a b : regex) (t : string) (p : nat) (s : string)
    (adv : bool) (m : match_obj) :
  match_at (Cat a (Cat b (Lit t))) p s adv = Some m ->
  exists w, s = ((w ++ t) ++ m_rest m)%string
    /\ m_start m = p /\ m_end m = p + String.length (w ++ t).
Proof.
  unfold match_at.
  destruct (rmatch _ _ _) as [e|] eqn:E; [|discriminate].
  intros H. injection H as <-. cbn [m_rest m_start m_end].
  cbn [rmatch] in E.
  apply rmatch_tracks in E. destruct E as (s1 & w1 & H1 & E1 & P1).
  apply rmatch_tracks in H1. destruct H1 as (s2 & w2 & H2 & E2 & P2).
  destruct (ReFacts.rmatch_Lit_inv _ _ _ _ H2) as [u Eu].
  rewrite (ReFacts.rmatch_Lit t s2 _ u Eu) in H2.
  destruct (_ && _)%bool; [discriminate|]. injection H2 as <-.
  cbn [rest pos] in *.
  exists (w1 ++ w2)%string. split; [|split; [reflexivity|]].
  - rewrite E1, E2, Eu, !StrFacts.app_assoc. reflexivity.
  - rewrite !StrFacts.length_app. lia.
Qed.

(** The leftmost match, and what the search skips before it. *)
Lemma search_from_ends (a b : regex) (t : string) (s : string) :
  forall p adv m,
    search_from (Cat a (Cat b (Lit t))) p s adv = Some m ->
    exists skip w, s = (skip ++ (w ++ t) ++ m_rest m)%string
      /\ m_end m = p + String.length (skip ++ w ++ t).
Proof.
  induction s as [|c s IH]; intros p adv m H; cbn [search_from] in H.
  - destruct (match_at _ p "" adv) as [m'|] eqn:E; [|discriminate].
    injection H as ->. apply match_at_ends in E.
    destruct E as (w & E & _ & Pe). exists EmptyString, w.
    split; [exact E | exact Pe].
  - destruct (match_at _ p (String c s) adv) as [m'|] eqn:E.
    + injection H as ->. apply match_at_ends in E.
      destruct E as (w & E & _ & Pe). exists EmptyString, w.
      split; [exact E | exact Pe].
    + apply IH in H. destruct H as (skip & w & E' & Pe).
      exists (String c skip), w. cbn [append String.length].
      split; [now rewrite E' | lia].
Qed.

Lemma concat_app (l1 l2 : list string) :
  String.concat "" (l1 ++ l2)
  = (String.concat "" l1 ++ String.concat "" l2)%string.
Proof.
  induction l1 as [|x l1 IH]; [reflexivity|].
  cbn [app]. destruct l1 as [|y l1].
  - cbn [app String.concat]. destruct l2 as [|z l2].
    + now rewrite StrFacts.app_nil_r.
    + reflexivity.
  - change (String.concat "" (x :: (y :: l1) ++ l2))
      with (x ++ String.concat "" ((y :: l1) ++ l2))%string.
    rewrite IH. change (String.concat "" (x :: y :: l1))
      with (x ++ String.concat "" (y :: l1))%string.
    now rewrite StrFacts.app_assoc.
Qed.

Lemma concat_cons (x : string) (l : list string) :
  String.concat "" (x :: l) = (x ++ String.concat "" l)%string.
Proof. exact (concat_app [x] l). Qed.

Section Loop.
Variable A : Arith.ops.
Variable tk : tokenizer.
Variable text : string.

(** The loop of the inserter over the matches of the phrases and the
    boxes: the pieces of the text it copies, each up to the end of a
    phrase, with the block of each after it. *)
Lemma insert_loop_pieces (fuel : nat) :
  forall pre s adv bboxes blocks,
    text = (pre ++ s)%string ->
    Forall2 (fun bbox block => object_block A tk bbox = Ok block)
            bboxes blocks ->
    length (finditer_from phrase_pattern fuel (String.length pre) s adv)
    = length bboxes ->
    exists pieces tail,
      s = (String.concat "" pieces ++ tail)%string
      /\ length pieces = length bboxes
      /\ Forall ends_phrase pieces
      /\ insert_loop A tk text (String.length pre)
           (combine (finditer_from phrase_pattern fuel (String.length pre)
                       s adv) bboxes)
         = Ok (interleave pieces blocks,
               String.length pre + String.length (String.concat "" pieces)).
Proof.
  induction fuel as [|fuel IH]; intros pre s adv bboxes blocks Et Hb Hl.
  - cbn [finditer_from length] in *. destruct bboxes; [|discriminate].
    exists [], s. cbn. repeat split; [constructor | f_equal; f_equal; lia].
  - cbn [finditer_from] in *.
    destruct (search_from phrase_pattern (String.length pre) s adv)
      as [m|] eqn:Es.
    + destruct Hb as [|bbox block bboxes blocks Hblock Hb];
        [discriminate|].
      cbn [length] in Hl. injection Hl as Hl.
      apply search_from_ends in Es. destruct Es as (skip & w & Es & Pe).
      set (piece := (skip ++ w ++ "</phrase>")%string) in *.
      assert (Es' : s = (piece ++ m_rest m)%string).
      { rewrite Es at 1. unfold piece. now rewrite !StrFacts.app_assoc. }
      assert (Hend : m_end m = String.length (pre ++ piece)).
      { rewrite Pe, StrFacts.length_app. reflexivity. }
      rewrite Hend in *.
      destruct (IH (pre ++ piece)%string (m_rest m)
                  (String.length (pre ++ piece) =? m_start m) bboxes blocks)
        as (pieces & tail & E1 & E2 & E3 & E4);
        [rewrite Et, Es', StrFacts.app_assoc; reflexivity
        | exact Hb | exact Hl |].
      exists (piece :: pieces), tail.
      rewrite concat_cons. split; [|split; [|split]].
      * rewrite Es' at 1. rewrite E1, StrFacts.app_assoc. reflexivity.
      * cbn [length]. now rewrite E2.
      * constructor; [|exact E3]. exists (skip ++ w)%string. unfold piece.
        now rewrite StrFacts.app_assoc.
      * cbn [combine insert_loop]. rewrite Hend, Hblock. cbn [bind].
        rewrite E4. cbn [bind interleave].
        rewrite (CaptionFacts.slice_at text pre piece (m_rest m));
          [ | rewrite Et, Es'; reflexivity | reflexivity
            | now rewrite StrFacts.length_app ].
        f_equal. f_equal. rewrite !StrFacts.length_app. lia.
    + cbn [length] in Hl. destruct bboxes; [|discriminate].
      exists [], s. cbn. repeat split; [constructor | f_equal; f_equal; lia].
Qed.

End Loop.

Lemma interleave_empty (pieces : list string) (n : nat) :
  length pieces = n -> interleave pieces (repeat [] n) = pieces.
Proof.
  revert n. induction pieces as [|p pieces IH]; intros n H.
  - now destruct n.
  - destruct n as [|n]; [discriminate|]. cbn [length] in H. injection H as H.
    cbn [repeat interleave app]. now rewrite IH.
Qed.

End TrackFacts.

(** X11.  When there are as many boxes as phrases and the block of each
    can be made, [_insert_patch_index_tokens] returns the text with each
    block put right after the [</phrase>] that ends its phrase, and
    nothing else changed: the text is a sequence of pieces, each ending
    with [</phrase>], and a remainder, and the result is each piece
    followed by its block, and the remainder. *)
Theorem insert_blocks_after_phrases (A : Arith.ops) (tk : tokenizer)
    (text : string) (bboxes : list (bbox_group (Arith.num A)))
    (blocks : list (list string)) :
  bboxes <> [] ->
  length (finditer phrase_pattern text) = length bboxes ->
  Forall2 (fun bbox block => object_block A tk bbox = Ok block)
          bboxes blocks ->
  exists pieces tail,
    text = (String.concat "" pieces ++ tail)%string
    /\ length pieces = length bboxes
    /\ Forall ends_phrase pieces
    /\ _insert_patch_index_tokens A tk text (Some bboxes)
       = Ok (String.concat "" (interleave pieces blocks) ++ tail)%string.
Proof.
  intros Hne Hl Hb. unfold _insert_patch_index_tokens.
  destruct bboxes as [|b0 bs] eqn:Eb; [contradiction|]. rewrite <- Eb in *.
  rewrite Hl, Nat.eqb_refl. cbn [negb].
  unfold finditer in *.
  destruct (TrackFacts.insert_loop_pieces A tk text _ EmptyString text false
              bboxes blocks eq_refl Hb Hl)
    as (pieces & tail & E1 & E2 & E3 & E4).
  cbn [String.length] in E4. rewrite E4. cbn [bind Nat.add].
  exists pieces, tail. repeat split; try assumption.
  f_equal.
  assert (Hd : PyStr.drop (String.length (String.concat "" pieces)) text
               = tail).
  { rewrite E1. apply SplitFacts.drop_app. }
  destruct (String.length (String.concat "" pieces) <? String.length text)
    eqn:Elt.
  - rewrite TrackFacts.concat_app, Hd. cbn [String.concat]. reflexivity.
  - apply Nat.ltb_ge in Elt. rewrite E1, StrFacts.length_app in Elt.
    destruct tail; [now rewrite StrFacts.app_nil_r|].
    cbn [String.length] in Elt. lia.
Qed.

Lemma insert_blocks_after_phrases_witness :
  exists pieces tail,
    "a <phrase>cat</phrase> and <phrase>dog</phrase>."
    = (String.concat "" pieces ++ tail)%string
    /\ length pieces
       = length [OneBox (Patch 3 4); @NoBox (Arith.num Arith.exact)]
    /\ Forall ends_phrase pieces
    /\ _insert_patch_index_tokens Arith.exact kosmos2_tokenizer
         "a <phrase>cat</phrase> and <phrase>dog</phrase>."
         (Some [OneBox (Patch 3 4); NoBox])
       = Ok (String.concat ""
               (interleave pieces
                  [["<object> <patch_index_0003> <patch_index_0004> </object>"];
                   []])
             ++ tail)%string.
Proof.
  apply (insert_blocks_after_phrases Arith.exact kosmos2_tokenizer
           "a <phrase>cat</phrase> and <phrase>dog</phrase>."
           [OneBox (Patch 3 4); NoBox]
           [["<object> <patch_index_0003> <patch_index_0004> </object>"];
            []]).
  - discriminate.
  - reflexivity.
  - repeat constructor.
Defined.

(** X12.  When there are as many boxes as phrases and every one of them
    is [None] or the empty list, [_insert_patch_index_tokens] returns the
    text unchanged. *)
Theorem insert_without_boxes (A : Arith.ops) (tk : tokenizer)
    (text : string) (bboxes : list (bbox_group (Arith.num A))) :
  length (finditer phrase_pattern text) = length bboxes ->
  Forall (fun bbox => bbox = NoBox \/ bbox = Boxes []) bboxes ->
  _insert_patch_index_tokens A tk text (Some bboxes) = Ok text.
Proof.
  intros Hl Hn. unfold _insert_patch_index_tokens.
  destruct bboxes as [|b0 bs] eqn:Eb; [reflexivity|]. rewrite <- Eb in *.
  rewrite Hl, Nat.eqb_refl. cbn [negb].
  assert (Hb : Forall2 (fun bbox block => object_block A tk bbox = Ok block)
                 bboxes (repeat [] (length bboxes))).
  { clear -Hn. induction Hn as [|bbox l [->| ->] Hn IH];
      cbn [length repeat]; constructor; try exact IH; reflexivity. }
  unfold finditer in *.
  destruct (TrackFacts.insert_loop_pieces A tk text _ EmptyString text false
              bboxes _ eq_refl Hb Hl)
    as (pieces & tail & E1 & E2 & E3 & E4).
  cbn [String.length] in E4. rewrite E4. cbn [bind Nat.add].
  rewrite TrackFacts.interleave_empty by exact E2.
  f_equal.
  assert (Hd : PyStr.drop (String.length (String.concat "" pieces)) text
               = tail).
  { rewrite E1. apply SplitFacts.drop_app. }
  destruct (String.length (String.concat "" pieces) <? String.length text)
    eqn:Elt.
  - rewrite TrackFacts.concat_app, Hd. cbn [String.concat]. now rewrite E1.
  - apply Nat.ltb_ge in Elt. rewrite E1, StrFacts.length_app in Elt.
    destruct tail; [now rewrite StrFacts.app_nil_r in E1|].
    cbn [String.length] in Elt. lia.
Qed.

Lemma insert_without_boxes_witness :
  _insert_patch_index_tokens Arith.exact kosmos2_tokenizer
    "a <phrase>cat</phrase> and <phrase>dog</phrase>."
    (Some [NoBox; Boxes []])
  = Ok "a <phrase>cat</phrase> and <phrase>dog</phrase>.".
Proof.
  apply (insert_without_boxes Arith.exact kosmos2_tokenizer
           "a <phrase>cat</phrase> and <phrase>dog</phrase>."
           [NoBox; Boxes []]).
  - reflexivity.
  - constructor; [left; reflexivity|].
    constructor; [right; reflexivity | constructor].
Defined.

(** ** The padding of a batch *)

Module PadFacts.

(** Pairs whose first components go up one by one are sorted already. *)
Lemma sorted_enumerated (lens : list nat) :
  forall a, sorted (combine (seq a (length lens)) lens)
            = combine (seq a (length lens)) lens.
Proof.
  induction lens as [|n lens IH]; intros a; [reflexivity|].
  cbn [length seq combine]. unfold sorted in *. cbn [fold_right].
  rewrite IH. destruct lens as [|n' lens]; [reflexivity|].
  cbn [length seq combine insert_sorted]. unfold pair_leb. cbn [fst snd].
  replace (a <? S a) with true by (symmetry; apply Nat.ltb_lt; lia).
  reflexivity.
Qed.

Lemma sorted_enumerate_lengths (rows : list (list Z)) :
  sorted (enumerate_lengths rows) = enumerate_lengths rows.
Proof.
  unfold enumerate_lengths.
  rewrite <- (length_map (@length Z) rows).
  apply sorted_enumerated.
Qed.

Lemma last_enumerated (lens : list nat) (n : nat) :
  forall a d, fst (last (combine (seq a (length (n :: lens))) (n :: lens)) d)
              = a + length lens.
Proof.
  revert n. induction lens as [|n' lens IH]; intros n a d.
  - cbn. lia.
  - change (combine (seq a (length (n :: n' :: lens))) (n :: n' :: lens))
      with ((a, n) :: combine (seq (S a) (length (n' :: lens))) (n' :: lens)).
    change (last ((a, n) :: ?l) d) with (last l d) at 1.
    cbn [last].
    destruct (combine (seq (S a) (length (n' :: lens))) (n' :: lens)) eqn:E;
      [discriminate|].
    rewrite <- E, IH. cbn [length]. lia.
Qed.

Lemma length_pad_row (side : string) (filler : Z) (m : nat) (x : list Z) :
  side = "right" \/ side = "left" -> length x <= m ->
  length (pad_row side filler m x) = m.
Proof.
  intros [-> | ->] H; unfold pad_row; cbn [String.eqb Ascii.eqb Bool.eqb];
    rewrite length_app, repeat_length; lia.
Qed.

End PadFacts.

(** X13.  The batch is compared and encoded again by position, not by
    length: [sorted] orders the pairs [(idx, len(x))] by their index, so
    [min_len_not_padded] is the length of the first row and the text that
    is encoded with padding is the last one.  The rows are padded exactly
    when the first row's length differs from the length of the last
    text's padded row, whatever the lengths of the other rows. *)
Theorem pad_batch_by_position (padding_side : string) (pad_token_id : Z)
    (encode_padded : string -> list Z) (text : list string)
    (text_input_ids input_ids image_features_mask : list (list Z))
    (attention_mask : option (list (list Z))) :
  pad_batch padding_side pad_token_id encode_padded text text_input_ids
    input_ids image_features_mask attention_mask
  = match text_input_ids with
    | [] => None
    | first :: _ =>
        match nth_error text (length text_input_ids - 1) with
        | None => None
        | Some last_text =>
            let max_len_padded := length (encode_padded last_text) in
            if length first =? max_len_padded
            then Some (input_ids, image_features_mask, attention_mask)
            else Some (map (pad_row padding_side pad_token_id max_len_padded)
                           input_ids,
                       map (pad_row padding_side 0%Z max_len_padded)
                           image_features_mask,
                       option_map
                         (map (pad_row padding_side 0%Z max_len_padded))
                         attention_mask)
        end
    end.
Proof.
  unfold pad_batch. rewrite PadFacts.sorted_enumerate_lengths.
  destruct text_input_ids as [|first rows]; [reflexivity|].
  unfold enumerate_lengths.
  change (combine (seq 0 (length (first :: rows)))
            (map (@length Z) (first :: rows)))
    with ((0, length first)
          :: combine (seq 1 (length rows)) (map (@length Z) rows)).
  cbv iota beta.
  set (l := (0, length first)
            :: combine (seq 1 (length rows)) (map (@length Z) rows)).
  assert (Hidx : fst (last l (0, 0)) = length (first :: rows) - 1).
  { unfold l.
    pose proof (PadFacts.last_enumerated (map (@length Z) rows)
                  (length first) 0 (0, 0)) as H.
    cbn [length seq combine] in H. rewrite length_map in H.
    cbn [length]. rewrite H. lia. }
  destruct (last l (0, 0)) as [idx n]. cbn [fst] in Hidx. subst idx.
  destruct (nth_error text (length (first :: rows) - 1)); [|reflexivity].
  cbv zeta. destruct (length first =? length (encode_padded s)); reflexivity.
Qed.

(** X14.  When the batch is padded (the first row is not as long as the
    last text's padded row), on the right or on the left, and no row is
    longer than that padded row, every row of [input_ids] and of
    [image_features_mask] comes out with the padded length: the batch is
    rectangular, and the two stay aligned. *)
Theorem pad_batch_rectangular (padding_side : string) (pad_token_id : Z)
    (encode_padded : string -> list Z) (text : list string)
    (first : list Z) (rows input_ids image_features_mask : list (list Z))
    (attention_mask : option (list (list Z))) (last_text : string) :
  padding_side = "right" \/ padding_side = "left" ->
  nth_error text (length rows) = Some last_text ->
  length first <> length (encode_padded last_text) ->
  Forall (fun x => length x <= length (encode_padded last_text)) input_ids ->
  Forall (fun x => length x <= length (encode_padded last_text))
         image_features_mask ->
  exists ids masks attention,
    pad_batch padding_side pad_token_id encode_padded text (first :: rows)
      input_ids image_features_mask attention_mask
    = Some (ids, masks, attention)
    /\ length ids = length input_ids
    /\ length masks = length image_features_mask
    /\ Forall (fun x => length x = length (encode_padded last_text)) ids
    /\ Forall (fun x => length x = length (encode_padded last_text)) masks.
Proof.
  intros Hside Hlast Hne Hids Hmasks.
  assert (Hsorted := PadFacts.sorted_enumerate_lengths (first :: rows)).
  unfold pad_batch. rewrite Hsorted. clear Hsorted.
  unfold enumerate_lengths.
  change (combine (seq 0 (length (first :: rows)))
            (map (@length Z) (first :: rows)))
    with ((0, length first)
          :: combine (seq 1 (length rows)) (map (@length Z) rows)).
  cbv iota beta.
  set (l := (0, length first)
            :: combine (seq 1 (length rows)) (map (@length Z) rows)).
  assert (Hidx : fst (last l (0, 0)) = length rows).
  { unfold l.
    pose proof (PadFacts.last_enumerated (map (@length Z) rows)
                  (length first) 0 (0, 0)) as H.
    cbn [length seq combine] in H. rewrite length_map in H. exact H. }
  destruct (last l (0, 0)) as [idx n]. cbn [fst] in Hidx. subst idx.
  rewrite Hlast. cbv zeta.
  replace (length first =? length (encode_padded last_text)) with false
    by (symmetry; now apply Nat.eqb_neq).
  cbn [negb]. eexists; eexists; eexists. split; [reflexivity|].
  rewrite !length_map. repeat split.
  - apply Forall_map. eapply Forall_impl; [|exact Hids].
    intros x Hx. now apply PadFacts.length_pad_row.
  - apply Forall_map. eapply Forall_impl; [|exact Hmasks].
    intros x Hx. now apply PadFacts.length_pad_row.
Qed.

Lemma pad_batch_rectangular_witness :
  exists ids masks attention,
    pad_batch "right" 1 (fun _ => [0; 5; 6; 7; 2]%Z) ["a"; "b c"]
      ([0; 5; 2]%Z :: [[0; 5; 6; 2]%Z])
      [[0; 5; 2]; [0; 5; 6; 2]]%Z [[0; 0; 0]; [0; 0; 0; 0]]%Z None
    = Some (ids, masks, attention)
    /\ length ids = length [[0; 5; 2]; [0; 5; 6; 2]]%Z
    /\ length masks = length [[0; 0; 0]; [0; 0; 0; 0]]%Z
    /\ Forall (fun x => length x = length [0; 5; 6; 7; 2]%Z) ids
    /\ Forall (fun x => length x = length [0; 5; 6; 7; 2]%Z) masks.
Proof.
  apply (pad_batch_rectangular "right" 1 (fun _ => [0; 5; 6; 7; 2]%Z)
           ["a"; "b c"] [0; 5; 2]%Z [[0; 5; 6; 2]%Z]
           [[0; 5; 2]; [0; 5; 6; 2]]%Z [[0; 0; 0]; [0; 0; 0; 0]]%Z None "b c").
  - left. reflexivity.
  - reflexivity.
  - cbn. lia.
  - repeat constructor; cbn; lia.
  - repeat constructor; cbn; lia.
Defined.

(** ** The spaces around the tags in the normalizer's output *)

Module SpaceFacts.


Section Vocabulary.
Variable V : list string.
Hypothesis V_shape : forallb tag_shape V = true.






End Vocabulary.

End SpaceFacts.



(** ** The normalizer on a text of fragments and tags *)

Module ClosedFacts.

Lemma closed_body_shape (b : string) :
  closed_body b = true -> forallb body_char (list_ascii_of_string b) = true.
Proof.
  induction b as [|c b IH]; [discriminate|].
  cbn [closed_body list_ascii_of_string forallb].
  destruct b as [|c' b'].
  - intros H. apply Ascii.eqb_eq in H. subst c. reflexivity.
  - intros H. apply andb_prop in H. destruct H as [H Hb].
    apply andb_prop in H. destruct H as [Hc _].
    rewrite Hc. exact (IH Hb).
Qed.

Lemma closed_tag_shape (T : string) : closed_tag T = true -> tag_shape T = true.
Proof.
  destruct T as [|c b]; [discriminate|]. cbn [closed_tag tag_shape].
  intros H. apply andb_prop in H. destruct H as [Hc Hb].
  rewrite Hc. now apply closed_body_shape.
Qed.

Lemma closed_shape (V : list string) :
  forallb closed_tag V = true -> forallb tag_shape V = true.
Proof.
  rewrite !forallb_forall. intros H T HT. now apply closed_tag_shape, H.
Qed.

(** Of two closed tags, one starts the other only when they are the
    same. *)
Lemma closed_body_prefix (b' : string) :
  forall b rest0, closed_body b' = true -> closed_body b = true ->
    String.prefix b' (b ++ rest0) = true -> b' = b.
Proof.
  induction b' as [|c' b' IH]; intros b rest0 H' H Hp; [discriminate|].
  destruct b as [|c b]; [discriminate|].
  cbn [append] in Hp. rewrite StrFacts.prefix_cons in Hp.
  destruct (ascii_dec c' c) as [->|]; [|discriminate].
  destruct b' as [|d' b'']; destruct b as [|d b''0].
  - reflexivity.
  - exfalso. cbn [closed_body] in H', H.
    apply Ascii.eqb_eq in H'. subst c.
    apply andb_prop in H. destruct H as [H _].
    apply andb_prop in H. destruct H as [_ H]. discriminate.
  - exfalso. cbn [closed_body] in H', H.
    apply Ascii.eqb_eq in H. subst c.
    apply andb_prop in H'. destruct H' as [H' _].
    apply andb_prop in H'. destruct H' as [_ H']. discriminate.
  - f_equal. apply (IH (String d b''0) rest0); [| |exact Hp].
    + cbn [closed_body] in H'. apply andb_prop in H'. now destruct H'.
    + cbn [closed_body] in H. apply andb_prop in H. now destruct H.
Qed.

Lemma closed_tag_prefix (T' T rest0 : string) :
  closed_tag T' = true -> closed_tag T = true ->
  String.prefix T' (T ++ rest0) = true -> T' = T.
Proof.
  destruct T' as [|c' b']; [discriminate|].
  destruct T as [|c b]; [discriminate|].
  cbn [closed_tag]. intros H' H Hp.
  apply andb_prop in H'. destruct H' as [Hc' Hb'].
  apply andb_prop in H. destruct H as [Hc Hb].
  apply Ascii.eqb_eq in Hc', Hc. subst c' c.
  cbn [append] in Hp. rewrite StrFacts.prefix_cons in Hp.
  destruct (ascii_dec "<" "<"); [|discriminate].
  f_equal. now apply (closed_body_prefix b' b rest0).
Qed.

Section Vocabulary.
Variable V : list string.
Hypothesis V_closed : forallb closed_tag V = true.

Lemma find_only (p : string -> bool) (T : string) (l : list string) :
  (forall x, In x l -> p x = true -> x = T) -> In T l -> p T = true ->
  find p l = Some T.
Proof.
  induction l as [|x l IH]; intros Hu Hin Hp; [contradiction|].
  cbn [find]. destruct (p x) eqn:E.
  - f_equal. apply Hu; [now left | exact E].
  - apply IH; [|destruct Hin as [->|]; [congruence | assumption] | exact Hp].
    intros y Hy. apply Hu. now right.
Qed.

(** A tag of the vocabulary is the one the pattern matches where the
    text goes on with it. *)
Lemma closed_first_tag (T rest0 : string) :
  In T V -> first_tag V (T ++ rest0) = Some T.
Proof.
  intros Hin. unfold first_tag. apply find_only.
  - intros x Hx Hp. rewrite forallb_forall in V_closed.
    apply (closed_tag_prefix x T rest0); [now apply V_closed
                                         | now apply V_closed | exact Hp].
  - exact Hin.
  - apply ReFacts.prefix_app.
Qed.

Lemma no_lt_tag_free (f : string) : no_lt f = true -> tag_free V f.
Proof.
  intros Hf T HT [a [b E]].
  pose proof (closed_shape V V_closed) as Hs.
  destruct (LoopFacts.tag_starts V Hs T b HT) as [t Et].
  rewrite E, Et, ParseFacts.no_lt_app in Hf.
  apply andb_prop in Hf. destruct Hf as [_ Hf]. discriminate.
Qed.

Lemma no_lt_no_tag_in (f c : string) :
  no_lt f = true -> c = EmptyString \/ (exists t, c = String "<" t) ->
  no_tag_in V f c.
Proof.
  intros Hf Hc.
  apply (TagFacts.tag_free_no_tag_in V (closed_shape V V_closed));
    [now apply no_lt_tag_free | exact Hc].
Qed.

(** The pieces of a text of fragments without [<] and tags of the
    vocabulary. *)
Lemma Splits_tagged (l : list (string * string)) (tail : string) :
  Forall (fun fb => no_lt (fst fb) = true
                    /\ In ("<" ++ snd fb ++ ">")%string V) l ->
  no_lt tail = true ->
  Splits V (tagged l tail) (pieces l tail).
Proof.
  intros Hl Ht. induction Hl as [|[f body] l [Hf Hin] Hl IH];
    cbn [tagged pieces].
  - constructor. apply no_lt_no_tag_in; [exact Ht | now left].
  - cbn [fst snd] in Hf, Hin.
    replace (f ++ "<" ++ body ++ ">" ++ tagged l tail)%string
      with (f ++ ("<" ++ body ++ ">") ++ tagged l tail)%string
      by (cbn [append]; now rewrite !StrFacts.app_assoc).
    constructor; [|now apply closed_first_tag | exact IH].
    apply no_lt_no_tag_in; [exact Hf|]. right. cbn [append]. now eexists.
Qed.

End Vocabulary.

Lemma mem_In (x : string) (l : list string) :
  PyStr.mem x l = true -> In x l.
Proof.
  unfold PyStr.mem. intros H. apply existsb_exists in H.
  destruct H as [y [Hy E]]. apply String.eqb_eq in E. now subst.
Qed.

Lemma tagged_in (V : list string) (l : list (string * string)) :
  forallb (fun fb => no_lt (fst fb)
                     && PyStr.mem ("<" ++ snd fb ++ ">") V)%bool l = true ->
  Forall (fun fb => no_lt (fst fb) = true
                    /\ In ("<" ++ snd fb ++ ">")%string V) l.
Proof.
  intros H. apply Forall_forall. intros fb Hfb.
  rewrite forallb_forall in H. specialize (H fb Hfb).
  apply andb_prop in H. destruct H as [H1 H2].
  split; [exact H1 | now apply mem_In].
Qed.

Lemma rend_after_pieces (l : list (string * string)) (tail : string) :
  rend_after (pieces l tail) = tagged (map trim l) (end_pad tail).
Proof.
  induction l as [|[f body] l IH]; cbn [pieces rend_after map tagged].
  - reflexivity.
  - rewrite IH. unfold trim at 1. cbn [fst snd append].
    now rewrite !StrFacts.app_assoc.
Qed.

Lemma rend_first_pieces (f body : string) (l : list (string * string))
    (tail : string) :
  rend_first (pieces ((f, body) :: l) tail)
  = tagged ((PyStr.rstrip f, body) :: map trim l) (end_pad tail).
Proof.
  cbn [pieces rend_first tagged]. rewrite rend_after_pieces.
  cbn [append]. now rewrite !StrFacts.app_assoc.
Qed.

End ClosedFacts.

(** X16.  The normalizer on a text of fragments without [<] and tags of
    the vocabulary (each closed by its only [>]): the tags stay, the
    first fragment loses the white space at its end, every fragment
    between two tags gets one space before it, if it does not start with
    one, and loses the white space at its end (so a fragment of white
    space goes), and what follows the last tag gets one space before it,
    if it is not empty and does not start with one. *)
Theorem normalize_tagged (tk : tokenizer) (f body : string)
    (l : list (string * string)) (tail : string) :
  forallb closed_tag (all_tag_tokens tk) = true ->
  forallb is_literal (all_tag_tokens tk) = true ->
  forallb (fun fb => no_lt (fst fb)
                     && PyStr.mem ("<" ++ snd fb ++ ">") (all_tag_tokens tk))%bool
          ((f, body) :: l) = true ->
  no_lt tail = true ->
  _add_remove_spaces_around_tag_tokens tk (tagged ((f, body) :: l) tail)
  = Ok (tagged ((PyStr.rstrip f, body) :: map trim l) (end_pad tail)).
Proof.
  intros Hc Hlit Hl Ht.
  apply ClosedFacts.tagged_in in Hl.
  rewrite <- ClosedFacts.rend_first_pieces.
  apply normalize_rend.
  - now apply ClosedFacts.closed_shape.
  - exact Hlit.
  - inversion Hl as [|? ? [_ Hin] _]; subst. intros E. rewrite E in Hin.
    contradiction.
  - now apply ClosedFacts.Splits_tagged.
Qed.

Lemma normalize_tagged_witness :
  _add_remove_spaces_around_tag_tokens kosmos2_tokenizer
    (tagged [(" An  ", "phrase"); ("apple ", "/phrase"); (" ", "object");
             (" ", "patch_index_0012"); ("", "/object")] "is red ")
  = Ok (tagged ((PyStr.rstrip " An  ", "phrase")
                :: map trim [("apple ", "/phrase"); (" ", "object");
                             (" ", "patch_index_0012"); ("", "/object")])
               (end_pad "is red ")).
Proof.
  apply (normalize_tagged kosmos2_tokenizer " An  " "phrase"
           [("apple ", "/phrase"); (" ", "object");
            (" ", "patch_index_0012"); ("", "/object")] "is red ");
    vm_compute; reflexivity.
Defined.

(** ** Encoding, then extracting *)

Module EncodeFacts.













Section Insert.
Variable A : Arith.ops.
Variable tk : tokenizer.
Variable n : nat.
Variable tail : string.
Hypothesis tail_plain : no_lt tail = true.



End Insert.









Section Vocabulary.
Variable tk : tokenizer.
Hypothesis tags_known :
  forallb (fun T => PyStr.mem T (tag_tokens tk))
    ["<phrase>"; "</phrase>"; "<object>"; "</object>";
     "</delimiter_of_multi_objects/>"] = true.




End Vocabulary.






End EncodeFacts.



(** ** The image tokens *)

Module ImageFacts.

Lemma join_cons (sep x y : string) (l : list string) :
  PyStr.join sep (x :: y :: l) = (x ++ sep ++ PyStr.join sep (y :: l))%string.
Proof. reflexivity. Qed.

Lemma join_image_tail (n : nat) (r : string) :
  tagged (repeat (" ", "image") n ++ [(" ", "/image")]) r
  = (" " ++ PyStr.join " " (repeat "<image>" n ++ ["</image>"]) ++ r)%string.
Proof.
  induction n as [|n IH]; [reflexivity|].
  cbn [repeat app tagged]. rewrite IH.
  destruct (repeat "<image>" n ++ ["</image>"]) as [|y l] eqn:E.
  { destruct n; discriminate. }
  rewrite join_cons.
  repeat (rewrite !StrFacts.app_assoc; cbn [append]). reflexivity.
Qed.

(** [img_info] is the text of its fragments and tags. *)
Lemma join_image (n : nat) (r : string) :
  (PyStr.join " " (["<image>"] ++ repeat "<image>" n ++ ["</image>"]) ++ r)%string
  = tagged (image_frags " " n) r.
Proof.
  unfold image_frags. cbn [tagged]. rewrite join_image_tail.
  cbn [app]. destruct (repeat "<image>" n ++ ["</image>"]) as [|y l] eqn:E.
  { destruct n; discriminate. }
  rewrite join_cons.
  repeat (rewrite !StrFacts.app_assoc; cbn [append]). reflexivity.
Qed.







End ImageFacts.

(** ** The matcher and the inserter after a prefix *)

Module ShiftFacts.

Lemma leb_shift (a b d : nat) : (a + d <=? b + d) = (a <=? b).
Proof.
  destruct (a <=? b) eqn:E.
  - apply Nat.leb_le in E. apply Nat.leb_le. lia.
  - apply Nat.leb_gt in E. apply Nat.leb_gt. lia.
Qed.

Lemma eqb_shift (a b d : nat) : (a + d =? b + d) = (a =? b).
Proof.
  destruct (a =? b) eqn:E.
  - apply Nat.eqb_eq in E. apply Nat.eqb_eq. lia.
  - apply Nat.eqb_neq in E. apply Nat.eqb_neq. lia.
Qed.

Lemma eat_shifts (r : regex) (d : nat) : shifts d (eat r).
Proof.
  intros s k k' Hk. unfold eat. cbn [shift rest].
  destruct (rest s) as [|c t]; [reflexivity|].
  destruct (char_ok r c); [|reflexivity].
  exact (Hk (MState (S (pos s)) t (caps s))).
Qed.

Lemma star_loop_shifts (step : mstate -> cont -> option mstate)
    (greedy : bool) (fuel d : nat) :
  shifts d step -> shifts d (star_loop step greedy fuel).
Proof.
  intros Hstep. induction fuel as [|fuel IH]; intros s k k' Hk.
  - cbn [star_loop]. apply Hk.
  - cbn [star_loop].
    rewrite (Hstep s
               (fun s' => if pos s' <=? pos s then None
                          else star_loop step greedy fuel s' k)).
    + rewrite (Hk s).
      destruct greedy.
      * now destruct (step s _).
      * now destruct (k s).
    + intros s'. cbn [shift pos]. rewrite leb_shift.
      destruct (pos s' <=? pos s); [reflexivity|]. now apply IH.
Qed.

(** The matcher does not look at the offset: [d] characters further it
    finds the same match, [d] characters further. *)
Lemma rmatch_shifts (r : regex) (d : nat) : shifts d (rmatch r).
Proof.
  induction r as [| c | | c | | a IHa b IHb | a IHa b IHb | g a IHa | n a IHa];
    try exact (eat_shifts _ d).
  - intros s k k' Hk. apply Hk.
  - intros s k k' Hk. cbn [rmatch]. apply IHa. intros s'. now apply IHb.
  - intros s k k' Hk. cbn [rmatch].
    rewrite (IHa s k k' Hk), (IHb s k k' Hk).
    now destruct (rmatch a s k).
  - intros s k k' Hk. cbn [rmatch].
    now apply (star_loop_shifts _ _ _ _ IHa).
  - intros s k k' Hk. cbn [rmatch]. apply IHa. intros s'.
    exact (Hk (MState (pos s') (rest s') ((n, (pos s, pos s')) :: caps s'))).
Qed.

Lemma match_at_shift (r : regex) (p d : nat) (s : string) (adv : bool) :
  match_at r (p + d) s adv = option_map (shift_match d) (match_at r p s adv).
Proof.
  unfold match_at.
  change (MState (p + d) s []) with (shift d (MState p s [])).
  rewrite (rmatch_shifts r d (MState p s [])
             (fun e => if (adv && (pos e =? p))%bool then None else Some e)).
  - now destruct (rmatch r _ _).
  - intros s'. cbn [shift pos]. rewrite eqb_shift.
    now destruct (adv && (pos s' =? p))%bool.
Qed.

Lemma search_from_shift (r : regex) (d : nat) (s : string) :
  forall p adv,
    search_from r (p + d) s adv
    = option_map (shift_match d) (search_from r p s adv).
Proof.
  induction s as [|c s IH]; intros p adv; cbn [search_from];
    rewrite match_at_shift; destruct (match_at r p _ adv); try reflexivity.
  exact (IH (S p) false).
Qed.

Lemma finditer_from_shift (r : regex) (d fuel : nat) :
  forall p s adv,
    finditer_from r fuel (p + d) s adv
    = map (shift_match d) (finditer_from r fuel p s adv).
Proof.
  induction fuel as [|fuel IH]; intros p s adv; [reflexivity|].
  cbn [finditer_from]. rewrite search_from_shift.
  destruct (search_from r p s adv) as [m|]; [|reflexivity].
  cbn [option_map map shift_match m_end m_start m_rest].
  now rewrite eqb_shift, IH.
Qed.

(** Where a match is, in the text that was searched. *)
Lemma match_at_tracks (r : regex) (p : nat) (s : string) (adv : bool)
    (m : match_obj) :
  match_at r p s adv = Some m ->
  exists w, s = (w ++ m_rest m)%string
    /\ m_start m = p /\ m_end m = p + String.length w
    /\ (adv = true -> 0 < String.length w).
Proof.
  unfold match_at. destruct (rmatch _ _ _) as [e|] eqn:E; [|discriminate].
  intros H. injection H as <-. cbn [m_rest m_start m_end].
  apply TrackFacts.rmatch_tracks in E. destruct E as (s1 & w & H1 & E1 & P1).
  cbn [rest pos] in E1, P1.
  destruct (adv && (pos s1 =? p))%bool eqn:Ea; [discriminate|].
  injection H1 as <-. exists w. repeat split; [exact E1 | exact P1 |].
  intros ->. cbn [andb] in Ea. apply Nat.eqb_neq in Ea. lia.
Qed.

Lemma search_from_tracks (r : regex) (s : string) :
  forall p adv m,
    search_from r p s adv = Some m ->
    exists skip w, s = (skip ++ w ++ m_rest m)%string
      /\ m_start m = p + String.length skip
      /\ m_end m = m_start m + String.length w
      /\ (adv = true -> 0 < String.length skip + String.length w).
Proof.
  induction s as [|c s IH]; intros p adv m H; cbn [search_from] in H.
  - destruct (match_at r p "" adv) as [m'|] eqn:E; [|discriminate].
    injection H as ->. apply match_at_tracks in E.
    destruct E as (w & E & Ps & Pe & Ha). exists EmptyString, w.
    cbn [append String.length]. repeat split; [exact E | lia | lia |].
    intros Hadv. specialize (Ha Hadv). lia.
  - destruct (match_at r p (String c s) adv) as [m'|] eqn:E.
    + injection H as ->. apply match_at_tracks in E.
      destruct E as (w & E & Ps & Pe & Ha). exists EmptyString, w.
      cbn [append String.length]. repeat split; [exact E | lia | lia |].
      intros Hadv. specialize (Ha Hadv). lia.
    + apply IH in H. destruct H as (skip & w & E' & Ps & Pe & _).
      exists (String c skip), w. cbn [append String.length].
      repeat split; [now rewrite E' | lia | lia | lia].
Qed.

(** The matches do not depend on the fuel, when there is enough of it. *)
Lemma finditer_fuel (r : regex) :
  forall f1 f2 p s (adv : bool),
    2 * String.length s + (if adv then 0 else 1) < f1 ->
    2 * String.length s + (if adv then 0 else 1) < f2 ->
    finditer_from r f1 p s adv = finditer_from r f2 p s adv.
Proof.
  induction f1 as [|f1 IH]; intros f2 p s adv H1 H2; [lia|].
  destruct f2 as [|f2]; [lia|]. cbn [finditer_from].
  destruct (search_from r p s adv) as [m|] eqn:E; [|reflexivity].
  f_equal. apply search_from_tracks in E.
  destruct E as (skip & w & Es & Ps & Pe & Ha).
  assert (Hlen : String.length s
                 = String.length skip + String.length w
                   + String.length (m_rest m)).
  { rewrite Es at 1. rewrite !StrFacts.length_app. lia. }
  assert (Hadv : adv = true -> 0 < String.length skip + String.length w)
    by exact Ha.
  clear Ha Es.
  destruct (m_end m =? m_start m) eqn:Ee.
  - apply Nat.eqb_eq in Ee.
    apply IH; destruct adv; try specialize (Hadv eq_refl); lia.
  - apply Nat.eqb_neq in Ee.
    apply IH; destruct adv; try specialize (Hadv eq_refl); lia.
Qed.

(** The search goes over a prefix in which no match starts. *)
Lemma search_skip (r : regex) (t : string) (P : string) :
  (forall a b, P = (a ++ b)%string -> b <> EmptyString ->
     forall p, match_at r p (b ++ t) false = None) ->
  forall p, search_from r p (P ++ t) false
            = search_from r (p + String.length P) t false.
Proof.
  induction P as [|c P IH]; intros H p.
  - cbn [append String.length]. now rewrite Nat.add_0_r.
  - cbn [append search_from].
    pose proof (H EmptyString (String c P) eq_refl) as Hm.
    cbn [append] in Hm. rewrite Hm by discriminate.
    replace (p + String.length (String c P)) with (S p + String.length P)
      by (cbn [String.length]; lia).
    apply IH. intros a b E Hb q.
    apply (H (String c a) b); [now rewrite E | exact Hb].
Qed.

(** The matches of a text after a prefix in which no match starts are
    the matches of the text, further by the length of the prefix. *)
Lemma finditer_prefix (r : regex) (P t : string) :
  (forall a b, P = (a ++ b)%string -> b <> EmptyString ->
     forall p, match_at r p (b ++ t) false = None) ->
  finditer r (P ++ t) = map (shift_match (String.length P)) (finditer r t).
Proof.
  intros H. unfold finditer.
  replace (2 * String.length (P ++ t) + 2)
    with (S (2 * String.length (P ++ t) + 1)) by lia.
  replace (2 * String.length t + 2) with (S (2 * String.length t + 1)) by lia.
  cbn [finditer_from]. rewrite (search_skip r t P H 0).
  rewrite search_from_shift.
  destruct (search_from r 0 t false) as [m|] eqn:E; [|reflexivity].
  cbn [option_map map shift_match m_end m_start m_rest].
  rewrite eqb_shift, finditer_from_shift. f_equal. f_equal.
  apply search_from_tracks in E.
  destruct E as (skip & w & Es & Ps & Pe & _).
  assert (Hlen : String.length t
                 = String.length skip + String.length w
                   + String.length (m_rest m)).
  { rewrite Es at 1. rewrite !StrFacts.length_app. lia. }
  rewrite StrFacts.length_app.
  destruct (m_end m =? m_start m) eqn:Ee.
  - apply finditer_fuel; lia.
  - apply Nat.eqb_neq in Ee. apply finditer_fuel; lia.
Qed.

(** No [<phrase>] starts in a text whose [<] are not followed by [p]. *)
Lemma no_phrase_open_app (a b : string) :
  no_phrase_open (a ++ b) = true -> no_phrase_open b = true.
Proof.
  induction a as [|c a IH]; [trivial|].
  cbn [append no_phrase_open]. destruct (Ascii.eqb c "<"); [|exact IH].
  destruct (a ++ b)%string as [|c' u] eqn:E; [discriminate|].
  intros H. apply andb_prop in H. destruct H as [_ H]. now apply IH.
Qed.

Lemma phrase_needs_open (P t : string) :
  no_phrase_open P = true ->
  forall a b, P = (a ++ b)%string -> b <> EmptyString ->
    forall p, match_at phrase_pattern p (b ++ t) false = None.
Proof.
  intros HP a b E Hb p. rewrite E in HP. apply no_phrase_open_app in HP.
  unfold match_at, phrase_pattern. cbn [Seq].
  rewrite PairFacts.rmatch_Cat, ReFacts.rmatch_Lit_fail; [reflexivity|].
  cbn [rest]. destruct b as [|c b]; [now elim Hb|].
  cbn [no_phrase_open] in HP. cbn [append String.prefix].
  destruct (ascii_dec "<" c) as [<-|]; [|reflexivity].
  cbn [Ascii.eqb Bool.eqb] in HP.
  destruct b as [|c' b]; [discriminate|].
  apply andb_prop in HP. destruct HP as [Hc _].
  cbn [append String.prefix].
  destruct (ascii_dec "p" c') as [<-|]; [discriminate | reflexivity].
Qed.

(** [img_info] and the space after it. *)
Lemma image_info_open (n : nat) :
  no_phrase_open
    (PyStr.join " " (["<image>"] ++ repeat "<image>" n ++ ["</image>"]) ++ " ")
  = true.
Proof.
  rewrite ImageFacts.join_image. unfold image_frags. cbn [tagged].
  induction n as [|n IH]; [reflexivity|]. exact IH.
Qed.

Lemma substring_after (P t : string) (c n : nat) :
  substring (c + String.length P) n (P ++ t) = substring c n t.
Proof.
  induction P as [|x P IH]; cbn [append String.length].
  - now rewrite Nat.add_0_r.
  - rewrite Nat.add_succ_r. cbn [substring]. exact IH.
Qed.

Lemma substring_over (P t : string) (n : nat) :
  substring 0 (n + String.length P) (P ++ t) = (P ++ substring 0 n t)%string.
Proof.
  induction P as [|x P IH]; cbn [append String.length].
  - now rewrite Nat.add_0_r.
  - rewrite Nat.add_succ_r. cbn [substring]. now rewrite IH.
Qed.

Lemma drop_after (P t : string) (c : nat) :
  PyStr.drop (c + String.length P) (P ++ t) = PyStr.drop c t.
Proof.
  induction P as [|x P IH]; cbn [append String.length].
  - now rewrite Nat.add_0_r.
  - rewrite Nat.add_succ_r. cbn [PyStr.drop]. exact IH.
Qed.

Lemma combine_map_l {X Y Z : Type} (f : X -> Y) (l : list X) (l' : list Z) :
  combine (map f l) l' = map (fun xz => (f (fst xz), snd xz)) (combine l l').
Proof.
  revert l'. induction l as [|x l IH]; intros [|z l']; try reflexivity.
  cbn [map combine fst snd]. now rewrite IH.
Qed.

Section Insert.
Variable A : Arith.ops.
Variable tk : tokenizer.
Variables P t : string.

Lemma insert_loop_shift (l : list (match_obj * bbox_group (Arith.num A))) :
  forall c,
    insert_loop A tk (P ++ t) (c + String.length P)
      (map (fun mb => (shift_match (String.length P) (fst mb), snd mb)) l)
    = match insert_loop A tk t c l with
      | Ok (buffer, last) => Ok (buffer, last + String.length P)
      | Raise e => Raise e
      end.
Proof.
  induction l as [|[m b] l IH]; intros c; [reflexivity|].
  cbn [map fst snd insert_loop shift_match m_end].
  unfold PyStr.slice.
  replace (m_end m + String.length P - (c + String.length P))
    with (m_end m - c) by lia.
  rewrite substring_after.
  destruct (object_block A tk b) as [block|e]; [|reflexivity].
  cbn [bind]. rewrite IH.
  now destruct (insert_loop A tk t (m_end m) l) as [[buffer last]|e].
Qed.

Hypothesis P_open : no_phrase_open P = true.

(** The inserter leaves the prefix as it is, and does to the text after
    it what it does to that text alone. *)
Lemma insert_prefix (bboxes : option (list (bbox_group (Arith.num A)))) :
  _insert_patch_index_tokens A tk (P ++ t) bboxes
  = with_prefix P (_insert_patch_index_tokens A tk t bboxes).
Proof.
  destruct bboxes as [[|b bs]|]; try reflexivity.
  unfold _insert_patch_index_tokens.
  rewrite (finditer_prefix phrase_pattern P t (phrase_needs_open P t P_open)).
  rewrite length_map, combine_map_l.
  destruct (finditer phrase_pattern t) as [|m ms]; [reflexivity|].
  destruct (negb (length (m :: ms) =? length (b :: bs))); [reflexivity|].
  cbn [combine map fst snd insert_loop shift_match m_end].
  unfold PyStr.slice. rewrite !Nat.sub_0_r, substring_over.
  destruct (object_block A tk b) as [block|e]; [|reflexivity].
  cbn [bind]. rewrite insert_loop_shift.
  destruct (insert_loop A tk t (m_end m) (combine ms bs))
    as [[buffer last]|e]; [|reflexivity].
  cbn [bind with_prefix]. rewrite StrFacts.length_app, drop_after.
  replace (last + String.length P <? String.length P + String.length t)
    with (last <? String.length t).
  2:{ destruct (last <? String.length t) eqn:E; symmetry.
      - apply Nat.ltb_lt in E. apply Nat.ltb_lt. lia.
      - apply Nat.ltb_ge in E. apply Nat.ltb_ge. lia. }
  f_equal.
  destruct (last <? String.length t); rewrite <- ?app_comm_cons;
    rewrite !TrackFacts.concat_cons; now rewrite StrFacts.app_assoc.
Qed.

End Insert.

End ShiftFacts.

(** ** The caption of an encoded text *)

Module EndFacts.














End EndFacts.



(** X19.  [preprocess_single] fails when, and as, the inserter fails on
    the stripped text alone, with an image or without: the phrases are
    counted in the text, not in the image tokens, and the normalizer does
    not fail. *)
Theorem preprocess_single_raises (A : Arith.ops) (tk : tokenizer)
    (num_image_tokens : nat) (text : string) (image : bool)
    (bboxes : option (list (bbox_group (Arith.num A)))) (e : exn) :
  forallb is_literal (all_tag_tokens tk) = true ->
  preprocess_single A tk num_image_tokens text image bboxes = Raise e
  <-> _insert_patch_index_tokens A tk (PyStr.strip text) bboxes = Raise e.
Proof.
  intros Hlit. unfold preprocess_single.
  assert (Hn : forall r, _add_remove_spaces_around_tag_tokens tk r = Raise e
                         -> False).
  { intros r. unfold _add_remove_spaces_around_tag_tokens.
    rewrite Hlit. discriminate. }
  destruct image.
  - rewrite <- StrFacts.app_assoc.
    rewrite (ShiftFacts.insert_prefix A tk _ _
               (ShiftFacts.image_info_open num_image_tokens)).
    destruct (_insert_patch_index_tokens A tk (PyStr.strip text) bboxes)
      as [r|e']; cbn [with_prefix bind].
    + split; [intros H; now apply Hn in H | discriminate].
    + reflexivity.
  - destruct (_insert_patch_index_tokens A tk (PyStr.strip text) bboxes)
      as [r|e']; cbn [bind].
    + split; [intros H; now apply Hn in H | discriminate].
    + reflexivity.
Qed.

Lemma preprocess_single_raises_witness :
  preprocess_single Arith.exact kosmos2_tokenizer 64
    " <phrase>a dog</phrase> and a cat " true
    (Some [Boxes [Some (Patch 5 911)]; NoBox])
  = Raise (CountMismatch 1 2)
  <-> _insert_patch_index_tokens Arith.exact kosmos2_tokenizer
        (PyStr.strip " <phrase>a dog</phrase> and a cat ")
        (Some [Boxes [Some (Patch 5 911)]; NoBox])
      = Raise (CountMismatch 1 2).
Proof.
  apply (preprocess_single_raises Arith.exact kosmos2_tokenizer 64
           " <phrase>a dog</phrase> and a cat " true
           (Some [Boxes [Some (Patch 5 911)]; NoBox]) (CountMismatch 1 2)).
  vm_compute; reflexivity.
Defined.


